(** * Inverted index over a segmented block store, and its scoring front end

    A shallow embedding of [inverted_index_gcp.py] (the segmented binary
    writer and reader, the 6-byte posting codec, the [InvertedIndex] class)
    and of the loading and scoring methods of [search_frontend.py], followed
    by the properties of the specification that are stated about them.

    Conventions.
    - Python [int] is [Z]; [bytes] is [list byte]; a [dict] is a [gmap],
      and where the code iterates over its items ([posting_lists_iter]) the
      list of the items, in the order of the dictionary, is given beside
      it; a [Counter] whose insertion order is observed (the scores, whose
      order decides ties, and the counts of one document) is an association
      list.
    - An exception is [None].
    - A file that is read is a file object of the built-in [open]: [seek]
      raises on a negative offset, [read(-1)] reads to the end of the file,
      and [read] raises on a size below -1.
    - A segment file [f'{name}_{i:03}.bin'] is named by the pair [(name, i)].
      The block store is the content of one directory ([base_dir], local or
      in a bucket), keyed by these names: base names have no directory part,
      so that the file [base_dir / name] the writer records and the file
      [base_dir / basename(name)] the reader opens are the same.
    - The scoring methods are given the query as its tokens
      ([self.tokenize(query)]) and the state that [load_metadata] and the
      three [load_*_index] leave. Their arithmetic is a parameter
      ([PyFloat]): the statements hold whatever the operations on floats
      compute. *)

From Stdlib Require Import ZArith Lia Strings.Byte Reals Lra.
From stdpp Require Import gmap strings list fin_maps pretty sorting.

#[local] Set Warnings "-clear-no-such-hyp".
#[local] Open Scope Z_scope.

(** ** Python primitives *)

(** Clipping of a slice bound [k] against a sequence of length [len]. *)
Definition py_index (len k : Z) : Z :=
  if k <? 0 then Z.max 0 (len + k) else Z.min k len.

(** [l[i:j]] *)
Definition py_slice {A} (i j : Z) (l : list A) : list A :=
  let len := Z.of_nat (length l) in
  let a := py_index len i in
  let b := py_index len j in
  take (Z.to_nat (b - a)) (drop (Z.to_nat a) l).

(** [l[:n]] *)
Definition py_upto {A} (n : Z) (l : list A) : list A := py_slice 0 n l.

(** [l[n:]] *)
Definition py_from {A} (n : Z) (l : list A) : list A :=
  py_slice n (Z.of_nat (length l)) l.

(** [range(n)] *)
Definition py_range (n : Z) : list Z := Z.of_nat <$> seq 0 (Z.to_nat n).

(** [len(l)] *)
Definition len {A} (l : list A) : Z := Z.of_nat (length l).

(** ** Bytes and big-endian integers *)

Definition byte_of_Z (z : Z) : byte :=
  default x00 (Byte.of_N (Z.to_N (z mod 256))).

Definition Z_of_byte (b : byte) : Z := Z.of_N (Byte.to_N b).

(** The [n] low base-256 digits of [v], most significant first. *)
Fixpoint big_digits (n : nat) (v : Z) : list byte :=
  match n with
  | O => []
  | S k => big_digits k (v / 256) ++ [byte_of_Z v]
  end.

(** [v.to_bytes(n, 'big')]; [OverflowError] when [v] is negative or does not
    fit in [n] bytes. *)
Definition to_bytes (v : Z) (n : nat) : option (list byte) :=
  if decide (0 ≤ v < 256 ^ Z.of_nat n) then Some (big_digits n v) else None.

(** [int.from_bytes(b, 'big')] *)
Definition from_bytes (b : list byte) : Z :=
  fold_left (λ acc x, acc * 256 + Z_of_byte x) b 0.

(** ** The posting codec *)

Definition TUPLE_SIZE : Z := 6.
Definition TF_MASK : Z := 2 ^ 16 - 1.

Abbreviation posting := (Z * Z)%type.

(** [(doc_id << 16 | (tf & TF_MASK)).to_bytes(TUPLE_SIZE, 'big')] *)
Definition encode_posting (p : posting) : option (list byte) :=
  to_bytes (Z.lor (Z.shiftl p.1 16) (Z.land p.2 TF_MASK)) (Z.to_nat TUPLE_SIZE).

(** [b''.join([... for doc_id, tf in pl])] *)
Definition encode_pl (pl : list posting) : option (list byte) :=
  @concat byte <$> mapM encode_posting pl.

(** Body of the decoding loop of [read_a_posting_list], for one [i]. *)
Definition decode_at (b : list byte) (i : Z) : posting :=
  (from_bytes (py_slice (i * TUPLE_SIZE) (i * TUPLE_SIZE + 4) b),
   from_bytes (py_slice (i * TUPLE_SIZE + 4) ((i + 1) * TUPLE_SIZE) b)).

(** [for i in range(n): posting_list.append(...)] *)
Definition decode_pl (b : list byte) (n : Z) : list posting :=
  decode_at b <$> py_range n.

(** The six bytes of one record: four of the document id, two of the term
    frequency, each big-endian. *)
Definition record_bytes (p : posting) : list byte :=
  big_digits 4 p.1 ++ big_digits 2 p.2.

(** ** The segmented block store *)

Definition BLOCK_SIZE : Z := 1999998.

(** [(name, i)] stands for the file [f'{name}_{i:03}.bin'] of the directory. *)
Abbreviation fname := (string * nat)%type.
Abbreviation store := (gmap fname (list byte)).
(** A recorded location [(file_name, offset)]. *)
Abbreviation loc := (fname * Z)%type.

(** [MultiFileWriter]: [_name] is the base name, [_f] the sequence number of
    the file that [_file_gen] produced last (the handle [self._f]), [_dir]
    the directory as the writer's calls leave it. *)
Record MultiFileWriter := mkWriter {
  _name : string;
  _f : nat;
  _dir : store
}.

(** Name of the current file ([self._f.name]). *)
Definition f_name (w : MultiFileWriter) : fname := (_name w, _f w).

(** [open(path, 'wb')]: creates the file, or truncates the one there. *)
Definition open_wb (fn : fname) (fs : store) : store := <[fn := []]> fs.

(** [MultiFileWriter.__init__]: the first file of the generator is opened. *)
Definition MultiFileWriter_init (name : string) (fs : store) : MultiFileWriter :=
  {| _name := name; _f := 0%nat; _dir := open_wb (name, 0%nat) fs |}.

(** [self._f.tell()]: files are written from their start and never sought. *)
Definition f_tell (w : MultiFileWriter) : Z :=
  len (default [] (_dir w !! f_name w)).

(** [self._f.write(chunk)] *)
Definition f_write (w : MultiFileWriter) (chunk : list byte) : MultiFileWriter :=
  {| _name := _name w; _f := _f w;
     _dir := <[f_name w := default [] (_dir w !! f_name w) ++ chunk]> (_dir w) |}.

(** [self._f.close(); self._f = next(self._file_gen)] *)
Definition next_file (w : MultiFileWriter) : MultiFileWriter :=
  {| _name := _name w; _f := S (_f w);
     _dir := open_wb (_name w, S (_f w)) (_dir w) |}.

(** The [while len(b) > 0] loop of [MultiFileWriter.write]; [fuel] bounds the
    number of iterations and [None] is a loop that has not ended by then. *)
Fixpoint write_loop (fuel : nat) (w : MultiFileWriter) (b : list byte)
    (locs : list loc) {struct fuel} : option (MultiFileWriter * list loc) :=
  if decide (len b > 0) then
    match fuel with
    | O => None
    | S fuel =>
        let pos := f_tell w in
        let remaining := BLOCK_SIZE - pos in
        let '(w, pos, remaining) :=
          if decide (remaining = 0) then (next_file w, 0, BLOCK_SIZE)
          else (w, pos, remaining) in
        let w := f_write w (py_upto remaining b) in
        let locs := locs ++ [(f_name w, pos)] in
        write_loop fuel w (py_from remaining b) locs
    end
  else Some (w, locs).

(** [MultiFileWriter.write]. An iteration that takes no byte leaves [b] and
    the position as they are, so a loop that ends does so within [len(b)]
    iterations. *)
Definition MultiFileWriter_write (w : MultiFileWriter) (b : list byte)
    : option (MultiFileWriter * list loc) :=
  write_loop (length b) w b [].

(** [f.seek(offset); f.read(n)] on a file of content [c], for an offset and a
    size that are not negative. *)
Definition f_read_at (c : list byte) (offset n : Z) : list byte :=
  take (Z.to_nat n) (drop (Z.to_nat offset) c).

(** [f.read(n)] at position [offset] of a file of content [c], for a file
    object of the built-in [open]: [n] bytes from there, fewer at the end of
    the file; every byte from there to the end when [n] is -1; a
    [ValueError] when [n] is below -1. *)
Definition f_read (c : list byte) (offset n : Z) : option (list byte) :=
  if decide (n = -1) then Some (drop (Z.to_nat offset) c)
  else if decide (n < -1) then None
  else Some (f_read_at c offset n).

(** The loop of [MultiFileReader.read], over the directory [fs]. A file that
    is not there raises when it is opened, and [f.seek] raises on a negative
    offset. The size [n_read] is negative for an offset beyond [BLOCK_SIZE]
    or a negative [n_bytes], and is passed to [f.read] as it is. The cache of
    handles [_open_files] has no effect on what is read. *)
Fixpoint read_loop (fs : store) (locs : list loc) (n_bytes : Z)
    (b : list (list byte)) : option (list byte) :=
  match locs with
  | [] => Some (concat b)
  | (name, offset) :: locs =>
      c ← fs !! name;
      if decide (offset < 0) then None
      else
        let n_read := Z.min n_bytes (BLOCK_SIZE - offset) in
        chunk ← f_read c offset n_read;
        read_loop fs locs (n_bytes - n_read) (b ++ [chunk])
  end.

(** [MultiFileReader.read] *)
Definition MultiFileReader_read (fs : store) (locs : list loc) (n_bytes : Z)
    : option (list byte) :=
  read_loop fs locs n_bytes [].

(** ** Vocabulary of the statements about the block store *)

(** [self._f] as the loop of [write] has it before it writes: the next file
    when the current one is full, else the current one. *)
Definition roll (w : MultiFileWriter) : MultiFileWriter :=
  if decide (BLOCK_SIZE - f_tell w = 0) then next_file w else w.

(** Every file the writer has opened is there and within capacity. *)
Definition writer_ok (w : MultiFileWriter) : Prop :=
  ∀ i, (i ≤ _f w)%nat →
    ∃ c, _dir w !! (_name w, i) = Some c ∧ len c ≤ BLOCK_SIZE.

(** From [w] to [w'] the files of the writer have only grown at their end. *)
Definition store_ext (w w' : MultiFileWriter) : Prop :=
  _name w' = _name w ∧ (_f w ≤ _f w')%nat ∧
  ∀ i c, (i ≤ _f w)%nat → _dir w !! (_name w, i) = Some c →
    ∃ extra, _dir w' !! (_name w, i) = Some (c ++ extra).

(** [spans fs name i off locs b i' off']: the bytes [b] (not empty) lie in
    the directory [fs] in the files [name_i], [name_(i+1)], ..., [name_i'],
    from offset [off] of the first to offset [off'] of the last: [locs]
    names one location per file, in file order, each the start of one
    contiguous chunk of [b]; every chunk but the last ends at capacity and
    every chunk but the first starts at offset 0. *)
Inductive spans (fs : store) (name : string)
    : nat → Z → list loc → list byte → nat → Z → Prop :=
  | spans_last i off c content :
      c ≠ [] → fs !! (name, i) = Some content →
      0 ≤ off → off + len c ≤ BLOCK_SIZE → off + len c ≤ len content →
      f_read_at content off (len c) = c →
      spans fs name i off [((name, i), off)] c i (off + len c)
  | spans_more i off c content locs rest i' off' :
      c ≠ [] → fs !! (name, i) = Some content →
      0 ≤ off → off + len c = BLOCK_SIZE → off + len c ≤ len content →
      f_read_at content off (len c) = c →
      rest ≠ [] → spans fs name (S i) 0 locs rest i' off' →
      spans fs name i off (((name, i), off) :: locs) (c ++ rest) i' off'.

(** Where a payload written at position [off] of file [i] starts: a full
    file sends it to the start of the next one. *)
Definition start_of (i : nat) (off : Z) : nat * Z :=
  if decide (off = BLOCK_SIZE) then (S i, 0) else (i, off).

(** [laid_out fs name i off locss payloads i' off']: the payloads lie in [fs]
    one after the other, the first from position [(i, off)] on and each one
    from where the one before it ends, the last ending at [(i', off')];
    [locss] gives the locations of each payload, none for an empty one. *)
Inductive laid_out (fs : store) (name : string)
    : nat → Z → list (list loc) → list (list byte) → nat → Z → Prop :=
  | laid_nil i off : laid_out fs name i off [] [] i off
  | laid_empty i off locss payloads i' off' :
      laid_out fs name i off locss payloads i' off' →
      laid_out fs name i off ([] :: locss) ([] :: payloads) i' off'
  | laid_cons i off locs b i1 off1 locss payloads i' off' :
      spans fs name (start_of i off).1 (start_of i off).2 locs b i1 off1 →
      laid_out fs name i1 off1 locss payloads i' off' →
      laid_out fs name i off (locs :: locss) (b :: payloads) i' off'.

(** A sequence of calls of [write] on one writer, with the locations each
    call returns. *)
Fixpoint write_seq (w : MultiFileWriter) (payloads : list (list byte))
    : option (MultiFileWriter * list (list loc)) :=
  match payloads with
  | [] => Some (w, [])
  | b :: payloads =>
      '(w, locs) ← MultiFileWriter_write w b;
      '(w, locss) ← write_seq w payloads;
      Some (w, locs :: locss)
  end.

(** ** InvertedIndex *)

(** A [dict] in insertion order: assignment to a present key keeps its place,
    assignment to a new key appends. *)
Section odict.
Context {K V : Type} `{EqDecision K}.

Fixpoint od_get (d : list (K * V)) (k : K) : option V :=
  match d with
  | [] => None
  | (k', v) :: d => if decide (k' = k) then Some v else od_get d k
  end.

Fixpoint od_set (d : list (K * V)) (k : K) (v : V) : list (K * V) :=
  match d with
  | [] => [(k, v)]
  | (k', v') :: d =>
      if decide (k' = k) then (k, v) :: d else (k', v') :: od_set d k v
  end.
End odict.

(** [Counter(tokens)], in order of first occurrence. *)
Definition Counter (tokens : list string) : list (string * Z) :=
  fold_left (λ c w, od_set c w (default 0 (od_get c w) + 1)) tokens [].

(** [c[w]] on a [Counter], and [c.get(w, 0)]: a missing key counts 0. *)
Definition count_of (c : gmap string Z) (w : string) : Z := default 0 (c !! w).

Record InvertedIndex := mkIndex {
  df : gmap string Z;
  term_total : gmap string Z;
  _posting_list : gmap string (list posting);
  posting_locs : gmap string (list loc)
}.

(** The four empty containers of [InvertedIndex.__init__]. *)
Definition empty_index : InvertedIndex :=
  {| df := ∅; term_total := ∅; _posting_list := ∅; posting_locs := ∅ |}.

(** [self.term_total.update(w2cnt)] *)
Definition counter_update (c : gmap string Z) (w2cnt : list (string * Z))
    : gmap string Z :=
  fold_left (λ c '(w, cnt), <[w := cnt + count_of c w]> c) w2cnt c.

(** [InvertedIndex.add_doc]: [self.df.get(w, 0) + 1] and the [append] for each
    entry of [w2cnt]. *)
Definition add_doc (idx : InvertedIndex) (doc_id : Z) (tokens : list string)
    : InvertedIndex :=
  let w2cnt := Counter tokens in
  let idx := {| df := df idx;
                term_total := counter_update (term_total idx) w2cnt;
                _posting_list := _posting_list idx;
                posting_locs := posting_locs idx |} in
  fold_left (λ idx '(w, cnt),
      {| df := <[w := count_of (df idx) w + 1]> (df idx);
         term_total := term_total idx;
         _posting_list :=
           <[w := default [] (_posting_list idx !! w) ++ [(doc_id, cnt)]]>
             (_posting_list idx);
         posting_locs := posting_locs idx |})
    w2cnt idx.

(** [InvertedIndex.__init__(docs)]: [docs.items()] as the list of its pairs. *)
Definition InvertedIndex_init (docs : list (Z * list string)) : InvertedIndex :=
  fold_left (λ idx '(doc_id, tokens), add_doc idx doc_id tokens) docs empty_index.

(** One iteration of the loop of [write_a_posting_list]. *)
Definition write_one (st : MultiFileWriter * gmap string (list loc))
    (w_pl : string * list posting)
    : option (MultiFileWriter * gmap string (list loc)) :=
  let '(writer, posting_locs) := st in
  let '(w, pl) := w_pl in
  b ← encode_pl pl;
  '(writer, locs) ← MultiFileWriter_write writer b;
  Some (writer, <[w := default [] (posting_locs !! w) ++ locs]> posting_locs).

(** [for w, pl in list_w_pl: ...] *)
Fixpoint write_all (st : MultiFileWriter * gmap string (list loc))
    (list_w_pl : list (string * list posting))
    : option (MultiFileWriter * gmap string (list loc)) :=
  match list_w_pl with
  | [] => Some st
  | w_pl :: list_w_pl => st ← write_one st w_pl; write_all st list_w_pl
  end.

(** [posting_locs[w].extend(locs)] for each pair, on a [defaultdict(list)]. *)
Definition record_all (m : gmap string (list loc))
    (kls : list (string * list loc)) : gmap string (list loc) :=
  fold_left (λ m '(k, locs), <[k := default [] (m !! k) ++ locs]> m) kls m.

(** [InvertedIndex.write_a_posting_list]: returns the directory it leaves and
    the content pickled to [f'{bucket_id}_posting_locs.pickle']; an
    [OverflowError] of the encoding leaves the function before the pickle is
    written. *)
Definition write_a_posting_list (b_w_pl : string * list (string * list posting))
    (fs : store) : option (store * gmap string (list loc)) :=
  let '(bucket_id, list_w_pl) := b_w_pl in
  '(writer, posting_locs) ←
    write_all (MultiFileWriter_init bucket_id fs, ∅) list_w_pl;
  Some (_dir writer, posting_locs).

(** [InvertedIndex.read_a_posting_list], over the directory [fs]. *)
Definition read_a_posting_list (idx : InvertedIndex) (fs : store) (w : string)
    : option (list posting) :=
  match posting_locs idx !! w with
  | None => Some []
  | Some locs =>
      b ← MultiFileReader_read fs locs (count_of (df idx) w * TUPLE_SIZE);
      Some (decode_pl b (count_of (df idx) w))
  end.

(** ** Vocabulary of the statements about the index statistics *)

(** Number of occurrences of [t] in a token list. *)
Definition occurrences (t : string) (tokens : list string) : Z :=
  Z.of_nat (length (filter (λ x, x = t) tokens)).

(** The ids of the documents whose token list contains [t]. *)
Definition docs_containing (t : string) (docs : list (Z * list string))
    : gset Z :=
  list_to_set (filter (λ d, t ∈ d.2) docs).*1.

Definition sum_Z (l : list Z) : Z := foldr Z.add 0 l.

(** ** Loading the shard location files ([search_frontend.py]) *)

(** [p in s] on strings. *)
Fixpoint str_in (p s : string) : bool :=
  String.prefix p s ||
  match s with
  | EmptyString => false
  | String _ s' => str_in p s'
  end.

(** The body of the [with blob.open("rb")] block of [_load_extra_locs], for
    the unpickled content [locs] of one shard location file:
    [index.posting_locs.update(locs)], then the loop over [locs.keys()],
    whose keys are distinct, so that their order does not show. *)
Definition merge_locs (index : InvertedIndex) (locs : gmap string (list loc))
    : InvertedIndex :=
  {| df := fold_left (λ d word, <[word := count_of d word + 1]> d)
             (map_to_list locs).*1 (df index);
     term_total := term_total index;
     _posting_list := _posting_list index;
     posting_locs := locs ∪ posting_locs index |}.

(** The loop of [_load_extra_locs] over the listed blobs, each given by its
    name and by what [pickle.load] makes of it, [None] when it raises: the
    exception leaves the loop, is caught around it, and what was merged
    before stays. *)
Fixpoint load_blobs (index : InvertedIndex)
    (blobs : list (string * option (gmap string (list loc)))) : InvertedIndex :=
  match blobs with
  | [] => index
  | (name, content) :: blobs =>
      if str_in "_posting_locs.pickle" name then
        match content with
        | Some locs => load_blobs (merge_locs index locs) blobs
        | None => index
        end
      else load_blobs index blobs
  end.

(** [SearchFrontend._load_extra_locs]: the index it is given, as it leaves
    it; [None] is an index that could not be loaded ([if not index: return]). *)
Definition _load_extra_locs (index : option InvertedIndex)
    (blobs : list (string * option (gmap string (list loc))))
    : option InvertedIndex :=
  match index with
  | None => None
  | Some index => Some (load_blobs index blobs)
  end.

(** ** The scoring methods ([search_frontend.py]) *)

(** Python [float], with the operations the scoring methods apply to it. The
    statements below hold for every such arithmetic; an operation that
    raises gives [None]. *)
Class PyFloat (F : Type) := {
  (** an [int] where a float is expected *)
  of_int : Z → F;
  (** the literals [0.7] and [0.3] *)
  f_0_7 : F;
  f_0_3 : F;
  fadd : F → F → F;
  fmul : F → F → F;
  (** [x / y]; [ZeroDivisionError] *)
  fdiv : F → F → option F;
  (** [n / m] on two ints; [ZeroDivisionError] *)
  int_truediv : Z → Z → option F;
  (** [math.log(x, 10)]; [ValueError] *)
  log_base10 : F → option F;
  (** [x < y] *)
  flt : F → F → bool
}.

(** The loaded state of [SearchFrontend] that the scoring methods read:
    the metadata, the three indices ([None] when loading failed) and, for
    each index, the directory [index.base_dir] of the bucket. *)
Record SearchFrontend (F : Type) := mkFrontend {
  id_to_title : gmap Z string;
  doc_norms : gmap Z F;
  body_index : option InvertedIndex;
  title_index : option InvertedIndex;
  anchor_index : option InvertedIndex;
  body_dir : store;
  title_dir : store;
  anchor_dir : store
}.
Arguments id_to_title {F}.
Arguments doc_norms {F}.
Arguments body_index {F}.
Arguments title_index {F}.
Arguments anchor_index {F}.
Arguments body_dir {F}.
Arguments title_dir {F}.
Arguments anchor_dir {F}.

(** [SearchFrontend._get_posting]: [try ... except: return []] around the
    read. *)
Definition _get_posting (index : option InvertedIndex) (fs : store)
    (token : string) : list posting :=
  match index with
  | None => []
  | Some index =>
      if decide (df index !! token = None) then []
      else default [] (read_a_posting_list index fs token)
  end.

(** A loop whose body may raise. *)
Fixpoint for_loop {A B} (body : A → B → option A) (a : A) (l : list B)
    : option A :=
  match l with
  | [] => Some a
  | x :: l => a ← body a x; for_loop body a l
  end.

(** [sorted(items, key=lambda x: x[1], reverse=True)]: the stable sort by
    descending value, for a comparison [lt] that is a strict weak order. *)
Fixpoint insert_desc {K V} (lt : V → V → bool) (x : K * V) (l : list (K * V))
    : list (K * V) :=
  match l with
  | [] => [x]
  | y :: l' => if lt x.2 y.2 then y :: insert_desc lt x l' else x :: l
  end.

Definition sorted_desc {K V} (lt : V → V → bool) (l : list (K * V))
    : list (K * V) :=
  foldr (insert_desc lt) [] l.

(** [[(str(d), self.id_to_title.get(int(d), "Unknown")) for d, _ in res]] *)
Definition render {V} (titles : gmap Z string) (res : list (Z * V))
    : list (string * string) :=
  (λ r, (pretty r.1, default "Unknown" (titles !! r.1))) <$> res.

(** [scores[int(d)] += 1] on a [Counter]. *)
Definition count_hit (scores : list (Z * Z)) (d : Z) : list (Z * Z) :=
  od_set scores d (default 0 (od_get scores d) + 1).

(** The loops of [search_title] and [search_anchor] over the query tokens. *)
Definition count_scores (index : option InvertedIndex) (fs : store)
    (tokens : list string) : list (Z * Z) :=
  fold_left (λ scores t,
      fold_left (λ scores p, count_hit scores p.1) (_get_posting index fs t)
        scores)
    tokens [].

Section scoring.
Context {F : Type} `{PyFloat F}.

(** [SearchFrontend.search_title], on [tokens = self.tokenize(query)]. *)
Definition search_title (fe : SearchFrontend F) (tokens : list string)
    : list (string * string) :=
  render (id_to_title fe)
    (sorted_desc Z.ltb (count_scores (title_index fe) (title_dir fe) tokens)).

(** [SearchFrontend.search_anchor]; its [print] of [self.anchor_index.df]
    raises when the index is [None]. *)
Definition search_anchor (fe : SearchFrontend F) (tokens : list string)
    : option (list (string * string)) :=
  match anchor_index fe with
  | None => None
  | Some _ =>
      Some (render (id_to_title fe)
              (sorted_desc Z.ltb
                 (count_scores (anchor_index fe) (anchor_dir fe) tokens)))
  end.

(** [scores[d] += x] on a [Counter], whose missing entries count [0]. *)
Definition score_add (scores : list (Z * F)) (d : Z) (x : F) : list (Z * F) :=
  od_set scores d (fadd (default (of_int 0) (od_get scores d)) x).

(** [self.doc_norms.get(d, 1)] *)
Definition norm_of (fe : SearchFrontend F) (d : Z) : F :=
  default (of_int 1) (doc_norms fe !! d).

(** [N = len(self.doc_norms) if self.doc_norms else 6000000] *)
Definition corpus_size (fe : SearchFrontend F) : Z :=
  if decide (size (doc_norms fe) = 0%nat) then 6000000
  else Z.of_nat (size (doc_norms fe)).

(** [math.log(N / index.df[t], 10)] *)
Definition idf_of (N : Z) (index : InvertedIndex) (t : string) : option F :=
  q ← int_truediv N (count_of (df index) t); log_base10 q.

(** Body of the inner loop of [search_body]. *)
Definition body_posting (fe : SearchFrontend F) (idf : F)
    (scores : list (Z * F)) (p : posting) : option (list (Z * F)) :=
  x ← fdiv (fmul (of_int p.2) idf) (norm_of fe p.1);
  Some (score_add scores p.1 x).

(** Body of the loop of [search_body] over the query tokens. *)
Definition body_token (fe : SearchFrontend F) (N : Z) (scores : list (Z * F))
    (t : string) : option (list (Z * F)) :=
  match body_index fe with
  | Some index =>
      if decide (df index !! t = None) then Some scores
      else
        idf ← idf_of N index t;
        for_loop (body_posting fe idf) scores
          (_get_posting (body_index fe) (body_dir fe) t)
  | None => Some scores
  end.

(** The scores [search_body] has accumulated when it sorts. *)
Definition search_body_scores (fe : SearchFrontend F) (tokens : list string)
    : option (list (Z * F)) :=
  for_loop (body_token fe (corpus_size fe)) [] tokens.

(** [SearchFrontend.search_body], on [tokens = self.tokenize(query)]. *)
Definition search_body (fe : SearchFrontend F) (tokens : list string)
    : option (list (string * string)) :=
  scores ← search_body_scores fe tokens;
  Some (render (id_to_title fe) (py_upto 100 (sorted_desc flt scores))).

(** Body of the body-signal loop of [search]. *)
Definition hybrid_posting (fe : SearchFrontend F) (idf : F)
    (scores : list (Z * F)) (p : posting) : option (list (Z * F)) :=
  x ← fdiv (fmul f_0_3 (fmul (of_int p.2) idf)) (norm_of fe p.1);
  Some (score_add scores p.1 x).

(** Body of the loop of [search] over the query tokens. *)
Definition hybrid_token (fe : SearchFrontend F) (N : Z) (scores : list (Z * F))
    (t : string) : option (list (Z * F)) :=
  let scores :=
    match title_index fe with
    | Some _ =>
        fold_left (λ scores p, score_add scores p.1 f_0_7)
          (_get_posting (title_index fe) (title_dir fe) t) scores
    | None => scores
    end in
  match body_index fe with
  | Some index =>
      idf ← (if decide (df index !! t = None) then Some (of_int 0)
             else idf_of N index t);
      for_loop (hybrid_posting fe idf) scores
        (_get_posting (body_index fe) (body_dir fe) t)
  | None => Some scores
  end.

(** The scores [search] has accumulated when it sorts. *)
Definition search_scores (fe : SearchFrontend F) (tokens : list string)
    : option (list (Z * F)) :=
  for_loop (hybrid_token fe (corpus_size fe)) [] tokens.

(** [SearchFrontend.search], on [tokens = self.tokenize(query)]. *)
Definition search (fe : SearchFrontend F) (tokens : list string)
    : option (list (string * string)) :=
  scores ← search_scores fe tokens;
  Some (render (id_to_title fe) (py_upto 100 (sorted_desc flt scores))).

End scoring.

(** ** Vocabulary of the statements about scoring *)

(** The ids of the documents in the posting lists of the query tokens. *)
Definition scored_docs (index : option InvertedIndex) (fs : store)
    (tokens : list string) : gset Z :=
  list_to_set (concat ((λ t, (_get_posting index fs t).*1) <$> tokens)).

(** A term of which an index has no locations, or no document frequency;
    also any term when the index is not there. *)
Definition unknown_to (index : option InvertedIndex) (w : string) : Prop :=
  match index with
  | None => True
  | Some index => posting_locs index !! w = None ∨ df index !! w = None
  end.

Section scoring_vocabulary.
Context {F : Type} `{PyFloat F}.

(** The sum of the contributions [(doc_id, x)] of [cs] that go to document
    [d], added in their order to the score 0 a document starts from. *)
Definition total_for (d : Z) (cs : list (Z * F)) : F :=
  fold_left fadd (filter (λ c, c.1 = d) cs).*2 (of_int 0).

(** The amounts that the loops of [search_body] and [search] add, one by
    one, in the terms of the code: [body_contribs] and [hybrid_contribs] are
    the traces of the loops, used in the proofs; the formulas of the
    specification come after. *)

(** [(tf * idf) / norm[doc_id]], norm 1 for a document without one. *)
Definition body_contrib (fe : SearchFrontend F) (idf : F) (p : posting)
    : option (Z * F) :=
  x ← fdiv (fmul (of_int p.2) idf) (norm_of fe p.1); Some (p.1, x).

(** What the term [t] contributes in body mode: nothing when it is not in
    the document frequencies of the body index, else
    [(tf * log10(N / df[t])) / norm[doc_id]] for each posting
    [(doc_id, tf)] of [t]. *)
Definition body_term_contribs (fe : SearchFrontend F) (N : Z) (t : string)
    : option (list (Z * F)) :=
  match body_index fe with
  | Some index =>
      if decide (df index !! t = None) then Some []
      else
        idf ← idf_of N index t;
        mapM (body_contrib fe idf)
          (_get_posting (body_index fe) (body_dir fe) t)
  | None => Some []
  end.

Definition body_contribs (fe : SearchFrontend F) (tokens : list string)
    : option (list (Z * F)) :=
  @concat (Z * F) <$> mapM (body_term_contribs fe (corpus_size fe)) tokens.

(** [0.7] for each posting of [t] in the title index. *)
Definition title_contribs (fe : SearchFrontend F) (t : string) : list (Z * F) :=
  (λ p : posting, (p.1, f_0_7))
    <$> _get_posting (title_index fe) (title_dir fe) t.

(** [0.3 * (tf * idf) / norm[doc_id]], norm 1 for a document without one. *)
Definition hybrid_contrib (fe : SearchFrontend F) (idf : F) (p : posting)
    : option (Z * F) :=
  x ← fdiv (fmul f_0_3 (fmul (of_int p.2) idf)) (norm_of fe p.1);
  Some (p.1, x).

(** What the term [t] contributes in hybrid mode: its title contributions,
    then a weighted body contribution for each of its body postings. *)
Definition hybrid_term_contribs (fe : SearchFrontend F) (N : Z) (t : string)
    : option (list (Z * F)) :=
  match body_index fe with
  | Some index =>
      if decide (df index !! t = None) then Some (title_contribs fe t)
      else
        idf ← idf_of N index t;
        bs ← mapM (hybrid_contrib fe idf)
                (_get_posting (body_index fe) (body_dir fe) t);
        Some (title_contribs fe t ++ bs)
  | None => Some (title_contribs fe t)
  end.

Definition hybrid_contribs (fe : SearchFrontend F) (tokens : list string)
    : option (list (Z * F)) :=
  @concat (Z * F) <$> mapM (hybrid_term_contribs fe (corpus_size fe)) tokens.

(** [scores[d] += x] for each contribution, in order. *)
Definition accumulate (scores : list (Z * F)) (cs : list (Z * F))
    : list (Z * F) :=
  fold_left (λ scores c, score_add scores c.1 c.2) cs scores.

End scoring_vocabulary.

(** ** The scoring formulas, in the words of the specification *)

(** What follows is written from the specification, on the inputs of its
    scoring engine: the corpus document count [N], the document frequencies
    of the body index, the norms of the documents, and for each term its
    postings in the title index and in the body index. It uses none of the
    definitions that embed the methods. *)
Section scoring_formulas.
Context {F : Type} `{PyFloat F}.
Variable N : Z.
Variable document_frequency : gmap string Z.
Variable norm : gmap Z F.
Variables title_postings body_postings : string → list posting.

(** [idf(t) = log10(N / document_frequency[t])], for the document frequency
    [n] of [t]. *)
Definition spec_idf (n : Z) : option F :=
  q ← int_truediv N n; log_base10 q.

(** [(tf * idf(t)) / norm[doc_id]], the norm defaulting to 1 if absent. *)
Definition spec_tf_idf (idf : F) (p : posting) : option F :=
  fdiv (fmul (of_int p.2) idf) (default (of_int 1) (norm !! p.1)).

(** Body mode, one query term: a pair (document, amount) for each posting
    of the term, in their order; nothing for a term that is absent from the
    document frequencies. *)
Definition spec_body_term (t : string) : option (list (Z * F)) :=
  match document_frequency !! t with
  | None => Some []
  | Some n =>
      idf ← spec_idf n;
      mapM (λ p : posting, x ← spec_tf_idf idf p; Some (p.1, x))
        (body_postings t)
  end.

Definition spec_body (tokens : list string) : option (list (Z * F)) :=
  @concat (Z * F) <$> mapM spec_body_term tokens.

(** [0.3 * (tf * idf(t)) / norm[doc_id]], the norm defaulting to 1. *)
Definition spec_weighted_tf_idf (idf : F) (p : posting) : option F :=
  fdiv (fmul f_0_3 (fmul (of_int p.2) idf)) (default (of_int 1) (norm !! p.1)).

(** Hybrid mode, one query term: [0.7] for every title match, plus the
    weighted amount for every body match of the same term, none for a term
    that is absent from the document frequencies of the body index. *)
Definition spec_hybrid_term (t : string) : option (list (Z * F)) :=
  bs ← match document_frequency !! t with
       | None => Some []
       | Some n =>
           idf ← spec_idf n;
           mapM (λ p : posting, x ← spec_weighted_tf_idf idf p; Some (p.1, x))
             (body_postings t)
       end;
  Some (((λ p : posting, (p.1, f_0_7)) <$> title_postings t) ++ bs).

Definition spec_hybrid (tokens : list string) : option (list (Z * F)) :=
  @concat (Z * F) <$> mapM spec_hybrid_term tokens.

End scoring_formulas.

(** The inputs of the scoring engine that a front end holds. [N] is the
    number of documents that have a norm, and 6000000 when none has. *)
Definition document_count {F} (fe : SearchFrontend F) : Z :=
  match size (doc_norms fe) with
  | O => 6000000
  | S n => Z.of_nat (S n)
  end.

(** The document frequencies of the body index; there is none without a
    body index. *)
Definition body_frequencies {F} (fe : SearchFrontend F) : gmap string Z :=
  match body_index fe with
  | Some index => df index
  | None => ∅
  end.

(** The formulas on these inputs, the postings of a term being those that
    [_get_posting] reads. *)
Definition body_formula {F} `{PyFloat F} (fe : SearchFrontend F)
    (tokens : list string) : option (list (Z * F)) :=
  spec_body (document_count fe) (body_frequencies fe) (doc_norms fe)
    (_get_posting (body_index fe) (body_dir fe)) tokens.

Definition hybrid_formula {F} `{PyFloat F} (fe : SearchFrontend F)
    (tokens : list string) : option (list (Z * F)) :=
  spec_hybrid (document_count fe) (body_frequencies fe) (doc_norms fe)
    (_get_posting (title_index fe) (title_dir fe))
    (_get_posting (body_index fe) (body_dir fe)) tokens.

(** Laws of the arithmetic on which the closed forms of the specification
    rely, in the form in which floating-point numbers have them: [n / n] is
    1 for a positive integer, the logarithm of 1 is 0, the product of a
    term frequency and 0 is 0, the quotient of 0 by a positive number is 0,
    and 1 is positive. *)
Class ExactArith (F : Type) `{PyFloat F} : Prop := {
  int_truediv_diag n : 0 < n → int_truediv n n = Some (of_int 1);
  log_base10_one : log_base10 (of_int 1) = Some (of_int 0);
  fmul_zero_r n : 0 ≤ n < 2 ^ 16 → fmul (of_int n) (of_int 0) = of_int 0;
  fdiv_zero_l y z :
    flt (of_int 0) y = true → fdiv (of_int 0) y = Some z → z = of_int 0;
  flt_zero_one : flt (of_int 0) (of_int 1) = true
}.

(** A comparison that is a strict weak order, as [<] is on floats that are
    numbers. *)
Class StrictWeak {V : Type} (lt : V → V → bool) : Prop := {
  lt_asym x y : lt x y = true → lt y x = false;
  ge_trans x y z : lt x y = false → lt y z = false → lt x z = false
}.

(** The real numbers as an arithmetic: the scoring formulas read as the
    specification writes them. *)
Definition R_arith : PyFloat R :=
  {| of_int := IZR;
     f_0_7 := (7 / 10)%R;
     f_0_3 := (3 / 10)%R;
     fadd := Rplus;
     fmul := Rmult;
     fdiv x y := if Req_dec_T y 0%R then None else Some (x / y)%R;
     int_truediv n m :=
       if decide (m = 0) then None else Some (IZR n / IZR m)%R;
     log_base10 x := if Rlt_dec 0%R x then Some (ln x / ln 10)%R else None;
     flt x y := if Rlt_dec x y then true else false |}.

(** ** A small corpus, for the examples *)

(** Two documents, 1 and 2, that both contain "dog" once: the posting list
    of "dog", encoded, is the only segment file. *)
Definition dog_index : InvertedIndex :=
  {| df := {["dog" := 2]};
     term_total := {["dog" := 2]};
     _posting_list := ∅;
     posting_locs := {["dog" := [(("0", 0%nat), 0)]]} |}.

Definition dog_dir : store :=
  {[("0", 0%nat) :=
      [x00; x00; x00; x01; x00; x01; x00; x00; x00; x02; x00; x01]]}.

Definition dog_frontend : SearchFrontend R :=
  {| id_to_title := {[1 := "Dog"; 2 := "Hot dog"]};
     doc_norms := {[1 := 1%R; 2 := 2%R]};
     body_index := Some dog_index;
     title_index := Some dog_index;
     anchor_index := None;
     body_dir := dog_dir;
     title_dir := dog_dir;
     anchor_dir := ∅ |}.

(** A title index in which "dog" has 101 documents, 0 to 100. *)
Definition wide_postings : list posting := (λ i, (Z.of_nat i, 1)) <$> seq 0 101.

Definition wide_frontend : SearchFrontend R :=
  {| id_to_title := ∅;
     doc_norms := ∅;
     body_index := None;
     title_index :=
       Some {| df := {["dog" := 101]};
               term_total := {["dog" := 101]};
               _posting_list := ∅;
               posting_locs := {["dog" := [(("0", 0%nat), 0)]]} |};
     anchor_index := None;
     body_dir := ∅;
     title_dir := {[("0", 0%nat) := default [] (encode_pl wide_postings)]};
     anchor_dir := ∅ |}.

(** ** Vocabulary of the further properties *)

(** The bytes of the files [name_0], ..., [name_(n-1)] of a directory, one
    file after the other. *)
Definition files_upto (fs : store) (name : string) (n : nat) : list byte :=
  concat ((λ i, default [] (fs !! (name, i))) <$> seq 0 n).

(** The bytes of the files of a writer, in the order of their numbers. *)
Definition stream (w : MultiFileWriter) : list byte :=
  files_upto (_dir w) (_name w) (S (_f w)).

(** Every file before the current one is full, and the current one is
    within capacity. *)
Definition writer_dense (w : MultiFileWriter) : Prop :=
  (∀ i, (i < _f w)%nat →
     ∃ c, _dir w !! (_name w, i) = Some c ∧ len c = BLOCK_SIZE) ∧
  ∃ c, _dir w !! (_name w, _f w) = Some c ∧ len c ≤ BLOCK_SIZE.


(** The postings the documents give to [t]: one for each document whose
    token list contains [t], in the order of the documents. *)
Definition postings_of (t : string) (docs : list (Z * list string))
    : list posting :=
  omap (λ d, if decide (t ∈ d.2) then Some (d.1, occurrences t d.2) else None)
       docs.

(** ** The iterator over the posting lists *)

(** [InvertedIndex.posting_lists_iter], over the directory [fs]. [items] is
    [self.posting_locs.items()]: the items of the dictionary in the order
    the dictionary keeps them, which the map of the record does not hold.
    The result is the list of the pairs the generator yields, in the order
    it yields them, and whether it returns ([true]) or is left by an error
    of the reader ([false]), after the pairs yielded before it. *)
Fixpoint posting_lists_iter (idx : InvertedIndex) (fs : store)
    (items : list (string * list loc)) : list (string * list posting) * bool :=
  match items with
  | [] => ([], true)
  | (w, locs) :: items =>
      match MultiFileReader_read fs locs (count_of (df idx) w * TUPLE_SIZE) with
      | None => ([], false)
      | Some b =>
          let r := posting_lists_iter idx fs items in
          ((w, decode_pl b (count_of (df idx) w)) :: r.1, r.2)
      end
  end.

(** [items] lists the items of the dictionary [m], each once, in some
    order. *)
Definition items_of (m : gmap string (list loc))
    (items : list (string * list loc)) : Prop :=
  items ≡ₚ map_to_list m.

(** ** Vocabulary of the statements about ranking *)

(** The document ids of the postings that the query tokens bring, in the
    order the loops of a search method meet them. *)
Definition hit_ids (index : option InvertedIndex) (fs : store)
    (tokens : list string) : list Z :=
  concat ((λ t, (_get_posting index fs t).*1) <$> tokens).

(** How many of these postings are of document [d]. *)
Definition hit_count (index : option InvertedIndex) (fs : store)
    (tokens : list string) (d : Z) : Z :=
  Z.of_nat (length (filter (λ x, x = d) (hit_ids index fs tokens))).

(** The distinct elements of a list, in the order of their first
    occurrence. *)
Definition first_seen (ds : list Z) : list Z :=
  fold_left (λ acc d, if decide (d ∈ acc) then acc else acc ++ [d]) ds [].

(** Ten documents with a norm, the norm of document 1 being 2; "cat"
    occurs three times in document 1 and in no other document, in the
    title index and in the body index alike. *)
Definition cat_index : InvertedIndex :=
  {| df := {["cat" := 1]};
     term_total := {["cat" := 3]};
     _posting_list := ∅;
     posting_locs := {["cat" := [(("0", 0%nat), 0)]]} |}.

Definition cat_dir : store :=
  {[("0", 0%nat) := [x00; x00; x00; x01; x00; x03]]}.

Definition cat_frontend : SearchFrontend R :=
  {| id_to_title := {[1 := "Cat"]};
     doc_norms :=
       <[1 := 2%R]> (list_to_map ((λ i, (Z.of_nat i, 1%R)) <$> seq 1 10));
     body_index := Some cat_index;
     title_index := Some cat_index;
     anchor_index := None;
     body_dir := cat_dir;
     title_dir := cat_dir;
     anchor_dir := ∅ |}.

(** * Properties *)

(** ** Python primitives *)

Lemma py_slice_nonneg {A} (i j : Z) (l : list A) :
  0 ≤ i → 0 ≤ j →
  py_slice i j l = take (Z.to_nat j - Z.to_nat i) (drop (Z.to_nat i) l).
Proof.
  intros Hi Hj. unfold py_slice, py_index.
  destruct (Z.ltb_spec i 0); [lia|]. destruct (Z.ltb_spec j 0); [lia|].
  destruct (Z_le_gt_dec i (Z.of_nat (length l))) as [Hil|Hil].
  - rewrite (Z.min_l i) by lia.
    destruct (Z_le_gt_dec j (Z.of_nat (length l))) as [Hjl|Hjl].
    + rewrite (Z.min_l j) by lia. f_equal. lia.
    + rewrite (Z.min_r j) by lia.
      rewrite !take_ge; [done | rewrite length_drop; lia | rewrite length_drop; lia].
  - rewrite (Z.min_r i) by lia.
    rewrite !drop_ge by lia. by rewrite !take_nil.
Qed.

Lemma py_upto_nonneg {A} (n : Z) (l : list A) :
  0 ≤ n → py_upto n l = take (Z.to_nat n) l.
Proof.
  intros Hn. unfold py_upto. rewrite py_slice_nonneg by lia.
  rewrite drop_0. f_equal. lia.
Qed.

Lemma py_from_nonneg {A} (n : Z) (l : list A) :
  0 ≤ n → py_from n l = drop (Z.to_nat n) l.
Proof.
  intros Hn. unfold py_from. rewrite py_slice_nonneg by lia.
  apply take_ge. rewrite length_drop. lia.
Qed.

(** ** Bytes *)

Lemma Z_of_byte_of_Z (z : Z) : Z_of_byte (byte_of_Z z) = z mod 256.
Proof.
  unfold Z_of_byte, byte_of_Z.
  pose proof (Z.mod_pos_bound z 256 ltac:(lia)) as Hb.
  destruct (Byte.of_N (Z.to_N (z mod 256))) as [b|] eqn:Hof.
  - apply Byte.to_of_N in Hof. simpl. rewrite Hof. lia.
  - apply Byte.of_N_None_iff in Hof. lia.
Qed.

Lemma length_big_digits (n : nat) (v : Z) : length (big_digits n v) = n.
Proof.
  revert v. induction n as [|n IH]; intros v; simpl; [done|].
  rewrite length_app, IH. simpl. lia.
Qed.

Lemma from_bytes_app (a b : list byte) :
  from_bytes (a ++ b) =
  fold_left (λ acc x, acc * 256 + Z_of_byte x) b (from_bytes a).
Proof. unfold from_bytes. by rewrite fold_left_app. Qed.

Lemma from_bytes_snoc (a : list byte) (x : byte) :
  from_bytes (a ++ [x]) = from_bytes a * 256 + Z_of_byte x.
Proof. by rewrite from_bytes_app. Qed.

Lemma from_bytes_big_digits (n : nat) (v : Z) :
  from_bytes (big_digits n v) = v mod 256 ^ Z.of_nat n.
Proof.
  revert v. induction n as [|n IH]; intros v.
  - simpl. by rewrite Z.mod_1_r.
  - cbn [big_digits]. rewrite from_bytes_snoc, IH, Z_of_byte_of_Z.
    rewrite Nat2Z.inj_succ, Z.pow_succ_r by lia.
    rewrite Z.rem_mul_r by lia. lia.
Qed.

(** ** The posting codec *)

Lemma big_digits_add (n m : nat) (v : Z) :
  big_digits (n + m) v = big_digits n (v / 256 ^ Z.of_nat m) ++ big_digits m v.
Proof.
  revert v. induction m as [|m IH]; intros v.
  - rewrite Nat.add_0_r. simpl. by rewrite Z.div_1_r, app_nil_r.
  - rewrite Nat.add_succ_r. cbn [big_digits]. rewrite IH, app_assoc.
    do 3 f_equal. rewrite Nat2Z.inj_succ, Z.pow_succ_r by lia.
    by rewrite Z.div_div by lia.
Qed.

Lemma byte_of_Z_mod (z : Z) : byte_of_Z (z mod 256) = byte_of_Z z.
Proof. unfold byte_of_Z. by rewrite Z.mod_mod by lia. Qed.

Lemma big_digits_mod (n : nat) (v : Z) :
  big_digits n (v mod 256 ^ Z.of_nat n) = big_digits n v.
Proof.
  revert v. induction n as [|n IH]; intros v; [done|].
  cbn [big_digits]. rewrite Nat2Z.inj_succ, Z.pow_succ_r by lia.
  assert (Hp : 0 < 256 ^ Z.of_nat n) by (apply Z.pow_pos_nonneg; lia).
  rewrite Z.rem_mul_r by lia. f_equal.
  - rewrite <- (IH (v / 256)). f_equal.
    rewrite Z.mul_comm, Z.div_add by lia.
    rewrite (Z.div_small (v mod 256)) by (apply Z.mod_pos_bound; lia). lia.
  - f_equal. rewrite <- byte_of_Z_mod.
    rewrite Z.mul_comm, Z.mod_add by lia. by rewrite Z.mod_mod, byte_of_Z_mod by lia.
Qed.

Lemma TF_MASK_land (tf : Z) : Z.land tf TF_MASK = tf mod 2 ^ 16.
Proof. change TF_MASK with (Z.ones 16). apply Z.land_ones. lia. Qed.

(** The packed integer has the document id above bit 16 and the masked term
    frequency below. *)
Lemma packed_value (doc_id tf : Z) :
  Z.lor (Z.shiftl doc_id 16) (Z.land tf TF_MASK) = doc_id * 2 ^ 16 + tf mod 2 ^ 16.
Proof.
  rewrite TF_MASK_land, Z.shiftl_mul_pow2 by lia.
  rewrite <- Z.lxor_lor, <- Z.add_nocarry_lxor; [done| |].
  all: apply Z.bits_inj'; intros n Hn; rewrite Z.land_spec, Z.bits_0;
    destruct (Z_lt_ge_dec n 16);
    [ rewrite Z.mul_pow2_bits_low by lia; done
    | rewrite Z.mod_pow2_bits_high by lia; apply andb_false_r ].
Qed.

Lemma encode_posting_Some (doc_id tf : Z) :
  0 ≤ doc_id < 2 ^ 32 →
  encode_posting (doc_id, tf) = Some (big_digits 4 doc_id ++ big_digits 2 tf).
Proof.
  intros Hd. unfold encode_posting, to_bytes. cbn [fst snd].
  rewrite packed_value.
  pose proof (Z.mod_pos_bound tf (2 ^ 16) ltac:(lia)) as Ht.
  change (Z.to_nat TUPLE_SIZE) with (4 + 2)%nat.
  rewrite decide_True by (change (256 ^ Z.of_nat (4 + 2)) with (2 ^ 32 * 2 ^ 16); nia).
  rewrite big_digits_add. do 2 f_equal.
  - f_equal. change (256 ^ Z.of_nat 2) with (2 ^ 16).
    rewrite Z.div_add_l by lia. rewrite Z.div_small by lia. lia.
  - rewrite <- big_digits_mod. change (256 ^ Z.of_nat 2) with (2 ^ 16).
    rewrite Z.add_comm, Z.mod_add by lia. rewrite Z.mod_mod by lia.
    change (2 ^ 16) with (256 ^ Z.of_nat 2). apply big_digits_mod.
Qed.

Lemma length_record_bytes (p : posting) : length (record_bytes p) = 6%nat.
Proof. unfold record_bytes. by rewrite length_app, !length_big_digits. Qed.

Lemma length_concat_records (pl : list posting) :
  length (concat (record_bytes <$> pl)) = (6 * length pl)%nat.
Proof.
  induction pl as [|p pl IH]; [done|].
  cbn [fmap list_fmap concat]. rewrite length_app, length_record_bytes, IH.
  simpl. lia.
Qed.

Lemma encode_pl_Some (pl : list posting) :
  Forall (λ p, 0 ≤ p.1 < 2 ^ 32) pl →
  encode_pl pl = Some (concat (record_bytes <$> pl)).
Proof.
  intros Hpl. unfold encode_pl.
  rewrite (proj2 (mapM_Some _ _ (record_bytes <$> pl))); [done|].
  induction Hpl as [|[d t] pl Hd _ IH]; constructor; [|done].
  by apply encode_posting_Some.
Qed.

Lemma decode_at_record (pre post : list byte) (p : posting) (i : nat) :
  length pre = (6 * i)%nat →
  decode_at (pre ++ record_bytes p ++ post) (Z.of_nat i)
  = (p.1 mod 2 ^ 32, p.2 mod 2 ^ 16).
Proof.
  intros Hpre. unfold decode_at, TUPLE_SIZE, record_bytes.
  rewrite !py_slice_nonneg by lia. f_equal.
  - replace (Z.to_nat (Z.of_nat i * 6)) with (length pre) by lia.
    rewrite drop_app_length.
    replace (Z.to_nat (Z.of_nat i * 6 + 4) - length pre)%nat with 4%nat by lia.
    rewrite <- app_assoc, take_app_length' by (by rewrite length_big_digits).
    apply from_bytes_big_digits.
  - replace (Z.to_nat (Z.of_nat i * 6 + 4)) with (length pre + 4)%nat by lia.
    rewrite drop_app_add, <- app_assoc.
    rewrite drop_app_length' by (by rewrite length_big_digits).
    replace (Z.to_nat ((Z.of_nat i + 1) * 6) - (length pre + 4))%nat
      with 2%nat by lia.
    rewrite take_app_length' by (by rewrite length_big_digits).
    apply from_bytes_big_digits.
Qed.

Lemma decode_records_from (pre post : list byte) (pl : list posting) (k : nat) :
  length pre = (6 * k)%nat →
  decode_at (pre ++ concat (record_bytes <$> pl) ++ post)
    <$> (Z.of_nat <$> seq k (length pl))
  = (λ p, (p.1 mod 2 ^ 32, p.2 mod 2 ^ 16)) <$> pl.
Proof.
  revert pre k. induction pl as [|p pl IH]; intros pre k Hpre; [done|].
  cbn [length seq fmap list_fmap concat]. f_equal.
  - rewrite <- (app_assoc (record_bytes p)). by apply decode_at_record.
  - rewrite <- (app_assoc (record_bytes p)), (app_assoc pre).
    apply IH. rewrite length_app, length_record_bytes. lia.
Qed.

(** Decoding as many records as were encoded gives them back, the document
    id modulo [2^32] and the term frequency modulo [2^16], whatever follows
    them in the buffer. *)
Lemma decode_pl_records (pl : list posting) (post : list byte) :
  decode_pl (concat (record_bytes <$> pl) ++ post) (len pl)
  = (λ p, (p.1 mod 2 ^ 32, p.2 mod 2 ^ 16)) <$> pl.
Proof.
  unfold decode_pl, py_range, len. rewrite Nat2Z.id.
  by apply (decode_records_from [] post pl 0).
Qed.

Lemma decode_pl_in_range (pl : list posting) (post : list byte) :
  Forall (λ p, 0 ≤ p.1 < 2 ^ 32 ∧ 0 ≤ p.2 < 2 ^ 16) pl →
  decode_pl (concat (record_bytes <$> pl) ++ post) (len pl) = pl.
Proof.
  intros Hpl. rewrite decode_pl_records.
  induction Hpl as [|[d t] pl [Hd Ht] _ IH]; [done|].
  cbn [fmap list_fmap fst snd] in *. rewrite IH.
  by rewrite !Z.mod_small by lia.
Qed.

(** C7. For every posting [(doc_id, tf)] with [0 <= doc_id < 2^32] and every
    integer [tf], the encoding succeeds and is six bytes: the first four are
    the big-endian unsigned 32-bit document id, the last two are [tf] masked
    to its low 16 bits, and decoding the record gives
    [(doc_id, tf mod 2^16)]; a term frequency of 65536 or more is reduced
    modulo [2^16] and raises nothing. *)
Theorem C7_codec_layout (doc_id tf : Z) :
  0 ≤ doc_id < 2 ^ 32 →
  ∃ b0 b1 b2 b3 b4 b5 : byte,
    encode_posting (doc_id, tf) = Some [b0; b1; b2; b3; b4; b5] ∧
    from_bytes [b0; b1; b2; b3] = doc_id ∧
    from_bytes [b4; b5] = Z.land tf TF_MASK ∧
    Z.land tf TF_MASK = tf mod 2 ^ 16 ∧
    decode_pl [b0; b1; b2; b3; b4; b5] 1 = [(doc_id, tf mod 2 ^ 16)].
Proof.
  intros Hd. rewrite (encode_posting_Some doc_id tf Hd).
  pose proof (decode_pl_records [(doc_id, tf)] []) as Hdec.
  pose proof (from_bytes_big_digits 4 doc_id) as H4.
  pose proof (from_bytes_big_digits 2 tf) as H2.
  cbn [fmap list_fmap concat fst snd] in Hdec.
  rewrite !app_nil_r in Hdec. change (len [(doc_id, tf)]) with 1 in Hdec.
  rewrite (Z.mod_small doc_id) in Hdec by lia.
  change (256 ^ Z.of_nat 4) with (2 ^ 32) in H4.
  change (256 ^ Z.of_nat 2) with (2 ^ 16) in H2.
  rewrite Z.mod_small in H4 by lia.
  unfold record_bytes in Hdec. cbn [fst snd] in Hdec.
  cbn [big_digits app] in *.
  do 6 eexists. split; [reflexivity|].
  rewrite TF_MASK_land. done.
Qed.

Lemma C7_codec_layout_witness :
  encode_posting (7, 65539) = Some [x00; x00; x00; x07; x00; x03] ∧
  decode_pl [x00; x00; x00; x07; x00; x03] 1 = [(7, 3)].
Proof.
  destruct (C7_codec_layout 7 65539 ltac:(lia))
    as (b0 & b1 & b2 & b3 & b4 & b5 & Henc & _ & _ & _ & Hdec).
  assert (Hc : encode_posting (7, 65539) = Some [x00; x00; x00; x07; x00; x03])
    by (vm_compute; reflexivity).
  rewrite Hc in Henc. injection Henc as <- <- <- <- <- <-.
  split; [reflexivity | exact Hdec].
Defined.

(** ** The writer *)

Lemma BLOCK_SIZE_pos : 0 < BLOCK_SIZE.
Proof. done. Qed.

Lemma BLOCK_SIZE_records : BLOCK_SIZE = 6 * 333333.
Proof. done. Qed.

#[local] Opaque BLOCK_SIZE.

Lemma len_app {A} (l k : list A) : len (l ++ k) = len l + len k.
Proof. unfold len. rewrite length_app. lia. Qed.

Lemma len_nonneg {A} (l : list A) : 0 ≤ len l.
Proof. unfold len. lia. Qed.

Lemma len_pos {A} (l : list A) : l ≠ [] → 0 < len l.
Proof. destruct l; [done|]. unfold len. simpl. lia. Qed.

Lemma f_read_at_app (pre c post : list byte) :
  f_read_at (pre ++ c ++ post) (len pre) (len c) = c.
Proof.
  unfold f_read_at, len. rewrite !Nat2Z.id.
  by rewrite drop_app_length, take_app_length.
Qed.

Lemma f_read_at_ext (content extra : list byte) (off n : Z) :
  0 ≤ off → 0 ≤ n → off + n ≤ len content →
  f_read_at (content ++ extra) off n = f_read_at content off n.
Proof.
  unfold f_read_at, len. intros Hoff Hn Hle.
  rewrite drop_app_le by lia. apply take_app_le. rewrite length_drop. lia.
Qed.

Lemma f_tell_lookup (w : MultiFileWriter) (c : list byte) :
  _dir w !! (_name w, _f w) = Some c → f_tell w = len c.
Proof. unfold f_tell, f_name. by intros ->. Qed.

Lemma f_tell_next_file (w : MultiFileWriter) : f_tell (next_file w) = 0.
Proof.
  unfold f_tell, f_name, next_file, open_wb. cbn [_dir _name _f].
  by rewrite lookup_insert_eq.
Qed.

Lemma write_loop_step (fuel : nat) (w : MultiFileWriter) (b : list byte)
    (locs : list loc) :
  b ≠ [] →
  write_loop (S fuel) w b locs =
  write_loop fuel
    (f_write (roll w) (py_upto (BLOCK_SIZE - f_tell (roll w)) b))
    (py_from (BLOCK_SIZE - f_tell (roll w)) b)
    (locs ++ [(f_name (roll w), f_tell (roll w))]).
Proof.
  intros Hb. apply len_pos in Hb. cbn [write_loop].
  rewrite decide_True by lia. unfold roll.
  destruct (decide (BLOCK_SIZE - f_tell w = 0)) as [H0|H0].
  - by rewrite f_tell_next_file, Z.sub_0_r.
  - done.
Qed.

Lemma write_loop_empty (fuel : nat) (w : MultiFileWriter) (locs : list loc) :
  write_loop fuel w [] locs = Some (w, locs).
Proof. by destruct fuel. Qed.

Lemma store_ext_refl (w : MultiFileWriter) : store_ext w w.
Proof.
  repeat split; [lia|]. intros i c _ Hc. exists []. by rewrite app_nil_r.
Qed.

Lemma store_ext_trans (w1 w2 w3 : MultiFileWriter) :
  store_ext w1 w2 → store_ext w2 w3 → store_ext w1 w3.
Proof.
  intros (Hn1 & Hf1 & H1) (Hn2 & Hf2 & H2). repeat split; [congruence|lia|].
  intros i c Hi Hc. destruct (H1 i c Hi Hc) as [e1 He1].
  rewrite <- Hn1 in He1. destruct (H2 i _ ltac:(lia) He1) as [e2 He2].
  exists (e1 ++ e2). rewrite Hn1 in He2. by rewrite app_assoc.
Qed.

Lemma roll_spec (w : MultiFileWriter) :
  writer_ok w →
  writer_ok (roll w) ∧ store_ext w (roll w) ∧
  0 ≤ f_tell (roll w) < BLOCK_SIZE ∧
  (_f (roll w), f_tell (roll w)) =
    (if decide (f_tell w = BLOCK_SIZE) then (S (_f w), 0) else (_f w, f_tell w)).
Proof.
  intros Hok. pose proof BLOCK_SIZE_pos as Hbs. unfold roll.
  destruct (Hok (_f w) ltac:(lia)) as (c & Hc & Hlen).
  pose proof (f_tell_lookup w c Hc) as Htell. pose proof (len_nonneg c).
  destruct (decide (BLOCK_SIZE - f_tell w = 0)) as [H0|H0].
  - rewrite decide_True by lia. rewrite f_tell_next_file.
    repeat split; try done; try lia.
    + intros i Hi. cbn [next_file _f _name _dir] in *. unfold open_wb.
      destruct (decide (i = S (_f w))) as [->|Hne].
      * exists []. rewrite lookup_insert_eq. split; [done|]. unfold len; simpl; lia.
      * rewrite lookup_insert_ne by congruence. apply Hok. lia.
    + cbn. lia.
    + intros i c' Hi Hc'. exists []. cbn [next_file _dir]. unfold open_wb.
      rewrite lookup_insert_ne by (intros [=]; lia). by rewrite app_nil_r.
  - rewrite decide_False by lia.
    repeat split; try done; try lia. apply store_ext_refl.
Qed.

Lemma f_write_spec (w : MultiFileWriter) (c chunk : list byte) :
  writer_ok w → _dir w !! (_name w, _f w) = Some c →
  len c + len chunk ≤ BLOCK_SIZE →
  writer_ok (f_write w chunk) ∧ store_ext w (f_write w chunk) ∧
  _dir (f_write w chunk) !! (_name w, _f w) = Some (c ++ chunk) ∧
  f_tell (f_write w chunk) = len c + len chunk.
Proof.
  intros Hok Hc Hlen.
  assert (_dir (f_write w chunk) !! (_name w, _f w) = Some (c ++ chunk)) as Hnew.
  { unfold f_write, f_name. cbn [_dir]. by rewrite lookup_insert_eq, Hc. }
  repeat split; try done.
  - intros i Hi. cbn [f_write _name _f _dir] in *. unfold f_name.
    destruct (decide (i = _f w)) as [->|Hne].
    + exists (c ++ chunk). rewrite lookup_insert_eq, Hc.
      split; [done|]. rewrite len_app. lia.
    + rewrite lookup_insert_ne by congruence. by apply Hok.
  - intros i c' Hi Hc'. cbn [f_write _dir]. unfold f_name.
    destruct (decide (i = _f w)) as [->|Hne].
    + rewrite lookup_insert_eq, Hc. exists chunk. simpl. congruence.
    + rewrite lookup_insert_ne by congruence. exists []. by rewrite app_nil_r.
  - rewrite (f_tell_lookup _ (c ++ chunk)); [by rewrite len_app|done].
Qed.

Lemma spans_le fs name i off locs b i' off' :
  spans fs name i off locs b i' off' → (i ≤ i')%nat.
Proof. induction 1; lia. Qed.

(** Chunks stay where they are when the files that hold them only grow. *)
Lemma spans_ext fs fs' name i off locs b i' off' :
  spans fs name i off locs b i' off' →
  (∀ j c, (i ≤ j ≤ i')%nat → fs !! (name, j) = Some c →
     ∃ extra, fs' !! (name, j) = Some (c ++ extra)) →
  spans fs' name i off locs b i' off'.
Proof.
  induction 1 as [i off c content Hc Hf Hoff Hcap Hin Hrd
                 |i off c content locs rest i' off' Hc Hf Hoff Hcap Hin Hrd Hrest Hsp IH];
    intros Hext.
  - destruct (Hext i content ltac:(lia) Hf) as [extra He].
    eapply spans_last; eauto.
    + rewrite len_app. pose proof (len_nonneg extra). lia.
    + rewrite f_read_at_ext; [done|lia|apply len_nonneg|lia].
  - pose proof (spans_le _ _ _ _ _ _ _ _ Hsp).
    destruct (Hext i content ltac:(lia) Hf) as [extra He].
    eapply spans_more; eauto.
    + rewrite len_app. pose proof (len_nonneg extra). lia.
    + rewrite f_read_at_ext; [done|lia|apply len_nonneg|lia].
    + apply IH. intros j c' Hj. apply Hext. lia.
Qed.

Lemma spans_store_ext w w' i off locs b i' off' :
  spans (_dir w) (_name w) i off locs b i' off' →
  (i' ≤ _f w)%nat → store_ext w w' →
  spans (_dir w') (_name w) i off locs b i' off'.
Proof.
  intros Hsp Hi (Hn & Hf & Hext). eapply spans_ext; [done|].
  intros j c Hj. apply Hext. lia.
Qed.

(** The loop of [write], from a writer whose files are within capacity:
    with [len(b)] iterations at hand it ends, and the payload lies at the
    locations it returns. *)
Lemma write_loop_spans (fuel : nat) (w : MultiFileWriter) (b : list byte)
    (locs0 : list loc) :
  writer_ok w → b ≠ [] → (length b ≤ fuel)%nat →
  ∃ w' locs,
    write_loop fuel w b locs0 = Some (w', locs0 ++ locs) ∧
    writer_ok w' ∧ store_ext w w' ∧
    spans (_dir w') (_name w) (_f (roll w)) (f_tell (roll w)) locs b
      (_f w') (f_tell w').
Proof.
  revert w b locs0. induction fuel as [|fuel IH]; intros w b locs0 Hok Hb Hfuel.
  { destruct b; [done|]. simpl in Hfuel. lia. }
  rewrite write_loop_step by done.
  destruct (roll_spec w Hok) as (Hok1 & Hext1 & Hpos & _).
  set (w1 := roll w) in *.
  assert (_name w1 = _name w) as Hn1 by apply Hext1.
  destruct (Hok1 (_f w1) ltac:(lia)) as (c & Hc & Hclen).
  pose proof (f_tell_lookup w1 c Hc) as Htell. rewrite Htell in *.
  set (rem := BLOCK_SIZE - len c) in *.
  rewrite py_upto_nonneg, py_from_nonneg by lia.
  remember (take (Z.to_nat rem) b) as chunk eqn:Echunk.
  remember (drop (Z.to_nat rem) b) as rest eqn:Erest.
  assert (b = chunk ++ rest) as Hsplit by (subst chunk rest; symmetry; apply take_drop).
  assert (chunk ≠ []) as Hchunk.
  { rewrite Echunk. destruct b; [done|]. destruct (Z.to_nat rem) eqn:E; [lia|done]. }
  assert (len chunk ≤ rem) as Hchunk_le.
  { rewrite Echunk. unfold len. rewrite length_take. lia. }
  destruct (f_write_spec w1 c chunk Hok1 Hc ltac:(lia)) as (Hok2 & Hext2 & Hc2 & Htell2).
  set (w2 := f_write w1 chunk) in *.
  assert (f_name w1 = (_name w, _f w1)) as -> by (unfold f_name; by rewrite Hn1).
  destruct (decide (rest = [])) as [Hrest|Hrest].
  - rewrite Hrest, write_loop_empty. exists w2, [(_name w, _f w1, len c)].
    rewrite Hrest, app_nil_r in Hsplit. rewrite Hsplit.
    split; [done|]. split; [done|]. split; [by eapply store_ext_trans|].
    rewrite Htell2. rewrite Hn1 in Hc2.
    eapply (spans_last _ _ _ _ _ (c ++ chunk)); try done; try lia.
    + rewrite len_app. lia.
    + rewrite <- (app_nil_r chunk) at 1. apply f_read_at_app.
  - assert (len chunk = rem) as Hfull.
    { rewrite Echunk. unfold len in *. rewrite length_take.
      assert (Z.to_nat rem < length b)%nat; [|lia].
      destruct (decide (Z.to_nat rem < length b)%nat); [done|].
      exfalso. apply Hrest. rewrite Erest. apply drop_ge. lia. }
    assert (length rest ≤ fuel)%nat as Hfuel'.
    { rewrite Erest, length_drop. lia. }
    destruct (IH w2 rest (locs0 ++ [(_name w, _f w1, len c)]) Hok2 Hrest Hfuel')
      as (w' & locs & Hrun & Hok' & Hext' & Hsp).
    exists w', ((_name w, _f w1, len c) :: locs).
    split; [by rewrite Hrun, <- app_assoc|]. split; [done|].
    split; [eapply store_ext_trans; [done|]; by eapply store_ext_trans|].
    destruct (roll_spec w2 Hok2) as (_ & _ & _ & Hstart).
    rewrite decide_True in Hstart by lia. injection Hstart as Hf2 Ht2.
    rewrite Hf2, Ht2 in Hsp.
    assert (_name w2 = _name w) as Hn2 by (rewrite <- Hn1; apply Hext2).
    rewrite Hn2 in Hsp. change (_f w2) with (_f w1) in Hsp.
    destruct Hext' as (_ & _ & Hkeep).
    destruct (Hkeep (_f w1) (c ++ chunk) ltac:(done)) as [extra Hfin].
    { by rewrite Hn2, <- Hn1. }
    rewrite Hn2 in Hfin. rewrite Hsplit.
    eapply (spans_more _ _ _ _ _ ((c ++ chunk) ++ extra)); try done; try lia.
    + rewrite !len_app. pose proof (len_nonneg extra). lia.
    + rewrite <- app_assoc. apply f_read_at_app.
Qed.

(** [write] on a writer whose files are within capacity returns. *)
Lemma MultiFileWriter_write_spec (w : MultiFileWriter) (b : list byte) :
  writer_ok w →
  ∃ w' locs,
    MultiFileWriter_write w b = Some (w', locs) ∧
    writer_ok w' ∧ store_ext w w' ∧
    (b = [] → w' = w ∧ locs = []) ∧
    (b ≠ [] →
       spans (_dir w') (_name w) (_f (roll w)) (f_tell (roll w)) locs b
         (_f w') (f_tell w')).
Proof.
  intros Hok. unfold MultiFileWriter_write.
  destruct (decide (b = [])) as [->|Hb].
  - exists w, []. rewrite write_loop_empty.
    split; [done|]. split; [done|]. split; [apply store_ext_refl|].
    split; [done|]. intros Hne. by destruct Hne.
  - destruct (write_loop_spans (length b) w b [] Hok Hb ltac:(lia))
      as (w' & locs & Hrun & Hok' & Hext & Hsp).
    exists w', locs. split; [done|]. split; [done|]. split; [done|].
    split; [intros Hb'; by destruct Hb|done].
Qed.

Lemma MultiFileWriter_init_ok (name : string) (fs : store) :
  writer_ok (MultiFileWriter_init name fs) ∧
  f_tell (MultiFileWriter_init name fs) = 0.
Proof.
  split.
  - intros i Hi. cbn in Hi. assert (i = 0%nat) as -> by lia.
    exists []. cbn. unfold open_wb. rewrite lookup_insert_eq.
    split; [done|]. pose proof BLOCK_SIZE_pos. unfold len. simpl. lia.
  - unfold f_tell, f_name. cbn. unfold open_wb. by rewrite lookup_insert_eq.
Qed.

(** ** The reader *)

Lemma f_read_nonneg (c : list byte) (offset n : Z) :
  0 ≤ n → f_read c offset n = Some (f_read_at c offset n).
Proof.
  intros Hn. unfold f_read. rewrite decide_False by lia.
  by rewrite decide_False by lia.
Qed.

(** Reading [len(b)] bytes from the locations of a payload gives it back. *)
Lemma read_loop_spans fs name i off locs b i' off' (acc : list (list byte)) :
  spans fs name i off locs b i' off' →
  read_loop fs locs (len b) acc = Some (concat acc ++ b).
Proof.
  intros Hsp. revert acc.
  induction Hsp as [i off c content Hc Hf Hoff Hcap Hin Hrd
                   |i off c content locs rest i' off' Hc Hf Hoff Hcap Hin Hrd Hrest Hsp IH];
    intros acc; cbn [read_loop]; rewrite Hf; cbn [mbind option_bind].
  - pose proof (len_nonneg c).
    rewrite decide_False by lia. cbn zeta. rewrite Z.min_l by lia.
    rewrite f_read_nonneg by lia. cbn [mbind option_bind].
    rewrite Hrd. cbn [read_loop]. by rewrite concat_app, (concat_cons c), app_nil_r.
  - pose proof (len_pos rest Hrest). pose proof (len_nonneg c).
    rewrite decide_False by lia. cbn zeta.
    rewrite len_app. rewrite Z.min_r by lia.
    rewrite f_read_nonneg by lia. cbn [mbind option_bind].
    replace (BLOCK_SIZE - off) with (len c) by lia. rewrite Hrd.
    replace (len c + len rest - len c) with (len rest) by lia.
    rewrite IH. by rewrite concat_app, (concat_cons c), app_nil_r, <- app_assoc.
Qed.

Lemma MultiFileReader_read_spans fs name i off locs b i' off' :
  spans fs name i off locs b i' off' →
  MultiFileReader_read fs locs (len b) = Some b.
Proof.
  intros Hsp. unfold MultiFileReader_read.
  by rewrite (read_loop_spans fs name i off locs b i' off' [] Hsp).
Qed.

(** ** Sequences of writes *)

Lemma start_of_roll (w : MultiFileWriter) :
  writer_ok w → (_f (roll w), f_tell (roll w)) = start_of (_f w) (f_tell w).
Proof. intros Hok. by destruct (roll_spec w Hok) as (_ & _ & _ & ->). Qed.

Lemma write_seq_spec (w : MultiFileWriter) (payloads : list (list byte)) :
  writer_ok w →
  ∃ w' locss,
    write_seq w payloads = Some (w', locss) ∧
    writer_ok w' ∧ store_ext w w' ∧
    laid_out (_dir w') (_name w) (_f w) (f_tell w) locss payloads
      (_f w') (f_tell w').
Proof.
  revert w. induction payloads as [|b payloads IH]; intros w Hok.
  { exists w, []. repeat split; try done; try lia.
    - intros i c _ Hc. exists []. by rewrite app_nil_r.
    - constructor. }
  destruct (MultiFileWriter_write_spec w b Hok)
    as (w1 & locs & Hw & Hok1 & Hext1 & Hnil & Hsp).
  destruct (IH w1 Hok1) as (w' & locss & Hseq & Hok' & Hext' & Hlo).
  assert (_name w1 = _name w) as Hn1 by apply Hext1.
  exists w', (locs :: locss). cbn [write_seq]. rewrite Hw. cbn. rewrite Hseq. cbn.
  split; [done|]. split; [done|]. split; [by eapply store_ext_trans|].
  rewrite Hn1 in Hlo.
  destruct (decide (b = [])) as [->|Hb].
  - destruct (Hnil eq_refl) as [-> ->]. by constructor.
  - specialize (Hsp Hb).
    pose proof (start_of_roll w Hok) as Hst.
    econstructor; [|done].
    rewrite <- Hst. cbn [fst snd].
    rewrite <- Hn1. eapply spans_store_ext; [by rewrite Hn1|lia|done].
Qed.

Lemma write_seq_snoc (w : MultiFileWriter) (payloads : list (list byte))
    (b : list byte) :
  write_seq w (payloads ++ [b]) =
  '(w1, locss) ← write_seq w payloads;
  '(w2, locs) ← MultiFileWriter_write w1 b;
  Some (w2, locss ++ [locs]).
Proof.
  revert w. induction payloads as [|p payloads IH]; intros w; cbn [app write_seq].
  - cbn. destruct (MultiFileWriter_write w b) as [[w2 locs]|]; done.
  - destruct (MultiFileWriter_write w p) as [[w1 locs1]|]; cbn; [|done].
    rewrite IH. destruct (write_seq w1 payloads) as [[w2 locss]|]; cbn; [|done].
    destruct (MultiFileWriter_write w2 b) as [[w3 locs]|]; done.
Qed.

(** The locations of a payload name consecutively numbered files. *)
Lemma spans_files fs name i off locs b i' off' :
  spans fs name i off locs b i' off' →
  locs.*1 = (λ j, (name, j)) <$> seq i (length locs) ∧
  length locs = S (i' - i).
Proof.
  induction 1 as [|i off c content locs rest i' off' _ _ _ _ _ _ _ Hsp [IH1 IH2]].
  - split; [done|]. simpl. lia.
  - apply spans_le in Hsp. cbn [fmap list_fmap length seq fst].
    rewrite IH1, IH2. split; [done|]. lia.
Qed.

(** A payload longer than the room left in its first file ends in a later
    file; a payload longer than the capacity has at least two locations. *)
Lemma spans_rollover fs name i off locs b i' off' :
  spans fs name i off locs b i' off' →
  BLOCK_SIZE - off < len b → (i < i')%nat.
Proof.
  destruct 1 as [|? ? ? ? ? ? ? ? ? ? ? ? ? ? ? Hsp]; [lia|].
  apply spans_le in Hsp. lia.
Qed.

(** C2. A fresh writer takes any sequence of payloads and then any further
    payload [b]: every call returns; no file of the writer is larger than
    [BLOCK_SIZE] afterwards; the payloads lie in the files one after the
    other, each at its own locations, one location per file it touches, the
    files numbered consecutively; and when [b] is longer than the room left
    in the current file, it ends in a file opened by this call. *)
Theorem C2_segment_rollover (name : string) (fs : store)
    (payloads : list (list byte)) (b : list byte) :
  ∃ w locss w' locs,
    write_seq (MultiFileWriter_init name fs) payloads = Some (w, locss) ∧
    MultiFileWriter_write w b = Some (w', locs) ∧
    (∀ i, (i ≤ _f w')%nat →
       ∃ c, _dir w' !! (name, i) = Some c ∧ len c ≤ BLOCK_SIZE) ∧
    laid_out (_dir w') name 0 0 (locss ++ [locs]) (payloads ++ [b])
      (_f w') (f_tell w') ∧
    (b ≠ [] →
       locs.*1 = (λ j, (name, j))
                   <$> seq (start_of (_f w) (f_tell w)).1 (length locs)) ∧
    (BLOCK_SIZE - f_tell w < len b →
       (_f w < _f w')%nat ∧ (BLOCK_SIZE < len b → (2 ≤ length locs)%nat)).
Proof.
  destruct (MultiFileWriter_init_ok name fs) as [Hok0 Ht0].
  destruct (write_seq_spec _ (payloads ++ [b]) Hok0)
    as (w' & locss' & Hseq' & Hok' & Hext' & Hlo).
  rewrite write_seq_snoc in Hseq'.
  destruct (write_seq_spec _ payloads Hok0) as (w & locss & Hseq & Hok & Hext & _).
  rewrite Hseq in Hseq'. cbn in Hseq'.
  destruct (MultiFileWriter_write_spec w b Hok)
    as (w2 & locs & Hw & _ & _ & _ & Hsp).
  rewrite Hw in Hseq'. cbn in Hseq'. injection Hseq' as -> <-.
  assert (_name w = name) as Hn by apply Hext.
  assert (_name w' = name) as Hn' by apply Hext'.
  exists w, locss, w', locs. split; [done|]. split; [done|].
  split; [|split; [|split]].
  - intros i Hi. rewrite <- Hn'. by apply Hok'.
  - rewrite Ht0 in Hlo. exact Hlo.
  - intros Hb. specialize (Hsp Hb). rewrite Hn in Hsp.
    apply spans_files in Hsp as [Hfiles _].
    by rewrite <- (start_of_roll w Hok).
  - intros Hlong. pose proof (len_nonneg b).
    destruct (Hok (_f w) ltac:(lia)) as (c & Hc & Hclen).
    pose proof (f_tell_lookup w c Hc) as Htell. pose proof (len_nonneg c).
    assert (b ≠ []) as Hb.
    { intros ->. unfold len in Hlong. simpl in Hlong. lia. }
    specialize (Hsp Hb).
    pose proof (start_of_roll w Hok) as Hst. unfold start_of in Hst.
    pose proof (spans_files _ _ _ _ _ _ _ _ Hsp) as [_ Hlen].
    destruct (decide (f_tell w = BLOCK_SIZE)) as [Hfull|Hroom];
      injection Hst as Hst1 Hst2; rewrite Hst1, Hst2 in *.
    + pose proof (spans_le _ _ _ _ _ _ _ _ Hsp). split; [lia|].
      intros Hbig. apply spans_rollover in Hsp; lia.
    + apply spans_rollover in Hsp; [|lia]. split; lia.
Qed.

(** ** Writing and reading posting lists *)

(** The loop of [write_a_posting_list] is the sequence of the writes of the
    encoded posting lists, with the locations recorded term by term. *)
Lemma write_all_seq (list_w_pl : list (string * list posting))
    (w : MultiFileWriter) (m : gmap string (list loc)) :
  write_all (w, m) list_w_pl =
  payloads ← mapM encode_pl list_w_pl.*2;
  '(w', locss) ← write_seq w payloads;
  Some (w', record_all m (zip list_w_pl.*1 locss)).
Proof.
  revert w m. induction list_w_pl as [|[k pl] l IH]; intros w m; [done|].
  cbn [write_all write_one fmap list_fmap snd fst mapM].
  destruct (encode_pl pl) as [b|]; cbn; [|done].
  destruct (MultiFileWriter_write w b) as [[w1 locs]|] eqn:Hw; cbn.
  - rewrite IH. destruct (mapM encode_pl l.*2) as [bs|]; cbn; [|done].
    rewrite Hw. cbn. destruct (write_seq w1 bs) as [[w' locss]|]; done.
  - destruct (mapM encode_pl l.*2) as [bs|]; cbn; [|done]. by rewrite Hw.
Qed.

Lemma mapM_encode_pl (pls : list (list posting)) :
  Forall (Forall (λ p, 0 ≤ p.1 < 2 ^ 32)) pls →
  mapM encode_pl pls = Some ((λ pl, concat (record_bytes <$> pl)) <$> pls).
Proof.
  intros Hpls. apply mapM_Some. induction Hpls as [|pl pls Hpl _ IH]; constructor;
    [by apply encode_pl_Some|done].
Qed.

Lemma laid_out_length fs name i off locss payloads i' off' :
  laid_out fs name i off locss payloads i' off' → length locss = length payloads.
Proof. induction 1; simpl; lia. Qed.

Lemma laid_out_lookup fs name i off locss payloads i' off' j locs b :
  laid_out fs name i off locss payloads i' off' →
  locss !! j = Some locs → payloads !! j = Some b →
  (b = [] ∧ locs = []) ∨
  ∃ i0 off0 i1 off1, spans fs name i0 off0 locs b i1 off1.
Proof.
  intros Hlo. revert j. induction Hlo as [| |i off locs' b' i1 off1 locss payloads i' off' Hsp _ IH];
    intros j Hl Hb.
  - done.
  - destruct j as [|j]; cbn in Hl, Hb; [|by eauto]. left. split; congruence.
  - destruct j as [|j]; cbn in Hl, Hb; [|by eauto].
    injection Hl as <-. injection Hb as <-. right. eauto.
Qed.

Lemma record_all_notin (m : gmap string (list loc))
    (kls : list (string * list loc)) (k : string) :
  k ∉ kls.*1 → record_all m kls !! k = m !! k.
Proof.
  revert m. induction kls as [|[k' locs] kls IH]; intros m Hk; [done|].
  cbn in Hk. apply not_elem_of_cons in Hk as [Hne Hk].
  unfold record_all in *. cbn [fold_left]. rewrite IH by done.
  by rewrite lookup_insert_ne.
Qed.

Lemma record_all_lookup (m : gmap string (list loc)) (keys : list string)
    (locss : list (list loc)) (j : nat) (k : string) (locs : list loc) :
  NoDup keys → (∀ k, k ∈ keys → m !! k = None) →
  keys !! j = Some k → locss !! j = Some locs →
  record_all m (zip keys locss) !! k = Some locs.
Proof.
  revert m locss j. induction keys as [|k0 keys IH]; intros m locss j Hnd Hm Hk Hl;
    [done|].
  apply NoDup_cons in Hnd as [Hk0 Hnd].
  destruct locss as [|l0 locss]; [done|].
  cbn [zip zip_with]. unfold record_all. cbn [fold_left].
  fold (record_all (<[k0:=default [] (m !! k0) ++ l0]> m) (zip keys locss)).
  destruct j as [|j]; cbn in Hk, Hl.
  - injection Hk as ->. injection Hl as ->.
    rewrite record_all_notin.
    + rewrite lookup_insert_eq, Hm by left. done.
    + intros Hin. apply Hk0. apply list_elem_of_fmap in Hin as [[k1 l1] [-> Hin]].
      apply elem_of_zip_l in Hin. done.
  - apply (IH _ _ j); try done.
    intros k1 Hk1. rewrite lookup_insert_ne; [apply Hm; by right|].
    intros ->. done.
Qed.

(** C1. When the terms of [list_w_pl] are distinct and every posting has
    [0 <= doc_id < 2^32] and [0 <= tf < 2^16], [write_a_posting_list], which
    opens a fresh [MultiFileWriter], returns; and for every term [w] with
    posting list [pl], an index that holds the recorded locations and has
    [df[w] = len(pl)] reads back exactly [pl], in order, from the directory
    the writer left. *)
Theorem C1_round_trip (bucket_id : string)
    (list_w_pl : list (string * list posting)) (fs : store) :
  NoDup list_w_pl.*1 →
  Forall (λ w_pl, Forall (λ p, 0 ≤ p.1 < 2 ^ 32 ∧ 0 ≤ p.2 < 2 ^ 16) w_pl.2)
    list_w_pl →
  ∃ fs' locs_map,
    write_a_posting_list (bucket_id, list_w_pl) fs = Some (fs', locs_map) ∧
    ∀ idx w pl,
      (w, pl) ∈ list_w_pl →
      posting_locs idx = locs_map →
      count_of (df idx) w = len pl →
      read_a_posting_list idx fs' w = Some pl.
Proof.
  intros Hnd Hrange. unfold write_a_posting_list. rewrite write_all_seq.
  rewrite mapM_encode_pl; cycle 1.
  { apply Forall_fmap. eapply Forall_impl; [exact Hrange|].
    intros [k pl] Hpl. cbn in *. eapply Forall_impl; [exact Hpl|]. by intros p [? ?]. }
  cbn [mbind option_bind].
  destruct (MultiFileWriter_init_ok bucket_id fs) as [Hok0 _].
  destruct (write_seq_spec _ ((λ pl, concat (record_bytes <$> pl)) <$> list_w_pl.*2) Hok0)
    as (w' & locss & Hseq & Hok' & Hext' & Hlo).
  rewrite Hseq. cbn. eexists _, _. split; [done|].
  intros idx w pl Hin Hlocs Hdf.
  apply list_elem_of_lookup in Hin as [j Hj].
  assert (list_w_pl.*1 !! j = Some w) as Hkj by (by rewrite list_lookup_fmap, Hj).
  assert (((λ pl, concat (record_bytes <$> pl)) <$> list_w_pl.*2) !! j
          = Some (concat (record_bytes <$> pl))) as Hbj
    by (by rewrite !list_lookup_fmap, Hj).
  pose proof (laid_out_length _ _ _ _ _ _ _ _ Hlo) as Hlen.
  destruct (locss !! j) as [locs|] eqn:Hlj; cycle 1.
  { apply lookup_ge_None in Hlj. apply lookup_lt_Some in Hbj. lia. }
  assert (Forall (λ p : posting, 0 ≤ p.1 < 2 ^ 32 ∧ 0 ≤ p.2 < 2 ^ 16) pl) as Hpl.
  { rewrite Forall_forall in Hrange.
    apply (Hrange (w, pl)). apply list_elem_of_lookup. eauto. }
  unfold read_a_posting_list. rewrite Hlocs.
  rewrite (record_all_lookup ∅ _ _ j w locs Hnd (λ k _, lookup_empty k) Hkj Hlj).
  rewrite Hdf.
  assert (len pl * TUPLE_SIZE = len (concat (record_bytes <$> pl))) as ->.
  { unfold len, TUPLE_SIZE. rewrite length_concat_records. lia. }
  destruct (laid_out_lookup _ _ _ _ _ _ _ _ j locs _ Hlo Hlj Hbj)
    as [[Hb ->]|(i0 & off0 & i1 & off1 & Hsp)].
  - rewrite Hb. cbn.
    assert (pl = []) as ->; [|done].
    apply (f_equal length) in Hb. rewrite length_concat_records in Hb.
    destruct pl; [done|]. simpl in Hb. lia.
  - rewrite (MultiFileReader_read_spans _ _ _ _ _ _ _ _ Hsp). cbn. f_equal.
    rewrite <- (app_nil_r (concat _)). by apply decode_pl_in_range.
Qed.

Lemma C1_round_trip_witness :
  ∃ fs' locs_map,
    write_a_posting_list
      ("b1", [("cat", [(5, 3); (4294967295, 65535)]); ("dog", [(1, 1)])]) ∅
    = Some (fs', locs_map) ∧
    read_a_posting_list
      {| df := {["cat" := 2; "dog" := 1]}; term_total := ∅;
         _posting_list := ∅; posting_locs := locs_map |} fs' "cat"
    = Some [(5, 3); (4294967295, 65535)].
Proof.
  destruct (C1_round_trip "b1"
              [("cat", [(5, 3); (4294967295, 65535)]); ("dog", [(1, 1)])] ∅)
    as (fs' & locs_map & Hw & Hr).
  - cbn. by apply (bool_decide_unpack _).
  - repeat constructor; cbn; lia.
  - exists fs', locs_map. split; [exact Hw|].
    apply Hr; [by left|reflexivity|reflexivity].
Defined.

(** ** Alignment of records *)

(** Linear arithmetic with division and remainder by constants. *)
Ltac zlia := Z.div_mod_to_equations; lia.

Lemma f_read_at_sub (content c : list byte) (off n a m : Z) :
  f_read_at content off n = c →
  0 ≤ off → 0 ≤ a → 0 ≤ m → a + m ≤ n →
  f_read_at content (off + a) m = take (Z.to_nat m) (drop (Z.to_nat a) c).
Proof.
  unfold f_read_at. intros <- Hoff Ha Hm Hle.
  rewrite skipn_firstn_comm, take_take, drop_drop.
  f_equal; [lia|]. f_equal. lia.
Qed.

Lemma spans_aligned fs name i off locs b i' off' :
  spans fs name i off locs b i' off' →
  off mod 6 = 0 → len b mod 6 = 0 →
  Forall (λ l : loc, l.2 mod 6 = 0) locs ∧ off' mod 6 = 0.
Proof.
  pose proof BLOCK_SIZE_records as Hbs.
  induction 1 as [i off c content Hc Hf Hoff Hcap Hin Hrd
                 |i off c content locs rest i' off' Hc Hf Hoff Hcap Hin Hrd Hrest Hsp IH];
    intros Ha Hb.
  - split; [by repeat constructor|]. zlia.
  - rewrite len_app in Hb. destruct IH as [IH1 IH2]; [done|zlia|].
    split; [by constructor|done].
Qed.

(** Every aligned group of six bytes of a payload written at an aligned
    position lies in one file, at an aligned offset. *)
Lemma spans_record fs name i off locs b i' off' (k : nat) :
  spans fs name i off locs b i' off' →
  off mod 6 = 0 → len b mod 6 = 0 → (6 * k + 6 ≤ length b)%nat →
  ∃ fn o content,
    fn ∈ locs.*1 ∧ fs !! fn = Some content ∧
    0 ≤ o ∧ o mod 6 = 0 ∧ o + 6 ≤ BLOCK_SIZE ∧ o + 6 ≤ len content ∧
    f_read_at content o 6 = take 6 (drop (6 * k) b).
Proof.
  pose proof BLOCK_SIZE_records as Hbs.
  intros Hsp. revert k.
  induction Hsp as [i off c content Hc Hf Hoff Hcap Hin Hrd
                   |i off c content locs rest i' off' Hc Hf Hoff Hcap Hin Hrd Hrest Hsp IH];
    intros k Ha Hb Hk.
  - exists (name, i), (off + Z.of_nat (6 * k)), content. unfold len in *.
    split; [by left|]. split; [done|].
    repeat split; try zlia.
    rewrite (f_read_at_sub content c off (Z.of_nat (length c))); try done; try lia.
    by rewrite Nat2Z.id.
  - rewrite len_app in Hb. unfold len in *.
    destruct (decide (6 * k + 6 ≤ length c)%nat) as [Hin_c|Hout].
    + exists (name, i), (off + Z.of_nat (6 * k)), content.
      split; [by left|]. split; [done|].
      repeat split; try zlia.
      rewrite (f_read_at_sub content c off (Z.of_nat (length c))); try done; try lia.
      rewrite Nat2Z.id. rewrite drop_app_le by lia.
      rewrite take_app_le; [done|]. rewrite length_drop. lia.
    + assert (∃ q : nat, length c = (6 * q)%nat) as [q Hq].
      { exists (Z.to_nat (Z.of_nat (length c) / 6)). zlia. }
      assert (q ≤ k)%nat as Hqk by lia.
      rewrite length_app in Hk.
      destruct (IH (k - q)%nat) as (fn & o & content' & Hfn & Hlk & Ho & Hmod & Hcap' & Hin' & Hrd');
        [done|zlia|lia|].
      exists fn, o, content'. split; [by right|].
      repeat split; try done.
      rewrite Hrd'. rewrite drop_app_ge by lia. do 2 f_equal. lia.
Qed.

Lemma laid_out_aligned fs name i off locss payloads i' off' :
  laid_out fs name i off locss payloads i' off' →
  off mod 6 = 0 → Forall (λ b : list byte, len b mod 6 = 0) payloads →
  Forall2 (λ locs b,
      Forall (λ l : loc, l.2 mod 6 = 0) locs ∧
      ((b = [] ∧ locs = []) ∨
       ∃ i0 off0 i1 off1,
         off0 mod 6 = 0 ∧ len b mod 6 = 0 ∧
         spans fs name i0 off0 locs b i1 off1))
    locss payloads.
Proof.
  pose proof BLOCK_SIZE_records as Hbs.
  induction 1 as [| |i off locs b i1 off1 locss payloads i' off' Hsp _ IH];
    intros Ha Hb.
  - constructor.
  - apply Forall_cons in Hb as [_ Hb]. constructor; [|auto].
    split; [constructor|by left].
  - apply Forall_cons in Hb as [Hb0 Hb].
    assert ((start_of i off).2 mod 6 = 0) as Hst.
    { unfold start_of. destruct (decide (off = BLOCK_SIZE)); cbn; [done|done]. }
    destruct (spans_aligned _ _ _ _ _ _ _ _ Hsp Hst Hb0) as [Hall Hoff1].
    constructor; [|auto]. split; [done|]. right. eauto 10.
Qed.

Lemma record_slice (pl : list posting) (k : nat) (p : posting) :
  pl !! k = Some p →
  (6 * k + 6 ≤ length (concat (record_bytes <$> pl)))%nat ∧
  take 6 (drop (6 * k) (concat (record_bytes <$> pl))) = record_bytes p.
Proof.
  revert k. induction pl as [|p0 pl IH]; intros k Hk; [done|].
  cbn [fmap list_fmap concat]. rewrite length_app, length_record_bytes.
  destruct k as [|k]; cbn in Hk.
  - injection Hk as ->. split; [lia|].
    rewrite Nat.mul_0_r, drop_0.
    apply take_app_length'. by rewrite length_record_bytes.
  - destruct (IH k Hk) as [Hlen Htake]. split; [lia|].
    rewrite drop_app_ge by (rewrite length_record_bytes; lia).
    rewrite length_record_bytes.
    replace (6 * S k - 6)%nat with (6 * k)%nat by lia. done.
Qed.

Lemma record_all_mono (m : gmap string (list loc))
    (kls : list (string * list loc)) (k : string) (l0 : list loc) :
  m !! k = Some l0 → ∃ l, record_all m kls !! k = Some l ∧ l0 ⊆ l.
Proof.
  revert m l0. induction kls as [|[k' locs] kls IH]; intros m l0 Hm.
  - exists l0. done.
  - unfold record_all. cbn [fold_left].
    fold (record_all (<[k':=default [] (m !! k') ++ locs]> m) kls).
    destruct (decide (k' = k)) as [->|Hne].
    + destruct (IH (<[k:=default [] (m !! k) ++ locs]> m) (l0 ++ locs))
        as (l & Hl & Hsub).
      { by rewrite lookup_insert_eq, Hm. }
      exists l. split; [done|]. set_solver.
    + apply IH. by rewrite lookup_insert_ne.
Qed.

Lemma record_all_incl (m : gmap string (list loc))
    (kls : list (string * list loc)) (k : string) (locs : list loc) :
  (k, locs) ∈ kls → ∃ l, record_all m kls !! k = Some l ∧ locs ⊆ l.
Proof.
  revert m. induction kls as [|[k' locs'] kls IH]; intros m Hin.
  - by apply elem_of_nil in Hin.
  - unfold record_all. cbn [fold_left].
    fold (record_all (<[k':=default [] (m !! k') ++ locs']> m) kls).
    apply elem_of_cons in Hin as [[= <- <-]|Hin]; [|by apply IH].
    destruct (record_all_mono (<[k:=default [] (m !! k) ++ locs]> m) kls k
                (default [] (m !! k) ++ locs)) as (l & Hl & Hsub).
    { by rewrite lookup_insert_eq. }
    exists l. split; [done|]. set_solver.
Qed.

Lemma record_all_elem (m : gmap string (list loc))
    (kls : list (string * list loc)) (k : string) (l : list loc) (x : loc) :
  record_all m kls !! k = Some l → x ∈ l →
  (∃ l0, m !! k = Some l0 ∧ x ∈ l0) ∨ ∃ locs, (k, locs) ∈ kls ∧ x ∈ locs.
Proof.
  revert m. induction kls as [|[k' locs'] kls IH]; intros m Hl Hx.
  - left. eauto.
  - unfold record_all in Hl. cbn [fold_left] in Hl.
    fold (record_all (<[k':=default [] (m !! k') ++ locs']> m) kls) in Hl.
    destruct (IH _ Hl Hx) as [(l0 & Hl0 & Hx0)|(locs & Hin & Hxl)].
    + destruct (decide (k' = k)) as [->|Hne].
      * rewrite lookup_insert_eq in Hl0. injection Hl0 as <-.
        apply elem_of_app in Hx0 as [Hx0|Hx0].
        -- left. destruct (m !! k) as [l1|]; [eauto|by apply elem_of_nil in Hx0].
        -- right. exists locs'. split; [by left|done].
      * rewrite lookup_insert_ne in Hl0 by done. left. eauto.
    + right. exists locs. split; [by right|done].
Qed.

(** C6. For posting lists whose document ids are in range,
    [write_a_posting_list], through its fresh [MultiFileWriter], returns;
    every recorded location has an offset that is a multiple of the record
    size 6; and every posting of every list is stored whole, as its six
    encoded bytes, at a multiple of 6 within the capacity of one of the
    files recorded for its term. *)
Theorem C6_records_not_split (bucket_id : string)
    (list_w_pl : list (string * list posting)) (fs : store) :
  Forall (λ w_pl, Forall (λ p : posting, 0 ≤ p.1 < 2 ^ 32) w_pl.2) list_w_pl →
  ∃ fs' locs_map,
    write_a_posting_list (bucket_id, list_w_pl) fs = Some (fs', locs_map) ∧
    (∀ w locs (l : loc),
       locs_map !! w = Some locs → l ∈ locs → l.2 mod TUPLE_SIZE = 0) ∧
    (∀ w pl k p,
       (w, pl) ∈ list_w_pl → pl !! k = Some p →
       ∃ locs fn off content,
         locs_map !! w = Some locs ∧ fn ∈ locs.*1 ∧
         fs' !! fn = Some content ∧
         0 ≤ off ∧ off mod TUPLE_SIZE = 0 ∧
         off + TUPLE_SIZE ≤ BLOCK_SIZE ∧ off + TUPLE_SIZE ≤ len content ∧
         encode_posting p = Some (f_read_at content off TUPLE_SIZE)).
Proof.
  intros Hrange. unfold write_a_posting_list, TUPLE_SIZE. rewrite write_all_seq.
  rewrite mapM_encode_pl by (by apply Forall_fmap).
  cbn [mbind option_bind].
  destruct (MultiFileWriter_init_ok bucket_id fs) as [Hok0 Ht0].
  destruct (write_seq_spec _ ((λ pl, concat (record_bytes <$> pl)) <$> list_w_pl.*2) Hok0)
    as (w' & locss & Hseq & Hok' & Hext' & Hlo).
  rewrite Hseq. cbn. eexists _, _. split; [done|].
  rewrite Ht0 in Hlo.
  pose proof (laid_out_length _ _ _ _ _ _ _ _ Hlo) as Hlen.
  rewrite !length_fmap in Hlen.
  apply laid_out_aligned in Hlo; [|done|]; cycle 1.
  { apply Forall_fmap, Forall_forall. intros pl _. cbn.
    unfold len. rewrite length_concat_records. zlia. }
  split.
  - intros w locs l Hw Hl.
    destruct (record_all_elem _ _ _ _ _ Hw Hl) as [(l0 & Hl0 & _)|(locs' & Hin & Hl')];
      [by rewrite lookup_empty in Hl0|].
    apply elem_of_zip_r in Hin. apply list_elem_of_lookup in Hin as [j Hj].
    destruct (Forall2_lookup_l _ _ _ _ _ Hlo Hj) as (b & _ & Hall & _).
    rewrite Forall_forall in Hall. by apply Hall.
  - intros w pl k p Hin Hk.
    apply list_elem_of_lookup in Hin as [j Hj].
    assert (((λ pl, concat (record_bytes <$> pl)) <$> list_w_pl.*2) !! j
            = Some (concat (record_bytes <$> pl))) as Hbj
      by (by rewrite !list_lookup_fmap, Hj).
    destruct (Forall2_lookup_r _ _ _ _ _ Hlo Hbj) as (locs & Hlj & _ & Hcase).
    destruct (record_all_incl ∅ (zip list_w_pl.*1 locss) w locs) as (l & Hl & Hsub).
    { apply elem_of_lookup_zip_with. exists j, w, locs.
      by rewrite list_lookup_fmap, Hj. }
    destruct (record_slice pl k p Hk) as [Hklen Hslice].
    destruct Hcase as [[Hnil _]|(i0 & off0 & i1 & off1 & Ha & Hb6 & Hsp)].
    { rewrite Hnil in Hklen. simpl in Hklen. lia. }
    destruct (spans_record _ _ _ _ _ _ _ _ k Hsp Ha Hb6 Hklen)
      as (fn & o & content & Hfn & Hlk & Ho & Hmod & Hcap & Hin' & Hrd).
    exists l, fn, o, content. split; [done|].
    split.
    { apply list_elem_of_fmap in Hfn as (x & -> & Hx).
      apply list_elem_of_fmap. exists x. split; [done|]. by apply Hsub. }
    repeat split; try done.
    rewrite Hrd, Hslice. destruct p as [d t]. apply encode_posting_Some.
    rewrite Forall_forall in Hrange.
    specialize (Hrange (w, pl) ltac:(apply list_elem_of_lookup; eauto)).
    rewrite Forall_forall in Hrange.
    apply (Hrange (d, t)). apply list_elem_of_lookup. eauto.
Qed.

Lemma C6_records_not_split_witness :
  ∃ fs' locs_map,
    write_a_posting_list
      ("b1", [("cat", [(5, 3); (9, 70000)]); ("dog", [(1, 1)])]) ∅
    = Some (fs', locs_map) ∧
    ∀ w locs (l : loc),
      locs_map !! w = Some locs → l ∈ locs → l.2 mod TUPLE_SIZE = 0.
Proof.
  destruct (C6_records_not_split "b1"
              [("cat", [(5, 3); (9, 70000)]); ("dog", [(1, 1)])] ∅)
    as (fs' & locs_map & Hw & Hal & _).
  - repeat constructor; cbn; lia.
  - exists fs', locs_map. split; [exact Hw|exact Hal].
Defined.

(** ** Index statistics *)

Section odict_facts.
Context {K V : Type} `{EqDecision K}.

Lemma od_get_set (d : list (K * V)) (k k' : K) (v : V) :
  od_get (od_set d k v) k' = if decide (k = k') then Some v else od_get d k'.
Proof.
  induction d as [|[k0 v0] d IH]; cbn.
  - destruct (decide (k = k')); done.
  - destruct (decide (k0 = k)) as [->|Hne]; cbn.
    + destruct (decide (k = k')); done.
    + rewrite IH. destruct (decide (k0 = k')) as [->|]; [|done].
      by rewrite decide_False.
Qed.

Lemma od_get_None (d : list (K * V)) (k : K) :
  od_get d k = None ↔ k ∉ d.*1.
Proof.
  induction d as [|[k0 v0] d IH]; cbn.
  - split; [intros _; apply not_elem_of_nil|done].
  - rewrite not_elem_of_cons. destruct (decide (k0 = k)) as [->|Hne].
    + split; [done|]. by intros [? _].
    + rewrite IH. split; [done|]. by intros [_ ?].
Qed.

Lemma od_set_keys (d : list (K * V)) (k : K) (v : V) :
  (od_set d k v).*1 = if decide (k ∈ d.*1) then d.*1 else d.*1 ++ [k].
Proof.
  induction d as [|[k0 v0] d IH]; cbn.
  - by rewrite decide_False by apply not_elem_of_nil.
  - destruct (decide (k0 = k)) as [->|Hne]; cbn.
    + by rewrite decide_True by left.
    + rewrite IH. destruct (decide (k ∈ d.*1)) as [Hin|Hnin].
      * by rewrite decide_True by (by right).
      * rewrite decide_False; [done|].
        rewrite not_elem_of_cons. split; [congruence|done].
Qed.

Lemma od_set_NoDup (d : list (K * V)) (k : K) (v : V) :
  NoDup d.*1 → NoDup (od_set d k v).*1.
Proof.
  intros Hnd. rewrite od_set_keys. destruct (decide (k ∈ d.*1)); [done|].
  apply NoDup_app. split; [done|]. split; [|apply NoDup_singleton].
  intros x Hx Hx'. apply list_elem_of_singleton in Hx' as ->. done.
Qed.
End odict_facts.

Lemma occurrences_cons (t x : string) (tokens : list string) :
  occurrences t (x :: tokens) =
  (if decide (x = t) then 1 else 0) + occurrences t tokens.
Proof.
  unfold occurrences. rewrite filter_cons.
  destruct (decide (x = t)); simpl; lia.
Qed.

Lemma occurrences_pos (t : string) (tokens : list string) :
  0 < occurrences t tokens ↔ t ∈ tokens.
Proof.
  induction tokens as [|x tokens IH].
  - split; [done|]. by intros ?%elem_of_nil.
  - rewrite occurrences_cons, elem_of_cons.
    assert (0 ≤ occurrences t tokens) by (unfold occurrences; lia).
    destruct (decide (x = t)) as [->|Hne]; [split; [by left|lia]|].
    rewrite Z.add_0_l, IH. split; [by right|]. intros [?|?]; congruence.
Qed.

(** [Counter(tokens)] has one entry per distinct token, with its number of
    occurrences. *)
Lemma Counter_fold (c : list (string * Z)) (tokens : list string) (t : string) :
  NoDup c.*1 →
  let c' := fold_left (λ c w, od_set c w (default 0 (od_get c w) + 1)) tokens c in
  NoDup c'.*1 ∧
  od_get c' t =
    match od_get c t with
    | Some v => Some (v + occurrences t tokens)
    | None => if decide (t ∈ tokens) then Some (occurrences t tokens) else None
    end.
Proof.
  revert c. induction tokens as [|x tokens IH]; intros c Hnd; cbn [fold_left].
  - split; [done|]. unfold occurrences. cbn.
    destruct (od_get c t); [f_equal; lia|].
    by rewrite decide_False by apply not_elem_of_nil.
  - destruct (IH (od_set c x (default 0 (od_get c x) + 1))) as [Hnd' Hget].
    { by apply od_set_NoDup. }
    split; [done|]. cbn zeta in Hget. rewrite Hget, od_get_set, occurrences_cons.
    destruct (decide (x = t)) as [->|Hne].
    + destruct (od_get c t) as [v|]; cbn; [f_equal; lia|].
      rewrite decide_True by left. f_equal; lia.
    + destruct (od_get c t) as [v|]; [f_equal; lia|].
      destruct (decide (t ∈ tokens)) as [Hin|Hnin].
      * rewrite decide_True by (by right). f_equal.
      * rewrite decide_False; [done|].
        rewrite not_elem_of_cons. split; [congruence|done].
Qed.

Lemma Counter_spec (tokens : list string) (t : string) :
  NoDup (Counter tokens).*1 ∧
  od_get (Counter tokens) t =
    if decide (t ∈ tokens) then Some (occurrences t tokens) else None.
Proof. apply (Counter_fold [] tokens t). constructor. Qed.

Lemma count_of_insert (c : gmap string Z) (w t : string) (v : Z) :
  count_of (<[w := v]> c) t = if decide (w = t) then v else count_of c t.
Proof.
  unfold count_of. destruct (decide (w = t)) as [->|Hne].
  - by rewrite lookup_insert_eq.
  - by rewrite lookup_insert_ne.
Qed.

Lemma counter_update_spec (c : gmap string Z) (w2cnt : list (string * Z))
    (t : string) :
  NoDup w2cnt.*1 →
  count_of (counter_update c w2cnt) t = count_of c t + default 0 (od_get w2cnt t).
Proof.
  revert c. induction w2cnt as [|[w cnt] l IH]; intros c Hnd.
  - cbn. lia.
  - cbn in Hnd. apply NoDup_cons in Hnd as [Hw Hnd].
    unfold counter_update in *. cbn [fold_left od_get].
    rewrite IH by done. rewrite count_of_insert.
    destruct (decide (w = t)) as [->|Hne]; [|done].
    apply od_get_None in Hw. rewrite Hw. cbn. lia.
Qed.

Lemma add_doc_fold_df (w2cnt : list (string * Z)) (idx : InvertedIndex)
    (doc_id : Z) (t : string) :
  NoDup w2cnt.*1 →
  let idx' :=
    fold_left (λ idx '(w, cnt),
      {| df := <[w := count_of (df idx) w + 1]> (df idx);
         term_total := term_total idx;
         _posting_list :=
           <[w := default [] (_posting_list idx !! w) ++ [(doc_id, cnt)]]>
             (_posting_list idx);
         posting_locs := posting_locs idx |}) w2cnt idx in
  term_total idx' = term_total idx ∧
  count_of (df idx') t =
    count_of (df idx) t + (if decide (t ∈ w2cnt.*1) then 1 else 0).
Proof.
  revert idx. induction w2cnt as [|[w cnt] l IH]; intros idx Hnd; cbn [fold_left].
  - split; [done|]. rewrite decide_False by apply not_elem_of_nil. lia.
  - cbn in Hnd. apply NoDup_cons in Hnd as [Hw Hnd].
    match goal with |- context [fold_left _ l ?i] => destruct (IH i Hnd) as [Htt Hdf] end.
    cbn zeta in *. split; [by rewrite Htt|].
    rewrite Hdf. cbn [df fmap list_fmap fst]. rewrite count_of_insert.
    destruct (decide (w = t)) as [->|Hne].
    + rewrite decide_False by done. rewrite decide_True by left. lia.
    + destruct (decide (t ∈ l.*1)) as [Hin|Hnin].
      * rewrite decide_True by (by right). done.
      * rewrite decide_False; [done|].
        rewrite not_elem_of_cons. split; [congruence|done].
Qed.

Lemma add_doc_spec (idx : InvertedIndex) (doc_id : Z) (tokens : list string)
    (t : string) :
  count_of (df (add_doc idx doc_id tokens)) t =
    count_of (df idx) t + (if decide (t ∈ tokens) then 1 else 0) ∧
  count_of (term_total (add_doc idx doc_id tokens)) t =
    count_of (term_total idx) t + occurrences t tokens.
Proof.
  destruct (Counter_spec tokens t) as [Hnd Hget]. unfold add_doc.
  match goal with |- context [fold_left _ _ ?i] =>
    destruct (add_doc_fold_df (Counter tokens) i doc_id t Hnd) as [Htt Hdf] end.
  cbn zeta in *. rewrite Htt, Hdf. cbn [df term_total].
  rewrite counter_update_spec by done. rewrite Hget. split.
  - f_equal. destruct (decide (t ∈ tokens)) as [Hin|Hnin].
    + rewrite decide_True; [done|]. apply dec_stable. intros Hn.
      apply od_get_None in Hn. congruence.
    + rewrite decide_False; [done|]. by apply od_get_None.
  - f_equal. destruct (decide (t ∈ tokens)) as [Hin|Hnin]; [done|]. cbn.
    pose proof (occurrences_pos t tokens) as Hpos.
    assert (0 ≤ occurrences t tokens) by (unfold occurrences; lia).
    destruct (decide (0 < occurrences t tokens)); [tauto|lia].
Qed.

Lemma add_docs_spec (docs : list (Z * list string)) (idx : InvertedIndex)
    (t : string) :
  let idx' := fold_left (λ idx '(doc_id, tokens), add_doc idx doc_id tokens)
                docs idx in
  count_of (df idx') t =
    count_of (df idx) t + Z.of_nat (length (filter (λ d, t ∈ d.2) docs)) ∧
  count_of (term_total idx') t =
    count_of (term_total idx) t + sum_Z ((λ d, occurrences t d.2) <$> docs).
Proof.
  revert idx. induction docs as [|[doc_id tokens] docs IH]; intros idx;
    cbn [fold_left].
  - cbn. split; lia.
  - destruct (IH (add_doc idx doc_id tokens)) as [Hdf Htt]. cbn zeta in *.
    rewrite Hdf, Htt.
    destruct (add_doc_spec idx doc_id tokens t) as [-> ->].
    rewrite filter_cons. unfold sum_Z. cbn [snd fmap list_fmap foldr].
    destruct (decide (t ∈ tokens)); cbn [length]; split; lia.
Qed.

(** C3. After [InvertedIndex(docs)], with every document id occurring once
    in [docs], for every term [t]: [df[t]] is the number of distinct
    documents whose token list contains [t], and [term_total[t]] is the sum
    over the documents of the number of occurrences of [t] in each. *)
Theorem C3_df_term_total (docs : list (Z * list string)) (t : string) :
  NoDup docs.*1 →
  count_of (df (InvertedIndex_init docs)) t
    = Z.of_nat (size (docs_containing t docs)) ∧
  count_of (term_total (InvertedIndex_init docs)) t
    = sum_Z ((λ d, occurrences t d.2) <$> docs).
Proof.
  intros Hnd. unfold InvertedIndex_init.
  destruct (add_docs_spec docs empty_index t) as [Hdf Htt]. cbn zeta in *.
  rewrite Hdf, Htt. unfold count_of. cbn [empty_index df term_total].
  rewrite !lookup_empty. cbn. split; [|done]. f_equal.
  unfold docs_containing. rewrite size_list_to_set.
  - by rewrite length_fmap.
  - eapply sublist_NoDup; [exact Hnd|]. apply fmap_sublist, sublist_filter.
Qed.

Lemma C3_df_term_total_witness :
  count_of (df (InvertedIndex_init [(1, ["cat"; "dog"; "cat"]); (2, ["dog"])])) "cat" = 1 ∧
  count_of (term_total (InvertedIndex_init [(1, ["cat"; "dog"; "cat"]); (2, ["dog"])])) "cat" = 2.
Proof.
  exact (C3_df_term_total [(1, ["cat"; "dog"; "cat"]); (2, ["dog"])] "cat"
           ltac:(by apply (bool_decide_unpack _))).
Defined.

(** ** Merging shard location files *)

Lemma df_bump_lookup (keys : list string) (d : gmap string Z) (t : string) :
  NoDup keys →
  fold_left (λ d word, <[word := count_of d word + 1]> d) keys d !! t =
  if decide (t ∈ keys) then Some (count_of d t + 1) else d !! t.
Proof.
  revert d. induction keys as [|k keys IH]; intros d Hnd; cbn [fold_left].
  - by rewrite decide_False by apply not_elem_of_nil.
  - apply NoDup_cons in Hnd as [Hk Hnd]. rewrite IH by done.
    destruct (decide (k = t)) as [->|Hne].
    + rewrite decide_False by done. rewrite decide_True by left.
      by rewrite lookup_insert_eq.
    + rewrite count_of_insert, (decide_False (P := k = t)) by done.
      rewrite lookup_insert_ne by done.
      destruct (decide (t ∈ keys)) as [Hin|Hnin].
      * by rewrite decide_True by (by right).
      * rewrite decide_False; [done|].
        rewrite not_elem_of_cons. split; [congruence|done].
Qed.

Lemma elem_of_map_keys (m : gmap string (list loc)) (t : string) :
  t ∈ (map_to_list m).*1 ↔ t ∈ dom m.
Proof.
  rewrite elem_of_dom, list_elem_of_fmap. split.
  - intros ([k v] & -> & Hin). apply elem_of_map_to_list in Hin. eauto.
  - intros [v Hv]. exists (t, v). split; [done|]. by apply elem_of_map_to_list.
Qed.

Lemma merge_locs_df (index : InvertedIndex) (locs : gmap string (list loc))
    (t : string) :
  df (merge_locs index locs) !! t =
  if decide (t ∈ dom locs) then Some (count_of (df index) t + 1)
  else df index !! t.
Proof.
  cbn [merge_locs df]. rewrite df_bump_lookup by apply NoDup_fst_map_to_list.
  destruct (decide (t ∈ dom locs)) as [Hin|Hnin].
  - by rewrite decide_True by (by apply elem_of_map_keys).
  - by rewrite decide_False by (by rewrite elem_of_map_keys).
Qed.

Lemma merge_locs_count (index : InvertedIndex) (locs : gmap string (list loc))
    (t : string) :
  count_of (df (merge_locs index locs)) t =
  count_of (df index) t + (if decide (t ∈ dom locs) then 1 else 0).
Proof.
  unfold count_of at 1. rewrite merge_locs_df.
  destruct (decide (t ∈ dom locs)); cbn; [done|]. unfold count_of. lia.
Qed.

Lemma merge_locs_comm (index : InvertedIndex) (s1 s2 : gmap string (list loc)) :
  dom s1 ## dom s2 →
  merge_locs (merge_locs index s1) s2 = merge_locs (merge_locs index s2) s1.
Proof.
  intros Hdisj.
  assert (df (merge_locs (merge_locs index s1) s2)
          = df (merge_locs (merge_locs index s2) s1)) as Hdf.
  { apply map_eq. intros t. rewrite !merge_locs_df, !merge_locs_count.
    destruct (decide (t ∈ dom s1)), (decide (t ∈ dom s2)); try done.
    all: f_equal; lia. }
  assert (posting_locs (merge_locs (merge_locs index s1) s2)
          = posting_locs (merge_locs (merge_locs index s2) s1)) as Hpl.
  { cbn [merge_locs posting_locs]. rewrite !(assoc_L (∪)). f_equal.
    apply map_union_comm. by apply map_disjoint_dom. }
  destruct (merge_locs (merge_locs index s1) s2) eqn:E1,
           (merge_locs (merge_locs index s2) s1) eqn:E2.
  cbn in Hdf, Hpl. subst.
  apply (f_equal term_total) in E1 as Ht1. apply (f_equal term_total) in E2 as Ht2.
  apply (f_equal _posting_list) in E1 as Hp1.
  apply (f_equal _posting_list) in E2 as Hp2.
  cbn in Ht1, Ht2, Hp1, Hp2. congruence.
Qed.

(** C9. Two shard location files [s1] and [s2] with disjoint term sets,
    listed under names that contain ['_posting_locs.pickle'], are merged by
    [_load_extra_locs] into a loaded index: the result is the same in either
    order; the keys of [posting_locs] are those the index had, none when it
    is the index [write_index] wrote, together with those of the two shards;
    every term of a shard has the location list of its shard, unchanged; and
    [df] of a term has grown by one for each of the two files that
    mentions it. *)
Theorem C9_shard_merge (index : InvertedIndex) (n1 n2 : string)
    (s1 s2 : gmap string (list loc)) :
  str_in "_posting_locs.pickle" n1 = true →
  str_in "_posting_locs.pickle" n2 = true →
  dom s1 ## dom s2 →
  ∃ merged,
    _load_extra_locs (Some index) [(n1, Some s1); (n2, Some s2)] = Some merged ∧
    _load_extra_locs (Some index) [(n2, Some s2); (n1, Some s1)] = Some merged ∧
    dom (posting_locs merged) = dom (posting_locs index) ∪ (dom s1 ∪ dom s2) ∧
    (posting_locs index = ∅ → dom (posting_locs merged) = dom s1 ∪ dom s2) ∧
    (∀ t locs, s1 !! t = Some locs → posting_locs merged !! t = Some locs) ∧
    (∀ t locs, s2 !! t = Some locs → posting_locs merged !! t = Some locs) ∧
    (∀ t, count_of (df merged) t =
          count_of (df index) t
          + (if decide (t ∈ dom s1) then 1 else 0)
          + (if decide (t ∈ dom s2) then 1 else 0)).
Proof.
  intros Hn1 Hn2 Hdisj.
  exists (merge_locs (merge_locs index s1) s2).
  cbn [_load_extra_locs load_blobs]. rewrite Hn1, Hn2.
  split; [done|]. split; [by rewrite merge_locs_comm|].
  assert (dom (posting_locs (merge_locs (merge_locs index s1) s2))
          = dom (posting_locs index) ∪ (dom s1 ∪ dom s2)) as Hdom.
  { cbn [merge_locs posting_locs]. rewrite !dom_union_L. set_solver. }
  split; [done|]. split.
  { intros Hempty. rewrite Hdom, Hempty, dom_empty_L. set_solver. }
  cbn [merge_locs posting_locs]. split; [|split].
  - intros t locs Ht. apply lookup_union_Some_raw. right. split.
    + apply not_elem_of_dom. apply elem_of_dom_2 in Ht. set_solver.
    + apply lookup_union_Some_raw. by left.
  - intros t locs Ht. apply lookup_union_Some_raw. by left.
  - intros t. by rewrite !merge_locs_count.
Qed.

Lemma C9_shard_merge_witness :
  ∃ merged,
    _load_extra_locs (Some empty_index)
      [("postings_gcp/0_posting_locs.pickle", Some {["cat" := [(("0", 0%nat), 0)]]});
       ("postings_gcp/1_posting_locs.pickle", Some {["dog" := [(("1", 0%nat), 0)]]})]
    = Some merged ∧
    dom (posting_locs merged) = {["cat"]} ∪ {["dog"]} ∧
    count_of (df merged) "cat" = 1.
Proof.
  destruct (C9_shard_merge empty_index
              "postings_gcp/0_posting_locs.pickle"
              "postings_gcp/1_posting_locs.pickle"
              {["cat" := [(("0", 0%nat), 0)]]} {["dog" := [(("1", 0%nat), 0)]]})
    as (merged & H12 & _ & _ & Hdom & _ & _ & Hdf).
  - reflexivity.
  - reflexivity.
  - rewrite !dom_singleton_L. set_solver.
  - exists merged. split; [exact H12|]. split.
    + rewrite (Hdom eq_refl). by rewrite !dom_singleton_L.
    + rewrite (Hdf "cat"). rewrite !dom_singleton_L.
      rewrite decide_True by set_solver. rewrite decide_False by set_solver.
      reflexivity.
Defined.

(** ** Sorting and rendering *)

Section sorting.
Context {K V : Type} (lt : V → V → bool).

Lemma insert_desc_perm (x : K * V) (l : list (K * V)) :
  insert_desc lt x l ≡ₚ x :: l.
Proof.
  induction l as [|y l IH]; cbn; [done|].
  destruct (lt x.2 y.2); [|done]. rewrite IH. apply Permutation_swap.
Qed.

Lemma sorted_desc_perm (l : list (K * V)) : sorted_desc lt l ≡ₚ l.
Proof.
  induction l as [|x l IH]; cbn; [done|].
  by rewrite insert_desc_perm, IH.
Qed.


Context `{!StrictWeak lt}.

Lemma insert_desc_sorted (x : K * V) (l : list (K * V)) :
  StronglySorted (λ a b, lt a.2 b.2 = false) l →
  StronglySorted (λ a b, lt a.2 b.2 = false) (insert_desc lt x l).
Proof.
  induction 1 as [|y l Hl IH Hy]; cbn.
  - repeat constructor.
  - destruct (lt x.2 y.2) eqn:Hxy.
    + constructor; [done|]. rewrite insert_desc_perm.
      constructor; [by apply lt_asym|done].
    + constructor; [by constructor|]. constructor; [done|].
      eapply Forall_impl; [exact Hy|]. intros z Hz. by eapply ge_trans.
Qed.

Lemma sorted_desc_sorted (l : list (K * V)) :
  StronglySorted (λ a b, lt a.2 b.2 = false) (sorted_desc lt l).
Proof.
  induction l as [|x l IH]; cbn; [constructor|]. by apply insert_desc_sorted.
Qed.

(** No entry left out of the first [k] has a larger value than one of them. *)
Lemma sorted_desc_top (l : list (K * V)) (k : nat) (x y : K * V) :
  x ∈ take k (sorted_desc lt l) → y ∈ drop k (sorted_desc lt l) →
  lt x.2 y.2 = false.
Proof.
  pose proof (sorted_desc_sorted l) as Hs.
  rewrite <- (take_drop k (sorted_desc lt l)) in Hs.
  intros Hx Hy.
  exact (StronglySorted_app_1_elem_of _ _ _ x y Hs Hx Hy).
Qed.
End sorting.

Lemma length_render {V} (titles : gmap Z string) (res : list (Z * V)) :
  length (render titles res) = length res.
Proof. unfold render. by rewrite length_fmap. Qed.

(** ** Accumulating scores *)

Lemma od_set_fold_keys {V} (f : list (Z * V) → Z → V) (ds : list Z)
    (scores : list (Z * V)) :
  NoDup scores.*1 →
  let scores' := fold_left (λ s d, od_set s d (f s d)) ds scores in
  NoDup scores'.*1 ∧ ∀ d, d ∈ scores'.*1 ↔ d ∈ scores.*1 ∨ d ∈ ds.
Proof.
  revert scores. induction ds as [|d0 ds IH]; intros scores Hnd; cbn.
  - split; [done|]. intros d. rewrite elem_of_nil. tauto.
  - destruct (IH (od_set scores d0 (f scores d0))) as [Hnd' Hkeys].
    { by apply od_set_NoDup. }
    split; [done|]. intros d. cbn zeta in Hkeys. rewrite Hkeys.
    rewrite od_set_keys, elem_of_cons.
    destruct (decide (d0 ∈ scores.*1)) as [Hin|Hnin].
    + split; [tauto|]. intros [?|[->|?]]; tauto.
    + rewrite elem_of_app, list_elem_of_singleton. tauto.
Qed.

Lemma for_loop_ext {A B} (f g : A → B → option A) (a : A) (l : list B) :
  (∀ a b, f a b = g a b) → for_loop f a l = for_loop g a l.
Proof.
  intros Hfg. revert a. induction l as [|b l IH]; intros a; cbn; [done|].
  rewrite Hfg. destruct (g a b); cbn; [apply IH|done].
Qed.

Lemma mapM_pointwise {A B} (f g : A → option B) (l : list A) :
  (∀ x, f x = g x) → mapM f l = mapM g l.
Proof.
  intros Hfg. induction l as [|x l IH]; [done|]. cbn [mapM].
  by rewrite Hfg, IH.
Qed.

Section scoring_facts.
Context {F : Type} `{PyFloat F}.

Lemma accumulate_app (scores cs1 cs2 : list (Z * F)) :
  accumulate scores (cs1 ++ cs2) = accumulate (accumulate scores cs1) cs2.
Proof. unfold accumulate. by rewrite fold_left_app. Qed.

(** A loop that adds one contribution per element, unless computing one
    raises, adds the contributions of all of them. *)
Lemma for_loop_mapM {B} (g : B → option (Z * F)) (scores : list (Z * F))
    (l : list B) :
  for_loop (λ s b, c ← g b; Some (score_add s c.1 c.2)) scores l =
  cs ← mapM g l; Some (accumulate scores cs).
Proof.
  revert scores. induction l as [|b l IH]; intros scores; cbn; [done|].
  destruct (g b) as [c|]; cbn; [|done]. rewrite IH.
  destruct (mapM g l) as [cs|]; done.
Qed.

Lemma for_loop_concat {B} (h : B → option (list (Z * F)))
    (scores : list (Z * F)) (l : list B) :
  for_loop (λ s b, cs ← h b; Some (accumulate s cs)) scores l =
  css ← mapM h l; Some (accumulate scores (concat css)).
Proof.
  revert scores. induction l as [|b l IH]; intros scores; [done|].
  cbn [for_loop mapM]. destruct (h b) as [cs|]; [|done].
  cbn [mbind option_bind]. rewrite IH.
  destruct (mapM h l) as [css|]; [|done].
  cbn [mbind option_bind mret option_ret concat]. by rewrite accumulate_app.
Qed.

Lemma od_get_score_add (scores : list (Z * F)) (d d' : Z) (x : F) :
  od_get (score_add scores d x) d' =
  if decide (d = d') then Some (fadd (default (of_int 0) (od_get scores d)) x)
  else od_get scores d'.
Proof. unfold score_add. apply od_get_set. Qed.

(** The score of a document is the sum of its contributions, in order. *)
Lemma accumulate_get (scores cs : list (Z * F)) (d : Z) :
  od_get (accumulate scores cs) d =
  match od_get scores d with
  | Some v => Some (fold_left fadd (filter (λ c, c.1 = d) cs).*2 v)
  | None =>
      if decide (d ∈ cs.*1) then Some (total_for d cs) else None
  end.
Proof.
  unfold total_for.
  revert scores. induction cs as [|c cs IH]; intros scores.
  - cbn. destruct (od_get scores d); [done|].
    by rewrite decide_False by apply not_elem_of_nil.
  - change (accumulate scores (c :: cs))
      with (accumulate (score_add scores c.1 c.2) cs).
    rewrite IH, od_get_score_add, filter_cons. cbn [fmap list_fmap].
    destruct (decide (c.1 = d)) as [Hc|Hc].
    + rewrite Hc. cbn [fmap list_fmap fold_left snd].
      destruct (od_get scores d) as [v|]; cbn [default]; [done|].
      by rewrite decide_True by left.
    + destruct (od_get scores d) as [v|]; [done|].
      destruct (decide (d ∈ cs.*1)) as [Hin|Hnin].
      * by rewrite decide_True by (by right).
      * rewrite decide_False; [done|].
        rewrite not_elem_of_cons. split; [congruence|done].
Qed.

Lemma body_token_contribs (fe : SearchFrontend F) (N : Z)
    (scores : list (Z * F)) (t : string) :
  body_token fe N scores t =
  cs ← body_term_contribs fe N t; Some (accumulate scores cs).
Proof.
  unfold body_token, body_term_contribs.
  destruct (body_index fe) as [index|]; [|done].
  destruct (decide (df index !! t = None)); [done|].
  destruct (idf_of N index t) as [idf|]; cbn; [|done].
  rewrite <- for_loop_mapM. apply for_loop_ext. intros s p.
  unfold body_posting, body_contrib.
  by destruct (fdiv (fmul (of_int p.2) idf) (norm_of fe p.1)).
Qed.

Lemma search_body_scores_contribs (fe : SearchFrontend F)
    (tokens : list string) :
  search_body_scores fe tokens =
  cs ← body_contribs fe tokens; Some (accumulate [] cs).
Proof.
  unfold search_body_scores, body_contribs.
  rewrite (for_loop_ext _ _ _ _ (body_token_contribs fe (corpus_size fe))).
  rewrite for_loop_concat.
  by destruct (mapM (body_term_contribs fe (corpus_size fe)) tokens).
Qed.

Lemma accumulate_title (fe : SearchFrontend F) (scores : list (Z * F))
    (t : string) :
  fold_left (λ scores (p : posting), score_add scores p.1 f_0_7)
    (_get_posting (title_index fe) (title_dir fe) t) scores
  = accumulate scores (title_contribs fe t).
Proof.
  unfold title_contribs, accumulate.
  generalize (_get_posting (title_index fe) (title_dir fe) t). intros ps.
  revert scores. induction ps as [|p ps IH]; intros scores; cbn; [done|].
  apply IH.
Qed.

Lemma title_contribs_None (fe : SearchFrontend F) (t : string) :
  title_index fe = None → title_contribs fe t = [].
Proof. unfold title_contribs. by intros ->. Qed.

Lemma hybrid_token_contribs (fe : SearchFrontend F) (N : Z)
    (scores : list (Z * F)) (t : string) :
  hybrid_token fe N scores t =
  cs ← hybrid_term_contribs fe N t; Some (accumulate scores cs).
Proof.
  unfold hybrid_token, hybrid_term_contribs.
  assert (match title_index fe with
          | Some _ =>
              fold_left (λ scores (p : posting), score_add scores p.1 f_0_7)
                (_get_posting (title_index fe) (title_dir fe) t) scores
          | None => scores
          end = accumulate scores (title_contribs fe t)) as ->.
  { destruct (title_index fe) eqn:Ht.
    - rewrite <- Ht. apply accumulate_title.
    - by rewrite title_contribs_None. }
  destruct (body_index fe) as [index|]; [|done].
  assert (∀ idf,
    for_loop (hybrid_posting fe idf) (accumulate scores (title_contribs fe t))
      (_get_posting (Some index) (body_dir fe) t)
    = bs ← mapM (hybrid_contrib fe idf)
              (_get_posting (Some index) (body_dir fe) t);
      Some (accumulate scores (title_contribs fe t ++ bs))) as Hloop.
  { intros idf.
    rewrite (for_loop_ext _ (λ s p, c ← hybrid_contrib fe idf p;
                                    Some (score_add s c.1 c.2))).
    - rewrite for_loop_mapM.
      destruct (mapM (hybrid_contrib fe idf) _); cbn; [|done].
      by rewrite accumulate_app.
    - intros s p. unfold hybrid_posting, hybrid_contrib.
      by destruct (fdiv _ (norm_of fe p.1)). }
  destruct (decide (df index !! t = None)) as [Hdf|Hdf].
  - cbn. rewrite Hloop. unfold _get_posting. rewrite decide_True by done.
    cbn. by rewrite app_nil_r.
  - destruct (idf_of N index t) as [idf|]; cbn; [|done].
    rewrite Hloop. by destruct (mapM (hybrid_contrib fe idf) _).
Qed.

Lemma search_scores_contribs (fe : SearchFrontend F) (tokens : list string) :
  search_scores fe tokens =
  cs ← hybrid_contribs fe tokens; Some (accumulate [] cs).
Proof.
  unfold search_scores, hybrid_contribs.
  rewrite (for_loop_ext _ _ _ _ (hybrid_token_contribs fe (corpus_size fe))).
  rewrite for_loop_concat.
  by destruct (mapM (hybrid_term_contribs fe (corpus_size fe)) tokens).
Qed.

Lemma corpus_size_pos (fe : SearchFrontend F) : 0 < corpus_size fe.
Proof. unfold corpus_size. destruct (decide (size (doc_norms fe) = 0%nat)); lia. Qed.

(** The loops add what the formulas of the specification say. *)
Lemma corpus_size_document_count (fe : SearchFrontend F) :
  corpus_size fe = document_count fe.
Proof.
  unfold corpus_size, document_count.
  destruct (size (doc_norms fe)); [done|]. by rewrite decide_False by lia.
Qed.

Lemma body_term_contribs_formula (fe : SearchFrontend F) (t : string) :
  body_term_contribs fe (corpus_size fe) t
  = spec_body_term (document_count fe) (body_frequencies fe) (doc_norms fe)
      (_get_posting (body_index fe) (body_dir fe)) t.
Proof.
  unfold body_term_contribs, spec_body_term, body_frequencies.
  rewrite corpus_size_document_count.
  destruct (body_index fe) as [index|]; [|by rewrite lookup_empty].
  destruct (df index !! t) as [n|] eqn:Hn.
  - rewrite decide_False by done. unfold idf_of, spec_idf, count_of.
    rewrite Hn. cbn [default from_option]. done.
  - by rewrite decide_True.
Qed.

Lemma body_contribs_formula (fe : SearchFrontend F) (tokens : list string) :
  body_contribs fe tokens = body_formula fe tokens.
Proof.
  unfold body_contribs, body_formula, spec_body. f_equal.
  apply mapM_pointwise. intros t. apply body_term_contribs_formula.
Qed.

Lemma hybrid_term_contribs_formula (fe : SearchFrontend F) (t : string) :
  hybrid_term_contribs fe (corpus_size fe) t
  = spec_hybrid_term (document_count fe) (body_frequencies fe) (doc_norms fe)
      (_get_posting (title_index fe) (title_dir fe))
      (_get_posting (body_index fe) (body_dir fe)) t.
Proof.
  unfold hybrid_term_contribs, spec_hybrid_term, body_frequencies,
    title_contribs.
  rewrite corpus_size_document_count.
  destruct (body_index fe) as [index|];
    [|rewrite lookup_empty; cbn; by rewrite app_nil_r].
  destruct (df index !! t) as [n|] eqn:Hn.
  - rewrite decide_False by done. unfold idf_of, spec_idf, count_of.
    rewrite Hn. cbn [default from_option]. unfold Datatypes.id.
    destruct (int_truediv (document_count fe) n) as [q|]; [|done].
    cbn [mbind option_bind]. by destruct (log_base10 q).
  - rewrite decide_True by done. cbn. by rewrite app_nil_r.
Qed.

Lemma hybrid_contribs_formula (fe : SearchFrontend F) (tokens : list string) :
  hybrid_contribs fe tokens = hybrid_formula fe tokens.
Proof.
  unfold hybrid_contribs, hybrid_formula, spec_hybrid. f_equal.
  apply mapM_pointwise. intros t. apply hybrid_term_contribs_formula.
Qed.

End scoring_facts.

(** ** What the decoding loop can give *)

Lemma Z_of_byte_range (b : byte) : 0 ≤ Z_of_byte b < 256.
Proof. unfold Z_of_byte. pose proof (Byte.to_N_bounded b). lia. Qed.

Lemma from_bytes_bound (l : list byte) :
  0 ≤ from_bytes l < 256 ^ Z.of_nat (length l).
Proof.
  induction l as [|x l IH] using rev_ind; [cbn; lia|].
  rewrite from_bytes_snoc, length_app. cbn [length].
  pose proof (Z_of_byte_range x) as Hx.
  replace (Z.of_nat (length l + 1)) with (Z.succ (Z.of_nat (length l))) by lia.
  rewrite Z.pow_succ_r by lia. lia.
Qed.

Lemma length_py_slice {A} (i j : Z) (l : list A) :
  0 ≤ i → 0 ≤ j → (length (py_slice i j l) ≤ Z.to_nat (j - i))%nat.
Proof.
  intros Hi Hj. rewrite py_slice_nonneg by lia. rewrite length_take. lia.
Qed.

Lemma decode_at_bounds (b : list byte) (i : Z) :
  0 ≤ i →
  0 ≤ (decode_at b i).1 < 2 ^ 32 ∧ 0 ≤ (decode_at b i).2 < 2 ^ 16.
Proof.
  intros Hi. unfold decode_at, TUPLE_SIZE. cbn [fst snd].
  pose proof (from_bytes_bound (py_slice (i * 6) (i * 6 + 4) b)) as H1.
  pose proof (from_bytes_bound (py_slice (i * 6 + 4) ((i + 1) * 6) b)) as H2.
  pose proof (length_py_slice (i * 6) (i * 6 + 4) b ltac:(lia) ltac:(lia)) as L1.
  pose proof (length_py_slice (i * 6 + 4) ((i + 1) * 6) b ltac:(lia) ltac:(lia))
    as L2.
  assert (256 ^ Z.of_nat (length (py_slice (i * 6) (i * 6 + 4) b)) ≤ 256 ^ 4).
  { apply Z.pow_le_mono_r; lia. }
  assert (256 ^ Z.of_nat (length (py_slice (i * 6 + 4) ((i + 1) * 6) b)) ≤ 256 ^ 2).
  { apply Z.pow_le_mono_r; lia. }
  change (2 ^ 32) with (256 ^ 4). change (2 ^ 16) with (256 ^ 2). lia.
Qed.

Lemma decode_pl_bounds_aux (b : list byte) (n : Z) :
  Forall (λ p : posting, 0 ≤ p.1 < 2 ^ 32 ∧ 0 ≤ p.2 < 2 ^ 16) (decode_pl b n).
Proof.
  unfold decode_pl, py_range.
  apply Forall_fmap, Forall_fmap, Forall_forall. intros i _. cbn.
  apply decode_at_bounds. lia.
Qed.

Lemma _get_posting_range (index : option InvertedIndex) (fs : store)
    (t : string) :
  Forall (λ p : posting, 0 ≤ p.1 < 2 ^ 32 ∧ 0 ≤ p.2 < 2 ^ 16)
    (_get_posting index fs t).
Proof.
  unfold _get_posting. destruct index as [index|]; [|done].
  destruct (decide (df index !! t = None)); [done|].
  unfold read_a_posting_list. destruct (posting_locs index !! t); [|done].
  destruct (MultiFileReader_read _ _ _); [|done]. cbn.
  apply decode_pl_bounds_aux.
Qed.

(** ** The real numbers are an exact arithmetic *)

Lemma R_arith_exact : @ExactArith R R_arith.
Proof.
  split; cbn.
  - intros n Hn. rewrite decide_False by lia. f_equal.
    apply Rinv_r. apply not_0_IZR. lia.
  - destruct (Rlt_dec 0 1) as [_|Hn]; [|exfalso; apply Hn; lra].
    f_equal. rewrite ln_1. unfold Rdiv. apply Rmult_0_l.
  - intros n _. apply Rmult_0_r.
  - intros y z _. destruct (Req_dec_T y 0); [done|].
    intros [= <-]. unfold Rdiv. apply Rmult_0_l.
  - destruct (Rlt_dec 0 1) as [_|Hn]; [done|]. exfalso. apply Hn. lra.
Qed.

Lemma R_arith_strict_weak : StrictWeak (@flt R R_arith).
Proof.
  split; cbn; intros x y.
  - destruct (Rlt_dec x y), (Rlt_dec y x); try done. lra.
  - intros z. destruct (Rlt_dec x y), (Rlt_dec y z), (Rlt_dec x z); try done.
    lra.
Qed.

Lemma dog_postings : _get_posting (Some dog_index) dog_dir "dog" = [(1, 1); (2, 1)].
Proof. vm_compute. reflexivity. Qed.

Lemma dog_hybrid_contribs :
  ∃ x1 x2 : R,
    @hybrid_contribs R R_arith dog_frontend ["dog"]
    = Some [(1, (7 / 10)%R); (2, (7 / 10)%R); (1, x1); (2, x2)].
Proof.
  unfold hybrid_contribs, hybrid_term_contribs. cbn [mapM].
  change (body_index dog_frontend) with (Some dog_index).
  cbv beta iota. rewrite decide_False by done.
  unfold title_contribs.
  change (title_index dog_frontend) with (Some dog_index).
  change (title_dir dog_frontend) with dog_dir.
  change (body_dir dog_frontend) with dog_dir.
  rewrite dog_postings.
  unfold idf_of. change (count_of (df dog_index) "dog") with 2.
  change (corpus_size dog_frontend) with 2.
  cbn [int_truediv R_arith]. rewrite decide_False by lia.
  cbn [mbind option_bind log_base10 R_arith].
  destruct (Rlt_dec 0 (2 / 2)) as [_|Hn]; [|exfalso; apply Hn; lra].
  cbn.
  change (norm_of dog_frontend 1) with 1%R.
  change (norm_of dog_frontend 2) with 2%R.
  destruct (Req_dec_T 1 0) as [Hn|_]; [lra|].
  destruct (Req_dec_T 2 0) as [Hn|_]; [lra|].
  cbn. eauto.
Qed.

(** The example with ten documents: [N / df] is 10, the idf is 1, and the
    norm of document 1 is 2. *)
Lemma cat_postings : _get_posting (Some cat_index) cat_dir "cat" = [(1, 3)].
Proof. vm_compute. reflexivity. Qed.

Lemma ln_10_neq_0 : ln 10 ≠ 0%R.
Proof.
  pose proof (ln_increasing 1 10 ltac:(lra) ltac:(lra)) as Hln.
  rewrite ln_1 in Hln. lra.
Qed.

Lemma cat_idf :
  @spec_idf R R_arith (document_count cat_frontend) 1 = Some 1%R.
Proof.
  unfold spec_idf. change (document_count cat_frontend) with 10.
  cbn [int_truediv R_arith]. rewrite decide_False by lia.
  cbn [mbind option_bind log_base10 R_arith].
  destruct (Rlt_dec 0 (10 / 1)) as [_|Hn]; [|exfalso; apply Hn; lra].
  f_equal. replace (10 / 1)%R with 10%R by lra.
  apply Rinv_r, ln_10_neq_0.
Qed.

Lemma cat_norm : doc_norms cat_frontend !! 1 = Some 2%R.
Proof. apply lookup_insert_eq. Qed.

Lemma cat_body_formula :
  @body_formula R R_arith cat_frontend ["cat"] = Some [(1, (3 / 2)%R)].
Proof.
  unfold body_formula, spec_body. cbn [mapM]. unfold spec_body_term.
  change (body_frequencies cat_frontend !! "cat") with (Some 1).
  cbv beta iota. rewrite cat_idf. cbn [mbind option_bind].
  change (body_index cat_frontend) with (Some cat_index).
  change (body_dir cat_frontend) with cat_dir.
  rewrite cat_postings. cbn [mapM]. unfold spec_tf_idf. cbn [fst snd].
  rewrite cat_norm. cbn [default from_option fdiv fmul of_int R_arith].
  unfold Datatypes.id.
  destruct (Req_dec_T 2 0) as [Hn|_]; [lra|].
  cbn. do 3 f_equal. lra.
Qed.

Lemma cat_hybrid_formula :
  @hybrid_formula R R_arith cat_frontend ["cat"]
  = Some [(1, (7 / 10)%R); (1, (9 / 20)%R)].
Proof.
  unfold hybrid_formula, spec_hybrid. cbn [mapM]. unfold spec_hybrid_term.
  change (body_frequencies cat_frontend !! "cat") with (Some 1).
  cbv beta iota. rewrite cat_idf. cbn [mbind option_bind].
  change (body_index cat_frontend) with (Some cat_index).
  change (body_dir cat_frontend) with cat_dir.
  change (title_index cat_frontend) with (Some cat_index).
  change (title_dir cat_frontend) with cat_dir.
  rewrite cat_postings. cbn [mapM]. unfold spec_weighted_tf_idf.
  cbn [fst snd]. rewrite cat_norm.
  cbn [default from_option fdiv fmul of_int f_0_3 f_0_7 R_arith].
  unfold Datatypes.id.
  destruct (Req_dec_T 2 0) as [Hn|_]; [lra|].
  cbn. replace (3 / 10 * (3 * 1) / 2)%R with (9 / 20)%R by lra. done.
Qed.

Lemma dog_norms_positive :
  map_Forall (λ _ x, @flt R R_arith 0%R x = true) (doc_norms dog_frontend).
Proof.
  intros d x Hd. cbn [dog_frontend doc_norms] in Hd.
  apply lookup_insert_Some in Hd as [[_ <-]|[_ Hd]].
  - cbn. destruct (Rlt_dec 0 1) as [_|Hn]; [done|]. exfalso. apply Hn. lra.
  - apply lookup_singleton_Some in Hd as [_ <-].
    cbn. destruct (Rlt_dec 0 2) as [_|Hn]; [done|]. exfalso. apply Hn. lra.
Qed.

(** ** Body and hybrid scores *)

(** C4. In body mode the scores are what the formula of the specification
    gives on the data of the front end: a query term that is not in the
    document frequencies of the body index contributes nothing, any other
    term contributes [(tf * log10(N / df[t])) / norm[doc_id]] for each of
    its postings [(doc_id, tf)], with norm 1 for a document that has none,
    [N] being the number of documents with a norm; the score of a document
    is the sum of the contributions to it, in their order, a document
    without a contribution having no score; the method raises exactly when
    computing a contribution does. This holds in every arithmetic. In an
    arithmetic with the laws of [ExactArith], and with positive norms, a
    term with [df[t] = N] has idf [log10(1) = 0] and contributes 0 to every
    document of its posting list. *)
Theorem C4_body_scores {F : Type} `{PyFloat F} (fe : SearchFrontend F)
    (tokens : list string) :
  (body_formula fe tokens = None → search_body_scores fe tokens = None) ∧
  (∀ cs, body_formula fe tokens = Some cs →
     ∃ scores,
       search_body_scores fe tokens = Some scores ∧
       ∀ d, od_get scores d =
            if decide (d ∈ cs.*1) then Some (total_for d cs) else None) ∧
  (ExactArith F →
   map_Forall (λ _ x, flt (of_int 0) x = true) (doc_norms fe) →
   ∀ t, body_frequencies fe !! t = Some (document_count fe) →
     spec_idf (document_count fe) (document_count fe) = Some (of_int 0) ∧
     ∀ cs, body_formula fe [t] = Some cs →
       cs.*1 = (_get_posting (body_index fe) (body_dir fe) t).*1 ∧
       Forall (λ c, c.2 = of_int 0) cs).
Proof.
  rewrite search_body_scores_contribs, body_contribs_formula.
  split; [by intros ->|]. split.
  - intros cs ->. eexists. split; [done|]. intros d.
    by rewrite accumulate_get.
  - intros Hexact Hnorms t Hdf.
    assert (0 < document_count fe) as HN.
    { unfold document_count. destruct (size (doc_norms fe)); lia. }
    assert (spec_idf (document_count fe) (document_count fe)
            = Some (of_int 0)) as Hidf.
    { unfold spec_idf. rewrite int_truediv_diag by done. cbn.
      apply log_base10_one. }
    split; [done|]. intros cs.
    unfold body_formula, spec_body. cbn [mapM]. unfold spec_body_term at 1.
    rewrite Hdf, Hidf. cbn [mbind option_bind].
    pose proof (_get_posting_range (body_index fe) (body_dir fe) t) as Hrange.
    revert Hrange.
    generalize (_get_posting (body_index fe) (body_dir fe) t). intros ps Hps.
    destruct (mapM _ ps) as [cs0|] eqn:Hcs; [|done].
    cbn. rewrite app_nil_r. intros [= <-].
    apply mapM_Some_1 in Hcs.
    induction Hcs as [|p c ps cs' Hc _ IH]; [done|].
    apply Forall_cons in Hps as [[_ Htf] Hps].
    destruct (IH Hps) as [IH1 IH2].
    unfold spec_tf_idf in Hc. rewrite fmul_zero_r in Hc by done.
    destruct (fdiv (of_int 0) (default (of_int 1) (doc_norms fe !! p.1)))
      as [z|] eqn:Hz; [|done].
    injection Hc as <-. apply fdiv_zero_l in Hz as ->.
    + cbn. rewrite IH1. split; [done|]. by constructor.
    + destruct (doc_norms fe !! p.1) as [x|] eqn:Hx; cbn.
      * by apply (Hnorms p.1).
      * apply flt_zero_one.
Qed.

Lemma C4_body_scores_witness :
  (∃ scores,
     @search_body_scores R R_arith cat_frontend ["cat"] = Some scores ∧
     od_get scores 1 = Some (3 / 2)%R) ∧
  @spec_idf R R_arith (document_count dog_frontend)
    (document_count dog_frontend) = Some 0%R.
Proof.
  split.
  - destruct (@C4_body_scores R R_arith cat_frontend ["cat"])
      as (_ & Hsome & _).
    destruct (Hsome _ cat_body_formula) as (scores & Hs & Hget).
    exists scores. split; [exact Hs|]. rewrite Hget.
    rewrite decide_True by (cbn; left).
    f_equal. unfold total_for. cbn. rewrite decide_True by done. cbn. lra.
  - destruct (@C4_body_scores R R_arith dog_frontend ["dog"])
      as (_ & _ & Hall).
    apply (Hall R_arith_exact dog_norms_positive "dog"). reflexivity.
Defined.

(** C5. In hybrid mode the scores are what the formula of the
    specification gives on the data of the front end: for each query term,
    0.7 for each posting of the term in the title index, then
    [0.3 * (tf * log10(N / df[t])) / norm[doc_id]] for each of its postings
    in the body index, none when the term is not in the document
    frequencies of the body index, norm 1 for a document that has none;
    the score of a document is the sum of these, in their order. The
    result lists the first 100 documents at most of the scored ones as the
    stable sort by descending score orders them: when the comparison of
    scores is a strict weak order, the scores descend, and no document
    left out has a larger score than one that is listed. *)
Theorem C5_hybrid_scores {F : Type} `{PyFloat F} (fe : SearchFrontend F)
    (tokens : list string) :
  (hybrid_formula fe tokens = None → search fe tokens = None) ∧
  (∀ cs, hybrid_formula fe tokens = Some cs →
     ∃ scores ranked,
       search_scores fe tokens = Some scores ∧
       (∀ d, od_get scores d =
             if decide (d ∈ cs.*1) then Some (total_for d cs) else None) ∧
       ranked ≡ₚ scores ∧
       search fe tokens = Some (render (id_to_title fe) (take 100 ranked)) ∧
       (length (render (id_to_title fe) (take 100 ranked)) ≤ 100)%nat ∧
       (StrictWeak flt →
        StronglySorted (λ a b, flt a.2 b.2 = false) ranked ∧
        ∀ x y, x ∈ take 100 ranked → y ∈ drop 100 ranked →
               flt x.2 y.2 = false)).
Proof.
  unfold search. rewrite search_scores_contribs, hybrid_contribs_formula.
  split; [by intros ->|].
  intros cs ->. cbn [mbind option_bind].
  exists (accumulate [] cs), (sorted_desc flt (accumulate [] cs)).
  split; [done|]. split; [intros d; by rewrite accumulate_get|].
  split; [apply sorted_desc_perm|].
  split; [by rewrite py_upto_nonneg by lia|].
  split; [rewrite length_render, length_take; lia|].
  intros Hsw. split; [by apply sorted_desc_sorted|].
  intros x y. by apply sorted_desc_top.
Qed.

Lemma C5_hybrid_scores_witness :
  ∃ scores ranked,
    @search_scores R R_arith cat_frontend ["cat"] = Some scores ∧
    od_get scores 1 = Some (23 / 20)%R ∧
    ranked ≡ₚ scores ∧
    @search R R_arith cat_frontend ["cat"]
    = Some (render (id_to_title cat_frontend) (take 100 ranked)) ∧
    StronglySorted (λ a b, @flt R R_arith a.2 b.2 = false) ranked.
Proof.
  destruct (@C5_hybrid_scores R R_arith cat_frontend ["cat"]) as [_ Hsome].
  destruct (Hsome _ cat_hybrid_formula)
    as (scores & ranked & Hs & Hget & Hp & Hr & _ & Hsorted).
  exists scores, ranked. split; [exact Hs|]. split.
  - rewrite Hget. rewrite decide_True by (cbn; left).
    f_equal. unfold total_for. cbn. rewrite !decide_True by done. cbn. lra.
  - split; [exact Hp|]. split; [exact Hr|].
    exact (proj1 (Hsorted R_arith_strict_weak)).
Defined.

(** ** Terms an index does not know *)

Lemma read_a_posting_list_unknown (index : InvertedIndex) (fs : store)
    (w : string) :
  posting_locs index !! w = None → read_a_posting_list index fs w = Some [].
Proof. unfold read_a_posting_list. by intros ->. Qed.

Lemma _get_posting_unknown (index : option InvertedIndex) (fs : store)
    (w : string) :
  unknown_to index w → _get_posting index fs w = [].
Proof.
  destruct index as [index|]; [|done]. intros Hw. unfold _get_posting.
  destruct (decide (df index !! w = None)); [done|].
  destruct Hw as [Hw|Hw]; [|done].
  by rewrite read_a_posting_list_unknown.
Qed.

Lemma for_loop_app {A B} (f : A → B → option A) (a : A) (l1 l2 : list B) :
  for_loop f a (l1 ++ l2) = a' ← for_loop f a l1; for_loop f a' l2.
Proof.
  revert a. induction l1 as [|b l1 IH]; intros a; cbn; [done|].
  destruct (f a b); cbn; [apply IH|done].
Qed.

(** A token on which the body of the loop changes nothing can be left out of
    the query. *)
Lemma for_loop_skip {A B} (f : A → B → option A) (a : A) (l1 l2 : list B)
    (b : B) :
  (∀ a, f a b = Some a) →
  for_loop f a (l1 ++ b :: l2) = for_loop f a (l1 ++ l2).
Proof.
  intros Hb. rewrite !for_loop_app.
  destruct (for_loop f a l1) as [a'|]; cbn; [|done]. by rewrite Hb.
Qed.

Lemma count_scores_skip (index : option InvertedIndex) (fs : store)
    (tokens1 tokens2 : list string) (w : string) :
  _get_posting index fs w = [] →
  count_scores index fs (tokens1 ++ w :: tokens2)
  = count_scores index fs (tokens1 ++ tokens2).
Proof.
  intros Hw. unfold count_scores. rewrite !fold_left_app. cbn [fold_left].
  by rewrite Hw.
Qed.

(** C8. A term [w] without an entry in [posting_locs] has the empty posting
    list: [read_a_posting_list] returns it whatever the directory holds, so
    without reading it, and raises nothing. A query term unknown to an
    index, that is without an entry in its [posting_locs] or in its [df],
    adds nothing to any score: a query gives the same scores, and the same
    result, with and without the term, in title, anchor, body and hybrid
    mode (in the last two, when the term is in [df] of the body index,
    provided that computing its idf does not raise). *)
Theorem C8_unknown_term {F : Type} `{PyFloat F} (w : string) :
  (∀ index fs,
     posting_locs index !! w = None →
     read_a_posting_list index fs w = Some []) ∧
  (∀ index fs, unknown_to index w → _get_posting index fs w = []) ∧
  (∀ (fe : SearchFrontend F) tokens1 tokens2,
     unknown_to (title_index fe) w →
     search_title fe (tokens1 ++ w :: tokens2)
     = search_title fe (tokens1 ++ tokens2)) ∧
  (∀ (fe : SearchFrontend F) tokens1 tokens2,
     unknown_to (anchor_index fe) w →
     search_anchor fe (tokens1 ++ w :: tokens2)
     = search_anchor fe (tokens1 ++ tokens2)) ∧
  (∀ (fe : SearchFrontend F) tokens1 tokens2,
     unknown_to (body_index fe) w →
     (∀ index, body_index fe = Some index →
        df index !! w = None ∨ is_Some (idf_of (corpus_size fe) index w)) →
     search_body_scores fe (tokens1 ++ w :: tokens2)
     = search_body_scores fe (tokens1 ++ tokens2) ∧
     search_body fe (tokens1 ++ w :: tokens2)
     = search_body fe (tokens1 ++ tokens2)) ∧
  (∀ (fe : SearchFrontend F) tokens1 tokens2,
     unknown_to (title_index fe) w → unknown_to (body_index fe) w →
     (∀ index, body_index fe = Some index →
        df index !! w = None ∨ is_Some (idf_of (corpus_size fe) index w)) →
     search_scores fe (tokens1 ++ w :: tokens2)
     = search_scores fe (tokens1 ++ tokens2) ∧
     search fe (tokens1 ++ w :: tokens2) = search fe (tokens1 ++ tokens2)).
Proof.
  split; [intros index fs; by apply read_a_posting_list_unknown|].
  split; [intros index fs; by apply _get_posting_unknown|].
  split; [|split; [|split]].
  - intros fe tokens1 tokens2 Ht. unfold search_title.
    by rewrite count_scores_skip by (by apply _get_posting_unknown).
  - intros fe tokens1 tokens2 Ha. unfold search_anchor.
    by rewrite count_scores_skip by (by apply _get_posting_unknown).
  - intros fe tokens1 tokens2 Hb Hidf.
    assert (search_body_scores fe (tokens1 ++ w :: tokens2)
            = search_body_scores fe (tokens1 ++ tokens2)) as Hs.
    { unfold search_body_scores. apply for_loop_skip. intros scores.
      unfold body_token. destruct (body_index fe) as [index|] eqn:Hi; [|done].
      destruct (decide (df index !! w = None)) as [|Hdf]; [done|].
      destruct (Hidf index eq_refl) as [?|[idf ->]]; [done|].
      cbn [mbind option_bind]. by rewrite _get_posting_unknown. }
    split; [done|]. unfold search_body. by rewrite Hs.
  - intros fe tokens1 tokens2 Ht Hb Hidf.
    assert (search_scores fe (tokens1 ++ w :: tokens2)
            = search_scores fe (tokens1 ++ tokens2)) as Hs.
    { unfold search_scores. apply for_loop_skip. intros scores.
      rewrite hybrid_token_contribs. unfold hybrid_term_contribs, title_contribs.
      rewrite (_get_posting_unknown (title_index fe)) by done.
      destruct (body_index fe) as [index|] eqn:Hi; [|done].
      destruct (decide (df index !! w = None)) as [|Hdf]; [done|].
      destruct (Hidf index eq_refl) as [?|[idf ->]]; [done|].
      cbn [mbind option_bind]. by rewrite _get_posting_unknown. }
    split; [done|]. unfold search. by rewrite Hs.
Qed.

Lemma C8_unknown_term_witness :
  read_a_posting_list dog_index ∅ "cat" = Some [] ∧
  @search_title R dog_frontend ["dog"; "cat"]
  = @search_title R dog_frontend ["dog"].
Proof.
  destruct (@C8_unknown_term R R_arith "cat") as (Hread & _ & Htitle & _).
  split; [by apply Hread|].
  apply (Htitle dog_frontend ["dog"] []). by left.
Defined.

(** ** Result lengths *)

Lemma count_scores_flat (index : option InvertedIndex) (fs : store)
    (tokens : list string) (scores : list (Z * Z)) :
  fold_left (λ scores t,
      fold_left (λ scores (p : posting), count_hit scores p.1)
        (_get_posting index fs t) scores)
    tokens scores
  = fold_left count_hit
      (concat ((λ t, (_get_posting index fs t).*1) <$> tokens)) scores.
Proof.
  revert scores. induction tokens as [|t tokens IH]; intros scores; [done|].
  cbn [fold_left fmap list_fmap concat]. rewrite fold_left_app, IH. f_equal.
  generalize (_get_posting index fs t). intros ps. revert scores.
  induction ps as [|p ps IHp]; intros scores; [done|]. cbn. apply IHp.
Qed.

(** The documents with a count are those of the posting lists of the query
    tokens, each once. *)
Lemma count_scores_keys (index : option InvertedIndex) (fs : store)
    (tokens : list string) :
  NoDup (count_scores index fs tokens).*1 ∧
  list_to_set (count_scores index fs tokens).*1 = scored_docs index fs tokens.
Proof.
  unfold count_scores, scored_docs. rewrite count_scores_flat.
  destruct (od_set_fold_keys (λ s d, default 0 (od_get s d) + 1)
              (concat ((λ t, (_get_posting index fs t).*1) <$> tokens)) [])
    as [Hnd Hkeys]; [constructor|].
  split; [exact Hnd|]. apply set_eq. intros d.
  rewrite !elem_of_list_to_set. cbn zeta in Hkeys. unfold count_hit.
  rewrite Hkeys. cbn. rewrite elem_of_nil. tauto.
Qed.


Lemma render_ids {V} (titles : gmap Z string) (res : list (Z * V)) :
  (render titles res).*1 = pretty <$> res.*1.
Proof.
  unfold render. rewrite <- !list_fmap_compose. by apply list_fmap_ext.
Qed.



(** * Further properties of the code *)

(** ** The codec, both ways *)

Lemma encode_posting_None (doc_id tf : Z) :
  ¬ 0 ≤ doc_id < 2 ^ 32 → encode_posting (doc_id, tf) = None.
Proof.
  intros Hd. unfold encode_posting, to_bytes. cbn [fst snd].
  rewrite packed_value.
  pose proof (Z.mod_pos_bound tf (2 ^ 16) ltac:(lia)) as Ht.
  change (Z.to_nat TUPLE_SIZE) with 6%nat.
  rewrite decide_False; [done|].
  change (256 ^ Z.of_nat 6) with (2 ^ 32 * 2 ^ 16). nia.
Qed.

(** X1. Encoding a posting list raises ([OverflowError] of [to_bytes])
    exactly when some document id is negative or does not fit in 32 bits,
    whatever the term frequencies are; when it does not raise, the buffer
    has six bytes per posting. *)
Theorem X1_encode_pl_defined (pl : list posting) :
  (encode_pl pl = None ↔ Exists (λ p : posting, ¬ 0 ≤ p.1 < 2 ^ 32) pl) ∧
  (∀ b, encode_pl pl = Some b → len b = TUPLE_SIZE * len pl).
Proof.
  destruct (decide (Forall (λ p : posting, 0 ≤ p.1 < 2 ^ 32) pl)) as [Hall|Hex].
  - rewrite (encode_pl_Some pl Hall). split.
    + split; [done|]. intros Hex. apply Exists_exists in Hex as (p & Hp & Hn).
      rewrite Forall_forall in Hall. destruct Hn. by apply Hall.
    + intros b [= <-]. unfold len, TUPLE_SIZE.
      rewrite length_concat_records. lia.
  - apply not_Forall_Exists in Hex; [|intros p; apply _].
    assert (encode_pl pl = None) as ->; [|done].
    unfold encode_pl.
    destruct (mapM encode_posting pl) as [k|] eqn:Hk; [|done]. exfalso.
    apply mapM_Some_1 in Hk. apply Exists_exists in Hex as ([d t] & Hp & Hn).
    apply list_elem_of_lookup in Hp as [i Hi].
    destruct (Forall2_lookup_l _ _ _ _ _ Hk Hi) as (y & _ & Hy).
    by rewrite encode_posting_None in Hy.
Qed.

(** X2. Whatever the buffer holds and however short it is, decoding [n]
    records gives [n] postings ([0] for a negative [n]), each with a
    document id in [0, 2^32) and a term frequency in [0, 2^16). *)
Theorem X2_decode_pl_bounds (b : list byte) (n : Z) :
  length (decode_pl b n) = Z.to_nat n ∧
  Forall (λ p : posting, 0 ≤ p.1 < 2 ^ 32 ∧ 0 ≤ p.2 < 2 ^ 16) (decode_pl b n).
Proof.
  unfold decode_pl, py_range. split.
  - by rewrite !length_fmap, length_seq.
  - apply decode_pl_bounds_aux.
Qed.

Lemma byte_of_Z_of_byte (x : byte) : byte_of_Z (Z_of_byte x) = x.
Proof.
  unfold byte_of_Z, Z_of_byte. pose proof (Byte.to_N_bounded x).
  rewrite Z.mod_small by lia. rewrite N2Z.id. by rewrite Byte.of_to_N.
Qed.

Lemma big_digits_from_bytes (l : list byte) :
  big_digits (length l) (from_bytes l) = l.
Proof.
  induction l as [|x l IH] using rev_ind; [done|].
  rewrite length_app. cbn [length]. rewrite Nat.add_1_r. cbn [big_digits].
  rewrite from_bytes_snoc. pose proof (Z_of_byte_range x) as Hx. f_equal.
  - assert ((from_bytes l * 256 + Z_of_byte x) / 256 = from_bytes l) as ->;
      [|exact IH].
    rewrite Z.add_comm, Z.div_add by lia.
    rewrite Z.div_small by lia. lia.
  - f_equal. rewrite <- byte_of_Z_mod.
    rewrite Z.add_comm, Z.mod_add by lia.
    by rewrite byte_of_Z_mod, byte_of_Z_of_byte.
Qed.

Lemma decode_at_drop (b : list byte) (i : Z) :
  0 ≤ i → decode_at (drop 6 b) i = decode_at b (i + 1).
Proof.
  intros Hi. unfold decode_at, TUPLE_SIZE.
  rewrite !py_slice_nonneg by lia. rewrite !drop_drop.
  do 3 f_equal; try lia; f_equal; lia.
Qed.

Lemma decode_pl_succ (b : list byte) (n : nat) :
  decode_pl b (Z.of_nat (S n)) = decode_at b 0 :: decode_pl (drop 6 b) (Z.of_nat n).
Proof.
  unfold decode_pl, py_range. rewrite !Nat2Z.id. cbn [seq fmap list_fmap].
  f_equal. rewrite <- fmap_S_seq, <- !list_fmap_compose.
  apply list_fmap_ext. intros _ k _. cbn.
  rewrite decode_at_drop by lia. f_equal. lia.
Qed.

Lemma record_bytes_decode_at (b : list byte) :
  (6 ≤ length b)%nat → record_bytes (decode_at b 0) = take 6 b.
Proof.
  intros Hlen. unfold record_bytes, decode_at, TUPLE_SIZE. cbn [fst snd].
  rewrite !py_slice_nonneg by lia.
  change (Z.to_nat (0 * 6)) with 0%nat.
  change (Z.to_nat (0 * 6 + 4)) with 4%nat.
  change (Z.to_nat ((0 + 1) * 6)) with 6%nat.
  cbn [Nat.sub drop].
  change (take 6 b) with (take (4 + 2) b).
  rewrite <- (take_take_drop b 4 2). f_equal.
  - pose proof (big_digits_from_bytes (take 4 b)) as E.
    rewrite length_take in E. by replace (4 `min` length b)%nat with 4%nat in E by lia.
  - pose proof (big_digits_from_bytes (take 2 (drop 4 b))) as E.
    rewrite length_take, length_drop in E.
    by replace (2 `min` (length b - 4))%nat with 2%nat in E by lia.
Qed.

(** X3. Decoding is inverted by encoding: a buffer of [6 * n] bytes, decoded
    into [n] postings and encoded again, is the same buffer. *)
Theorem X3_decode_encode (b : list byte) (n : nat) :
  length b = (6 * n)%nat →
  encode_pl (decode_pl b (Z.of_nat n)) = Some b.
Proof.
  intros Hlen.
  rewrite encode_pl_Some; cycle 1.
  { eapply Forall_impl; [apply decode_pl_bounds_aux|]. by intros p [? _]. }
  f_equal. revert b Hlen. induction n as [|n IH]; intros b Hlen.
  - by destruct b.
  - rewrite decode_pl_succ. cbn [fmap list_fmap concat].
    rewrite IH by (rewrite length_drop; lia).
    rewrite record_bytes_decode_at by lia. apply take_drop.
Qed.

Lemma X3_decode_encode_witness :
  encode_pl (decode_pl [x00; x00; x01; x00; xff; xfe] 1)
  = Some [x00; x00; x01; x00; xff; xfe].
Proof. apply (X3_decode_encode _ 1). reflexivity. Defined.

(** X4. Records that lie beyond the end of the buffer decode to [(0, 0)]:
    [int.from_bytes] of an empty slice is 0, and no error is raised. *)
Theorem X4_decode_past_end (b : list byte) (n : Z) (k : nat) (p : posting) :
  decode_pl b n !! k = Some p → len b ≤ 6 * Z.of_nat k → p = (0, 0).
Proof.
  unfold decode_pl, py_range, len. rewrite list_lookup_fmap, list_lookup_fmap.
  intros Hk Hlen.
  destruct (seq 0 (Z.to_nat n) !! k) as [i|] eqn:Hi; [|done].
  apply lookup_seq in Hi as [-> _]. cbn in Hk. injection Hk as <-.
  unfold decode_at, TUPLE_SIZE. rewrite !py_slice_nonneg by lia.
  rewrite !drop_ge by lia. by rewrite !take_nil.
Qed.

Lemma X4_decode_past_end_witness :
  decode_pl [x00; x00; x00; x07; x00; x03] 2 !! 1%nat = Some (0, 0).
Proof.
  assert (∃ p, decode_pl [x00; x00; x00; x07; x00; x03] 2 !! 1%nat = Some p)
    as [p Hp] by (eexists; reflexivity).
  rewrite Hp. f_equal.
  apply (X4_decode_past_end _ 2 1 p Hp). unfold len. simpl. lia.
Defined.

(** ** The writer: what it leaves alone, and the stream it lays down *)

Lemma write_loop_frame (fuel : nat) (w w' : MultiFileWriter) (b : list byte)
    (locs locs' : list loc) :
  write_loop fuel w b locs = Some (w', locs') →
  _name w' = _name w ∧ (_f w ≤ _f w')%nat ∧
  ∀ fn : fname,
    fn.1 ≠ _name w ∨ (_f w' < fn.2)%nat → _dir w' !! fn = _dir w !! fn.
Proof.
  revert w b locs. induction fuel as [|fuel IH]; intros w b locs.
  - cbn. destruct (decide (len b > 0)); [done|]. intros [= <- _]. by repeat split.
  - destruct (decide (b = [])) as [->|Hb].
    { rewrite write_loop_empty. intros [= <- _]. by repeat split. }
    rewrite write_loop_step by done. intros Hrun.
    apply IH in Hrun as (Hn & Hf & Hframe).
    cbn [f_write _name _f _dir] in *.
    assert (_name (roll w) = _name w ∧ (_f w ≤ _f (roll w))%nat ∧
            ∀ fn : fname, fn.1 ≠ _name w ∨ (_f (roll w) < fn.2)%nat →
              _dir (roll w) !! fn = _dir w !! fn) as (Hn1 & Hf1 & Hfr1).
    { unfold roll. destruct (decide (BLOCK_SIZE - f_tell w = 0)); [|by repeat split].
      cbn. repeat split; [lia|]. intros [n i] Hfn. unfold open_wb.
      apply lookup_insert_ne. cbn in Hfn. intros [= <- <-].
      destruct Hfn; [done|lia]. }
    rewrite Hn1 in *. repeat split; [done|lia|].
    intros [n i] Hfn. cbn in Hfn. rewrite Hframe by done.
    unfold f_name. rewrite lookup_insert_ne.
    + apply Hfr1. cbn. destruct Hfn; [by left|right; lia].
    + rewrite Hn1. intros [= <- <-]. destruct Hfn; [done|lia].
Qed.

Lemma write_seq_frame (w w' : MultiFileWriter) (payloads : list (list byte))
    (locss : list (list loc)) :
  write_seq w payloads = Some (w', locss) →
  _name w' = _name w ∧ (_f w ≤ _f w')%nat ∧
  ∀ fn : fname,
    fn.1 ≠ _name w ∨ (_f w' < fn.2)%nat → _dir w' !! fn = _dir w !! fn.
Proof.
  revert w locss. induction payloads as [|b payloads IH]; intros w locss.
  - intros [= <- _]. by repeat split.
  - cbn [write_seq].
    destruct (MultiFileWriter_write w b) as [[w1 locs]|] eqn:Hw; [|done]. cbn.
    destruct (write_seq w1 payloads) as [[w2 locss2]|] eqn:Hs; [|done]. cbn.
    intros [= <- _]. apply write_loop_frame in Hw as (Hn1 & Hf1 & Hfr1).
    apply IH in Hs as (Hn2 & Hf2 & Hfr2).
    repeat split; [congruence|lia|]. intros fn Hfn.
    rewrite Hfr2, Hfr1; [done| |]; rewrite ?Hn1; destruct Hfn; auto; right; lia.
Qed.

(** X5. A writer touches no file but its own: after any sequence of writes
    on a fresh writer of base name [name], every file of another base name,
    and every file of this name numbered beyond the current one, is as the
    directory had it before the writer was made. *)
Theorem X5_writer_frame (name : string) (fs : store)
    (payloads : list (list byte)) (w : MultiFileWriter)
    (locss : list (list loc)) (fn : fname) :
  write_seq (MultiFileWriter_init name fs) payloads = Some (w, locss) →
  fn.1 ≠ name ∨ (_f w < fn.2)%nat →
  _dir w !! fn = fs !! fn.
Proof.
  intros Hseq Hfn. apply write_seq_frame in Hseq as (_ & _ & Hframe).
  rewrite Hframe by done. cbn. unfold open_wb.
  apply lookup_insert_ne. destruct fn as [n i]. cbn in Hfn.
  intros [= <- <-]. destruct Hfn; [done|lia].
Qed.

Lemma X5_writer_frame_witness :
  ∃ w locss,
    write_seq (MultiFileWriter_init "a" {[("b", 0%nat) := [x01]]}) [[x02]; [x03]]
    = Some (w, locss) ∧
    _dir w !! ("b", 0%nat) = Some [x01].
Proof.
  assert (∃ w locss,
    write_seq (MultiFileWriter_init "a" {[("b", 0%nat) := [x01]]}) [[x02]; [x03]]
    = Some (w, locss)) as (w & locss & Hseq)
    by (eexists _, _; vm_compute; reflexivity).
  exists w, locss. split; [exact Hseq|].
  rewrite (X5_writer_frame "a" _ _ w locss ("b", 0%nat) Hseq) by (by left).
  reflexivity.
Defined.

Lemma files_upto_S (fs : store) (name : string) (n : nat) :
  files_upto fs name (S n)
  = files_upto fs name n ++ default [] (fs !! (name, n)).
Proof.
  unfold files_upto. rewrite seq_S, fmap_app, concat_app. cbn.
  by rewrite app_nil_r.
Qed.

Lemma files_upto_ext (fs fs' : store) (name : string) (n : nat) :
  (∀ i, (i < n)%nat → fs' !! (name, i) = fs !! (name, i)) →
  files_upto fs' name n = files_upto fs name n.
Proof.
  intros Hext. unfold files_upto. f_equal. apply list_fmap_ext.
  intros k i Hi. apply lookup_seq in Hi as [-> Hk]. cbn. by rewrite Hext.
Qed.

Lemma len_files_upto_full (fs : store) (name : string) (n : nat) :
  (∀ i, (i < n)%nat → ∃ c, fs !! (name, i) = Some c ∧ len c = BLOCK_SIZE) →
  len (files_upto fs name n) = Z.of_nat n * BLOCK_SIZE.
Proof.
  induction n as [|n IH]; intros Hfull; [unfold len; cbn; lia|].
  rewrite files_upto_S, len_app, IH by (intros i Hi; apply Hfull; lia).
  destruct (Hfull n ltac:(lia)) as (c & -> & Hc). cbn. lia.
Qed.

Lemma writer_dense_ok (w : MultiFileWriter) : writer_dense w → writer_ok w.
Proof.
  intros [Hfull (c & Hc & Hlen)] i Hi.
  destruct (decide (i = _f w)) as [->|Hne]; [eauto|].
  destruct (Hfull i ltac:(lia)) as (c' & Hc' & Hlen'). exists c'. split; [done|lia].
Qed.

Lemma roll_dense (w : MultiFileWriter) :
  writer_dense w →
  writer_dense (roll w) ∧ stream (roll w) = stream w ∧
  _name (roll w) = _name w ∧ f_tell (roll w) < BLOCK_SIZE.
Proof.
  intros [Hfull (c & Hc & Hlen)]. unfold roll.
  pose proof (f_tell_lookup w c Hc) as Htell.
  destruct (decide (BLOCK_SIZE - f_tell w = 0)) as [H0|H0].
  - pose proof BLOCK_SIZE_pos. rewrite f_tell_next_file.
    split; [|split; [|split; [done|lia]]].
    + split.
      * intros i Hi. cbn [next_file _f _name _dir] in *. unfold open_wb.
        rewrite lookup_insert_ne by (intros [=]; lia).
        destruct (decide (i = _f w)) as [->|Hne].
        -- exists c. split; [done|lia].
        -- apply Hfull. lia.
      * exists []. cbn [next_file _f _name _dir]. unfold open_wb.
        rewrite lookup_insert_eq. split; [done|]. unfold len. cbn. lia.
    + unfold stream. cbn [next_file _f _name _dir]. unfold open_wb.
      rewrite (files_upto_S _ _ (S (_f w))), lookup_insert_eq. cbn [default].
      rewrite app_nil_r. apply files_upto_ext. intros i Hi.
      apply lookup_insert_ne. intros [=]; lia.
  - split; [by split; eauto|]. split; [done|]. split; [done|lia].
Qed.

Lemma f_write_dense (w : MultiFileWriter) (chunk : list byte) :
  writer_dense w → f_tell w + len chunk ≤ BLOCK_SIZE →
  writer_dense (f_write w chunk) ∧ stream (f_write w chunk) = stream w ++ chunk ∧
  f_tell (f_write w chunk) = f_tell w + len chunk.
Proof.
  intros [Hfull (c & Hc & Hlen)] Hroom.
  pose proof (f_tell_lookup w c Hc) as Htell. rewrite Htell in *.
  assert (_dir (f_write w chunk) !! (_name w, _f w) = Some (c ++ chunk)) as Hnew.
  { unfold f_write, f_name. cbn [_dir]. by rewrite lookup_insert_eq, Hc. }
  split; [|split].
  - split.
    + intros i Hi. cbn [f_write _name _f _dir] in *. unfold f_name.
      rewrite lookup_insert_ne by (intros [=]; lia). by apply Hfull.
    + exists (c ++ chunk). split; [done|]. rewrite len_app. lia.
  - unfold stream. cbn [f_write _name _f]. rewrite !files_upto_S.
    change (_dir (f_write w chunk) !! (_name w, _f w))
      with (_dir (f_write w chunk) !! (_name w, _f w)).
    rewrite Hnew, Hc. cbn [default from_option]. unfold Datatypes.id.
    rewrite app_assoc. do 2 f_equal.
    apply files_upto_ext. intros i Hi. cbn [f_write _dir]. unfold f_name.
    apply lookup_insert_ne. intros [=]; lia.
  - rewrite (f_tell_lookup _ (c ++ chunk)); [by rewrite len_app|done].
Qed.

Lemma write_loop_dense (fuel : nat) (w : MultiFileWriter) (b : list byte)
    (locs0 : list loc) :
  writer_dense w → (length b ≤ fuel)%nat →
  ∃ w' locs,
    write_loop fuel w b locs0 = Some (w', locs) ∧
    writer_dense w' ∧ stream w' = stream w ++ b ∧ _name w' = _name w.
Proof.
  revert w b locs0. induction fuel as [|fuel IH]; intros w b locs0 Hd Hfuel.
  { destruct b; [|simpl in Hfuel; lia]. exists w, locs0.
    by rewrite write_loop_empty, app_nil_r. }
  destruct (decide (b = [])) as [->|Hb].
  { exists w, locs0. by rewrite write_loop_empty, app_nil_r. }
  rewrite write_loop_step by done.
  destruct (roll_dense w Hd) as (Hd1 & Hs1 & Hn1 & Ht1).
  destruct Hd1 as [Hfull1 (c & Hc & Hclen)].
  pose proof (f_tell_lookup _ c Hc) as Htell. pose proof (len_nonneg c).
  rewrite py_upto_nonneg, py_from_nonneg by lia.
  assert (len (take (Z.to_nat (BLOCK_SIZE - f_tell (roll w))) b)
          ≤ BLOCK_SIZE - f_tell (roll w)) as Hchunk.
  { unfold len. rewrite length_take. lia. }
  destruct (f_write_dense (roll w) (take (Z.to_nat (BLOCK_SIZE - f_tell (roll w))) b))
    as (Hd2 & Hs2 & _); [by split; eauto|lia|].
  destruct (IH _ (drop (Z.to_nat (BLOCK_SIZE - f_tell (roll w))) b)
              (locs0 ++ [(f_name (roll w), f_tell (roll w))]) Hd2)
    as (w' & locs & Hrun & Hd' & Hs' & Hn').
  { rewrite length_drop. destruct b; [done|]. cbn [length] in *. lia. }
  exists w', locs. split; [done|]. split; [done|].
  split; [|by rewrite Hn'].
  by rewrite Hs', Hs2, Hs1, <- app_assoc, take_drop.
Qed.

Lemma write_seq_dense (w : MultiFileWriter) (payloads : list (list byte)) :
  writer_dense w →
  ∃ w' locss,
    write_seq w payloads = Some (w', locss) ∧
    writer_dense w' ∧ stream w' = stream w ++ concat payloads.
Proof.
  revert w. induction payloads as [|b payloads IH]; intros w Hd.
  - exists w, []. by rewrite app_nil_r.
  - destruct (write_loop_dense (length b) w b [] Hd ltac:(lia))
      as (w1 & locs & Hw & Hd1 & Hs1 & _).
    destruct (IH w1 Hd1) as (w' & locss & Hseq & Hd' & Hs').
    exists w', (locs :: locss). cbn [write_seq].
    unfold MultiFileWriter_write. rewrite Hw. cbn [mbind option_bind].
    rewrite Hseq. cbn [mbind option_bind].
    split; [done|]. split; [done|]. cbn [concat].
    by rewrite Hs', Hs1, <- app_assoc.
Qed.

(** X6. The files of a writer are one stream: after any sequence of writes
    on a fresh writer, the files [name_0], [name_1], ... up to the current
    one, read one after the other, are the payloads one after the other;
    every file before the current one holds exactly [BLOCK_SIZE] bytes; and
    the position of the writer, [BLOCK_SIZE] times the number of the
    current file plus [tell()], is the number of bytes written. *)
Theorem X6_writer_stream (name : string) (fs : store)
    (payloads : list (list byte)) :
  ∃ w locss,
    write_seq (MultiFileWriter_init name fs) payloads = Some (w, locss) ∧
    files_upto (_dir w) name (S (_f w)) = concat payloads ∧
    (∀ i, (i < _f w)%nat →
       ∃ c, _dir w !! (name, i) = Some c ∧ len c = BLOCK_SIZE) ∧
    Z.of_nat (_f w) * BLOCK_SIZE + f_tell w = len (concat payloads).
Proof.
  assert (writer_dense (MultiFileWriter_init name fs)) as Hd0.
  { split; [intros i Hi; cbn in Hi; lia|].
    exists []. cbn. unfold open_wb. rewrite lookup_insert_eq.
    split; [done|]. pose proof BLOCK_SIZE_pos. unfold len. cbn. lia. }
  destruct (write_seq_dense _ payloads Hd0) as (w & locss & Hseq & Hd & Hs).
  pose proof (write_seq_frame _ _ _ _ Hseq) as (Hn & _).
  cbn in Hn. exists w, locss. split; [done|].
  assert (stream (MultiFileWriter_init name fs) = []) as Hs0.
  { unfold stream, files_upto. cbn. unfold open_wb.
    by rewrite lookup_insert_eq. }
  rewrite Hs0 in Hs. cbn [app] in Hs. unfold stream in Hs. rewrite Hn in Hs.
  split; [done|]. destruct Hd as [Hfull (c & Hc & Hclen)]. rewrite Hn in *.
  split; [done|].
  rewrite <- Hs, files_upto_S, len_app, len_files_upto_full by done.
  rewrite Hc. cbn. f_equal. apply f_tell_lookup. by rewrite Hn.
Qed.

(** ** The reader: errors and bounds *)

Lemma read_loop_missing (fs : store) (locs : list loc) (n : Z)
    (acc : list (list byte)) (l : loc) :
  l ∈ locs → fs !! l.1 = None → read_loop fs locs n acc = None.
Proof.
  revert n acc. induction locs as [|[fn off] locs IH]; intros n acc Hin Hfs.
  - by apply elem_of_nil in Hin.
  - cbn [read_loop]. destruct (fs !! fn) as [c|] eqn:Hc; [|done].
    cbn [mbind option_bind].
    destruct (decide (off < 0)); [done|]. cbn zeta.
    destruct (f_read c off (Z.min n (BLOCK_SIZE - off))) as [chunk|]; [|done].
    cbn [mbind option_bind].
    apply IH; [|done]. apply elem_of_cons in Hin as [->|Hin]; [|done].
    cbn in Hfs. congruence.
Qed.

(** X7. When one of the recorded locations names a file that is not in the
    directory, [MultiFileReader.read] raises, however many bytes are asked
    for, even none; so does [read_a_posting_list]; and [_get_posting]
    answers with the empty posting list. *)
Theorem X7_missing_segment (index : InvertedIndex) (fs : store) (w : string)
    (locs : list loc) (l : loc) :
  posting_locs index !! w = Some locs → l ∈ locs → fs !! l.1 = None →
  (∀ n_bytes, MultiFileReader_read fs locs n_bytes = None) ∧
  read_a_posting_list index fs w = None ∧
  _get_posting (Some index) fs w = [].
Proof.
  intros Hw Hl Hfs.
  assert (∀ n, MultiFileReader_read fs locs n = None) as Hread.
  { intros n. unfold MultiFileReader_read. by eapply read_loop_missing. }
  split; [done|].
  assert (read_a_posting_list index fs w = None) as Hrd.
  { unfold read_a_posting_list. by rewrite Hw, Hread. }
  split; [done|]. unfold _get_posting. rewrite Hrd.
  by destruct (decide (df index !! w = None)).
Qed.

Lemma X7_missing_segment_witness :
  read_a_posting_list dog_index ∅ "dog" = None ∧
  _get_posting (Some dog_index) ∅ "dog" = [].
Proof.
  destruct (X7_missing_segment dog_index ∅ "dog" [(("0", 0%nat), 0)]
              (("0", 0%nat), 0)) as (_ & Hr & Hg).
  - reflexivity.
  - by left.
  - reflexivity.
  - by split.
Defined.

Lemma read_loop_bound (fs : store) (locs : list loc) (n : Z)
    (acc : list (list byte)) (b : list byte) :
  Forall (λ l : loc, l.2 ≤ BLOCK_SIZE) locs →
  0 ≤ n → read_loop fs locs n acc = Some b →
  len (concat acc) ≤ len b ≤ len (concat acc) + n.
Proof.
  intros Hlocs. revert n acc.
  induction Hlocs as [|[fn off] locs Hoff _ IH]; intros n acc Hn.
  - cbn. intros [= <-]. lia.
  - cbn [read_loop]. destruct (fs !! fn) as [c|]; [|done].
    cbn [mbind option_bind]. cbn in Hoff.
    destruct (decide (off < 0)) as [|Hok]; [done|]. cbn zeta.
    rewrite f_read_nonneg by lia. cbn [mbind option_bind].
    intros Hrun. apply IH in Hrun; [|lia].
    rewrite concat_app, len_app in Hrun. cbn [concat] in Hrun.
    rewrite app_nil_r in Hrun.
    assert (len (f_read_at c off (Z.min n (BLOCK_SIZE - off)))
            ≤ Z.min n (BLOCK_SIZE - off)) as Hchunk.
    { unfold f_read_at, len. rewrite length_take. lia. }
    pose proof (len_nonneg (f_read_at c off (Z.min n (BLOCK_SIZE - off)))).
    lia.
Qed.

(** X8. [MultiFileReader.read] returns at most the [n_bytes] it is asked
    for when no location has an offset beyond [BLOCK_SIZE], whatever the
    files hold. The bound on the offsets is needed: at the offset
    [BLOCK_SIZE + 1] the size given to [f.read] is -1, and the read
    returns the file from there to its end, however few bytes are asked
    for. *)
Theorem X8_read_at_most (fs : store) (n_bytes : Z) :
  0 ≤ n_bytes →
  (∀ locs b,
     Forall (λ l : loc, l.2 ≤ BLOCK_SIZE) locs →
     MultiFileReader_read fs locs n_bytes = Some b → len b ≤ n_bytes) ∧
  (∀ name c,
     fs !! name = Some c →
     MultiFileReader_read fs [(name, BLOCK_SIZE + 1)] n_bytes
     = Some (drop (Z.to_nat (BLOCK_SIZE + 1)) c)).
Proof.
  intros Hn. split.
  - intros locs b Hlocs Hrun. apply read_loop_bound in Hrun; [|done|done].
    unfold len in *. cbn in Hrun. lia.
  - intros name c Hc. unfold MultiFileReader_read. cbn [read_loop].
    rewrite Hc. cbn [mbind option_bind].
    pose proof BLOCK_SIZE_pos. rewrite decide_False by lia. cbn zeta.
    replace (Z.min n_bytes (BLOCK_SIZE - (BLOCK_SIZE + 1))) with (-1) by lia.
    unfold f_read. rewrite decide_True by done. cbn [mbind option_bind].
    cbn [read_loop concat app]. by rewrite app_nil_r.
Qed.

Lemma X8_read_at_most_witness :
  (∃ b, MultiFileReader_read dog_dir [(("0", 0%nat), 6)] 100 = Some b ∧
        len b ≤ 100) ∧
  (∃ b, MultiFileReader_read
          {[("big", 0%nat) := replicate (Z.to_nat BLOCK_SIZE + 12) x00]}
          [(("big", 0%nat), BLOCK_SIZE + 1)] 0
        = Some b ∧ length b = 11%nat).
Proof.
  destruct (X8_read_at_most dog_dir 100 ltac:(lia)) as [Hle _].
  destruct (X8_read_at_most
              {[("big", 0%nat) := replicate (Z.to_nat BLOCK_SIZE + 12) x00]}
              0 ltac:(lia)) as [_ Hmore].
  split.
  - assert (∃ b, MultiFileReader_read dog_dir [(("0", 0%nat), 6)] 100 = Some b)
      as [b Hb] by (eexists; vm_compute; reflexivity).
    exists b. split; [exact Hb|].
    apply (Hle [(("0", 0%nat), 6)] b); [|exact Hb].
    repeat constructor. cbn. pose proof BLOCK_SIZE_records. lia.
  - eexists. split; [apply Hmore, lookup_singleton_eq|].
    rewrite length_drop, length_replicate.
    pose proof BLOCK_SIZE_records. lia.
Defined.

(** ** Reading with another count than was written *)

Lemma f_read_at_prefix (content c : list byte) (off m : Z) :
  f_read_at content off (len c) = c → 0 ≤ off → len c ≤ m →
  ∃ tail, f_read_at content off m = c ++ tail.
Proof.
  unfold f_read_at, len. rewrite Nat2Z.id. intros Hc Hoff Hm.
  exists (drop (length c) (take (Z.to_nat m) (drop (Z.to_nat off) content))).
  rewrite <- Hc at 1.
  rewrite <- (take_drop (length c)
                (take (Z.to_nat m) (drop (Z.to_nat off) content))) at 1.
  f_equal. rewrite take_take. f_equal. lia.
Qed.

(** Reading [n] bytes from the locations of a payload gives its first [n]
    bytes, or all of it followed by what the last file holds next. *)
Lemma read_loop_spans_gen fs name i off locs b i' off' (n : Z)
    (acc : list (list byte)) :
  spans fs name i off locs b i' off' → 0 ≤ n →
  ∃ r, read_loop fs locs n acc = Some (concat acc ++ r) ∧ len r ≤ n ∧
       ((n ≤ len b ∧ r = take (Z.to_nat n) b) ∨
        (len b ≤ n ∧ ∃ tail, r = b ++ tail)).
Proof.
  intros Hsp. revert n acc.
  induction Hsp as [i off c content Hc Hf Hoff Hcap Hin Hrd
                   |i off c content locs rest i' off' Hc Hf Hoff Hcap Hin Hrd Hrest Hsp IH];
    intros n acc Hn; cbn [read_loop]; rewrite Hf; cbn [mbind option_bind];
    pose proof (len_nonneg c) as Hc0;
    rewrite decide_False by lia; cbn zeta;
    rewrite f_read_nonneg by lia; cbn [mbind option_bind].
  - cbn [read_loop].
    exists (f_read_at content off (Z.min n (BLOCK_SIZE - off))).
    split; [by rewrite concat_app, (concat_cons _ []), app_nil_r|].
    split; [unfold f_read_at, len; rewrite length_take; lia|].
    destruct (Z_le_gt_dec n (len c)) as [Hle|Hgt].
    + left. split; [done|]. rewrite Z.min_l by lia.
      replace off with (off + 0) at 1 by lia.
      rewrite (f_read_at_sub content c off (len c)) by (done || lia).
      by rewrite drop_0.
    + right. split; [lia|]. apply f_read_at_prefix; [done|lia|lia].
  - pose proof (len_pos rest Hrest) as Hr0. rewrite len_app.
    destruct (Z_le_gt_dec n (len c)) as [Hle|Hgt].
    + rewrite Z.min_l by lia.
      destruct (IH (n - n) (acc ++ [f_read_at content off n]) ltac:(lia))
        as (r & Hrun & Hrlen & _).
      assert (r = []) as ->.
      { destruct r; [done|]. unfold len in Hrlen. cbn in Hrlen. lia. }
      rewrite Hrun. exists (f_read_at content off n).
      split; [by rewrite concat_app, (concat_cons _ []), !app_nil_r|].
      split; [unfold f_read_at, len; rewrite length_take; lia|].
      left. split; [lia|].
      replace off with (off + 0) at 1 by lia.
      rewrite (f_read_at_sub content c off (len c)) by (done || lia).
      rewrite drop_0, take_app_le; [done|]. unfold len in Hle. lia.
    + rewrite Z.min_r by lia. replace (BLOCK_SIZE - off) with (len c) by lia.
      rewrite Hrd.
      destruct (IH (n - len c) (acc ++ [c]) ltac:(lia))
        as (r & Hrun & Hrlen & Hcase).
      rewrite Hrun. exists (c ++ r).
      split; [by rewrite concat_app, (concat_cons _ []), app_nil_r, <- app_assoc|].
      split; [rewrite len_app; lia|].
      destruct Hcase as [[Hle ->]|[Hge [tail ->]]].
      * left. split; [lia|]. rewrite take_app_ge by (unfold len in *; lia).
        do 2 f_equal. unfold len. lia.
      * right. split; [lia|]. exists tail. by rewrite app_assoc.
Qed.

Lemma take_concat_records (pl : list posting) (n : nat) :
  take (6 * n) (concat (record_bytes <$> pl))
  = concat (record_bytes <$> take n pl).
Proof.
  revert n. induction pl as [|p pl IH]; intros n.
  - cbn. by rewrite !take_nil.
  - destruct n as [|n]; [by rewrite Nat.mul_0_r|].
    cbn [take fmap list_fmap concat].
    rewrite take_app_ge by (rewrite length_record_bytes; lia).
    rewrite length_record_bytes. f_equal.
    replace (6 * S n - 6)%nat with (6 * n)%nat by lia. apply IH.
Qed.

Lemma take_decode_pl (buf : list byte) (n : Z) (k : nat) :
  (k ≤ Z.to_nat n)%nat → take k (decode_pl buf n) = decode_pl buf (Z.of_nat k).
Proof.
  intros Hk. unfold decode_pl, py_range. rewrite <- !fmap_take, take_seq.
  rewrite Nat2Z.id. by replace (k `min` Z.to_nat n)%nat with k by lia.
Qed.

(** Where [write_a_posting_list] puts the posting list of each term. *)
Lemma write_a_posting_list_placed (bucket_id : string)
    (list_w_pl : list (string * list posting)) (fs : store) :
  Forall (λ w_pl, Forall (λ p : posting, 0 ≤ p.1 < 2 ^ 32) w_pl.2) list_w_pl →
  ∃ fs' locs_map,
    write_a_posting_list (bucket_id, list_w_pl) fs = Some (fs', locs_map) ∧
    (NoDup list_w_pl.*1 →
     ∀ w pl, (w, pl) ∈ list_w_pl →
       ∃ locs, locs_map !! w = Some locs ∧
         ((pl = [] ∧ locs = []) ∨
          ∃ i off i' off',
            spans fs' bucket_id i off locs (concat (record_bytes <$> pl))
              i' off')).
Proof.
  intros Hrange. unfold write_a_posting_list. rewrite write_all_seq.
  rewrite mapM_encode_pl by (by apply Forall_fmap).
  cbn [mbind option_bind].
  destruct (MultiFileWriter_init_ok bucket_id fs) as [Hok0 _].
  destruct (write_seq_spec _ ((λ pl, concat (record_bytes <$> pl)) <$> list_w_pl.*2) Hok0)
    as (w' & locss & Hseq & Hok' & Hext' & Hlo).
  rewrite Hseq. cbn. eexists _, _. split; [done|].
  intros Hnd w pl Hin.
  apply list_elem_of_lookup in Hin as [j Hj].
  assert (list_w_pl.*1 !! j = Some w) as Hkj by (by rewrite list_lookup_fmap, Hj).
  assert (((λ pl, concat (record_bytes <$> pl)) <$> list_w_pl.*2) !! j
          = Some (concat (record_bytes <$> pl))) as Hbj
    by (by rewrite !list_lookup_fmap, Hj).
  pose proof (laid_out_length _ _ _ _ _ _ _ _ Hlo) as Hlen.
  destruct (locss !! j) as [locs|] eqn:Hlj; cycle 1.
  { apply lookup_ge_None in Hlj. apply lookup_lt_Some in Hbj. lia. }
  exists locs.
  split; [exact (record_all_lookup ∅ _ _ j w locs Hnd (λ k _, lookup_empty k) Hkj Hlj)|].
  destruct (laid_out_lookup _ _ _ _ _ _ _ _ j locs _ Hlo Hlj Hbj)
    as [[Hb ->]|Hsp]; [|by right].
  left. split; [|done].
  apply (f_equal length) in Hb. rewrite length_concat_records in Hb.
  destruct pl; [done|]. simpl in Hb. lia.
Qed.

(** Reading back with [df[w] = n], whatever [n >= 0] is. *)
Lemma read_back_gen (idx : InvertedIndex) (fs' : store) (name w : string)
    (pl : list posting) (locs : list loc) (n : Z) :
  posting_locs idx !! w = Some locs →
  ((pl = [] ∧ locs = []) ∨
   ∃ i off i' off',
     spans fs' name i off locs (concat (record_bytes <$> pl)) i' off') →
  Forall (λ p : posting, 0 ≤ p.1 < 2 ^ 32 ∧ 0 ≤ p.2 < 2 ^ 16) pl →
  count_of (df idx) w = n → 0 ≤ n →
  ∃ l, read_a_posting_list idx fs' w = Some l ∧
       length l = Z.to_nat n ∧
       take (length pl) l = take (Z.to_nat n) pl.
Proof.
  intros Hw Hplaced Hpl Hdf Hn. unfold read_a_posting_list. rewrite Hw, Hdf.
  destruct Hplaced as [[-> ->]|(i & off & i' & off' & Hsp)].
  - eexists. split; [reflexivity|]. split; [|by rewrite take_nil].
    unfold decode_pl, py_range. by rewrite !length_fmap, length_seq.
  - destruct (read_loop_spans_gen _ _ _ _ _ _ _ _ (n * TUPLE_SIZE) [] Hsp)
      as (r & Hrun & Hrlen & Hcase); [unfold TUPLE_SIZE; lia|].
    unfold MultiFileReader_read. rewrite Hrun. cbn.
    eexists. split; [reflexivity|].
    split; [unfold decode_pl, py_range; by rewrite !length_fmap, length_seq|].
    unfold len, TUPLE_SIZE in *. rewrite length_concat_records in Hcase.
    destruct Hcase as [[Hle ->]|[Hge [tail ->]]].
    + replace (Z.to_nat (n * 6)) with (6 * Z.to_nat n)%nat by lia.
      rewrite take_concat_records.
      assert (Forall (λ p : posting, 0 ≤ p.1 < 2 ^ 32 ∧ 0 ≤ p.2 < 2 ^ 16)
                (take (Z.to_nat n) pl)) as Hpl' by (by apply Forall_take).
      pose proof (decode_pl_in_range (take (Z.to_nat n) pl) [] Hpl') as Hdec.
      rewrite app_nil_r in Hdec. unfold len in Hdec.
      rewrite length_take in Hdec.
      replace (Z.of_nat (Z.to_nat n `min` length pl)) with n in Hdec by lia.
      rewrite Hdec. rewrite take_take. f_equal. lia.
    + rewrite take_decode_pl by lia.
      pose proof (decode_pl_in_range pl tail Hpl) as Hdec. unfold len in Hdec.
      rewrite Hdec. rewrite take_ge; [done|lia].
Qed.

(** X9. [read_a_posting_list] trusts [df[w]] for the number of records:
    after [write_a_posting_list], an index with [df[w] = n] reads back [n]
    postings, whatever [n >= 0] is: the first [n] of the postings written
    for [w] when [n] is at most their number, and otherwise a list that
    starts with all of them. *)
Theorem X9_read_back_any_df (bucket_id : string)
    (list_w_pl : list (string * list posting)) (fs : store) :
  NoDup list_w_pl.*1 →
  Forall (λ w_pl, Forall (λ p : posting, 0 ≤ p.1 < 2 ^ 32 ∧ 0 ≤ p.2 < 2 ^ 16)
                    w_pl.2) list_w_pl →
  ∃ fs' locs_map,
    write_a_posting_list (bucket_id, list_w_pl) fs = Some (fs', locs_map) ∧
    ∀ idx w pl n,
      (w, pl) ∈ list_w_pl → posting_locs idx = locs_map →
      count_of (df idx) w = n → 0 ≤ n →
      ∃ l, read_a_posting_list idx fs' w = Some l ∧
           length l = Z.to_nat n ∧
           take (length pl) l = take (Z.to_nat n) pl.
Proof.
  intros Hnd Hrange.
  destruct (write_a_posting_list_placed bucket_id list_w_pl fs)
    as (fs' & locs_map & Hw & Hplaced).
  { eapply Forall_impl; [exact Hrange|]. intros [k pl] Hpl. cbn in *.
    eapply Forall_impl; [exact Hpl|]. by intros p [? ?]. }
  exists fs', locs_map. split; [done|]. intros idx w pl n Hin Hlocs Hdf Hn.
  destruct (Hplaced Hnd w pl Hin) as (locs & Hl & Hcase).
  eapply read_back_gen; try done; [by rewrite Hlocs|].
  rewrite Forall_forall in Hrange. apply (Hrange (w, pl) Hin).
Qed.

Lemma X9_read_back_any_df_witness :
  ∃ fs' locs_map l,
    write_a_posting_list
      ("b1", [("cat", [(5, 3); (6, 1)]); ("dog", [(1, 1)])]) ∅
    = Some (fs', locs_map) ∧
    read_a_posting_list
      {| df := {["cat" := 3]}; term_total := ∅;
         _posting_list := ∅; posting_locs := locs_map |} fs' "cat"
    = Some l ∧
    length l = 3%nat ∧ take 2 l = [(5, 3); (6, 1)].
Proof.
  destruct (X9_read_back_any_df "b1"
              [("cat", [(5, 3); (6, 1)]); ("dog", [(1, 1)])] ∅)
    as (fs' & locs_map & Hw & Hr).
  - cbn. by apply (bool_decide_unpack _).
  - repeat constructor; cbn; lia.
  - destruct (Hr {| df := {["cat" := 3]}; term_total := ∅;
                    _posting_list := ∅; posting_locs := locs_map |}
                "cat" [(5, 3); (6, 1)] 3) as (l & Hl & Hlen & Htake);
      [by left|reflexivity|reflexivity|lia|].
    exists fs', locs_map, l. split; [exact Hw|]. split; [exact Hl|].
    split; [exact Hlen|exact Htake].
Defined.

(** ** The index under construction *)

Lemma add_doc_fold_pl (w2cnt : list (string * Z)) (idx : InvertedIndex)
    (doc_id : Z) (t : string) :
  NoDup w2cnt.*1 →
  _posting_list
    (fold_left (λ idx '(w, cnt),
      {| df := <[w := count_of (df idx) w + 1]> (df idx);
         term_total := term_total idx;
         _posting_list :=
           <[w := default [] (_posting_list idx !! w) ++ [(doc_id, cnt)]]>
             (_posting_list idx);
         posting_locs := posting_locs idx |}) w2cnt idx) !! t =
  match od_get w2cnt t with
  | Some cnt => Some (default [] (_posting_list idx !! t) ++ [(doc_id, cnt)])
  | None => _posting_list idx !! t
  end.
Proof.
  revert idx. induction w2cnt as [|[w cnt] l IH]; intros idx Hnd;
    cbn [fold_left od_get]; [done|].
  cbn in Hnd. apply NoDup_cons in Hnd as [Hw Hnd]. rewrite IH by done.
  cbn [_posting_list]. destruct (decide (w = t)) as [->|Hne].
  - apply od_get_None in Hw. by rewrite Hw, lookup_insert_eq.
  - by rewrite lookup_insert_ne.
Qed.

Lemma add_doc_pl (idx : InvertedIndex) (doc_id : Z) (tokens : list string)
    (t : string) :
  _posting_list (add_doc idx doc_id tokens) !! t =
  if decide (t ∈ tokens)
  then Some (default [] (_posting_list idx !! t)
             ++ [(doc_id, occurrences t tokens)])
  else _posting_list idx !! t.
Proof.
  destruct (Counter_spec tokens t) as [Hnd Hget]. unfold add_doc.
  rewrite add_doc_fold_pl by done. rewrite Hget. cbn [_posting_list].
  by destruct (decide (t ∈ tokens)).
Qed.

Lemma postings_of_cons (t : string) (d : Z * list string)
    (docs : list (Z * list string)) :
  postings_of t (d :: docs) =
  if decide (t ∈ d.2)
  then (d.1, occurrences t d.2) :: postings_of t docs
  else postings_of t docs.
Proof.
  unfold postings_of. cbn [omap list_omap]. by destruct (decide (t ∈ d.2)).
Qed.

Lemma add_docs_pl (docs : list (Z * list string)) (idx : InvertedIndex)
    (t : string) :
  _posting_list
    (fold_left (λ idx '(doc_id, tokens), add_doc idx doc_id tokens) docs idx)
    !! t =
  if decide (postings_of t docs = [])
  then _posting_list idx !! t
  else Some (default [] (_posting_list idx !! t) ++ postings_of t docs).
Proof.
  revert idx. induction docs as [|[doc_id tokens] docs IH]; intros idx;
    cbn [fold_left]; [done|].
  rewrite IH, add_doc_pl.
  rewrite postings_of_cons. cbn [fst snd].
  destruct (decide (t ∈ tokens)) as [Hin|Hnin]; [|done].
  cbn [default from_option]. unfold Datatypes.id.
  rewrite (decide_False (P := _ :: _ = [])) by done.
  destruct (decide (postings_of t docs = [])) as [->|Hne]; [done|].
  by rewrite <- app_assoc.
Qed.

Lemma postings_of_nil (t : string) (docs : list (Z * list string)) :
  postings_of t docs = [] ↔ Forall (λ d, t ∉ d.2) docs.
Proof.
  induction docs as [|d docs IH]; [done|].
  rewrite postings_of_cons, Forall_cons.
  destruct (decide (t ∈ d.2)); [split; [done|tauto]|].
  rewrite IH. tauto.
Qed.

Lemma posting_list_built (docs : list (Z * list string)) (t : string) :
  default [] (_posting_list (InvertedIndex_init docs) !! t)
    = postings_of t docs ∧
  (_posting_list (InvertedIndex_init docs) !! t = None
     ↔ Forall (λ d, t ∉ d.2) docs).
Proof.
  unfold InvertedIndex_init. rewrite add_docs_pl.
  cbn [empty_index _posting_list]. rewrite lookup_empty.
  rewrite <- postings_of_nil.
  destruct (decide (postings_of t docs = [])) as [->|Hne]; [done|].
  split; [done|]. split; [done|]. intros; done.
Qed.

(** X10. After [InvertedIndex(docs)], the posting list of a term holds one
    pair for each document whose tokens contain the term, in the order of
    the documents, with the number of occurrences of the term in that
    document; a term that no document contains has no entry. *)
Theorem X10_posting_list_built (docs : list (Z * list string)) (t : string) :
  default [] (_posting_list (InvertedIndex_init docs) !! t)
    = postings_of t docs ∧
  (_posting_list (InvertedIndex_init docs) !! t = None
     ↔ Forall (λ d, t ∉ d.2) docs).
Proof. exact (posting_list_built docs t). Qed.

Lemma length_postings_of (t : string) (docs : list (Z * list string)) :
  length (postings_of t docs) = length (filter (λ d, t ∈ d.2) docs).
Proof.
  induction docs as [|d docs IH]; [done|].
  rewrite postings_of_cons, filter_cons.
  destruct (decide (t ∈ d.2)); cbn [length]; by rewrite IH.
Qed.

Lemma sum_postings_of (t : string) (docs : list (Z * list string)) :
  sum_Z (postings_of t docs).*2 = sum_Z ((λ d, occurrences t d.2) <$> docs).
Proof.
  induction docs as [|d docs IH]; [done|].
  rewrite postings_of_cons, fmap_cons.
  change (sum_Z (occurrences t d.2 :: ((λ d, occurrences t d.2) <$> docs)))
    with (occurrences t d.2 + sum_Z ((λ d, occurrences t d.2) <$> docs)).
  rewrite <- IH.
  destruct (decide (t ∈ d.2)) as [Hin|Hnin]; [done|].
  pose proof (occurrences_pos t d.2) as Hpos.
  assert (0 ≤ occurrences t d.2) by (unfold occurrences; lia).
  destruct (decide (0 < occurrences t d.2)); [tauto|lia].
Qed.

Lemma built_df_len (docs : list (Z * list string)) (t : string) :
  count_of (df (InvertedIndex_init docs)) t = len (postings_of t docs).
Proof.
  unfold InvertedIndex_init.
  destruct (add_docs_spec docs empty_index t) as [Hdf _]. cbn zeta in *.
  rewrite Hdf. unfold count_of, len. cbn [empty_index df].
  rewrite lookup_empty, length_postings_of. cbn [default from_option]. lia.
Qed.

(** X11. The statistics of a built index agree with its posting lists: for
    every term, [df] is the length of the posting list, [term_total] is the
    sum of the frequencies in it, and every frequency in it is at least 1. *)
Theorem X11_stats_agree (docs : list (Z * list string)) (t : string) :
  count_of (df (InvertedIndex_init docs)) t
    = len (default [] (_posting_list (InvertedIndex_init docs) !! t)) ∧
  count_of (term_total (InvertedIndex_init docs)) t
    = sum_Z (default [] (_posting_list (InvertedIndex_init docs) !! t)).*2 ∧
  Forall (λ p : posting, 1 ≤ p.2)
    (default [] (_posting_list (InvertedIndex_init docs) !! t)).
Proof.
  destruct (posting_list_built docs t) as [-> _].
  split; [apply built_df_len|]. split.
  - unfold InvertedIndex_init.
    destruct (add_docs_spec docs empty_index t) as [_ Htt]. cbn zeta in *.
    rewrite Htt. unfold count_of. cbn [empty_index term_total].
    rewrite lookup_empty, sum_postings_of. cbn [default from_option]. lia.
  - unfold postings_of. apply Forall_forall. intros p Hp.
    apply list_elem_of_omap in Hp as (d & _ & Hd).
    destruct (decide (t ∈ d.2)) as [Hin|]; [|done].
    injection Hd as <-. cbn. apply occurrences_pos in Hin. lia.
Qed.

(** ** From the documents to the files and back *)

Lemma occurrences_le (t : string) (tokens : list string) :
  0 ≤ occurrences t tokens ≤ len tokens.
Proof.
  unfold occurrences, len. pose proof (length_filter (λ x, x = t) tokens). lia.
Qed.

Lemma postings_of_range (t : string) (docs : list (Z * list string)) :
  Forall (λ d, 0 ≤ d.1 < 2 ^ 32 ∧ len d.2 < 2 ^ 16) docs →
  Forall (λ p : posting, 0 ≤ p.1 < 2 ^ 32 ∧ 0 ≤ p.2 < 2 ^ 16)
    (postings_of t docs).
Proof.
  intros Hdocs. unfold postings_of. apply Forall_forall. intros p Hp.
  apply list_elem_of_omap in Hp as (d & Hd & Hp).
  rewrite Forall_forall in Hdocs. destruct (Hdocs d Hd) as [Hid Hlen].
  destruct (decide (t ∈ d.2)); [|done]. injection Hp as <-. cbn.
  pose proof (occurrences_le t d.2). lia.
Qed.

(** X12. Build an index from documents whose ids fit 32 bits and that have
    fewer than 65536 tokens each, write any selection of its posting lists
    (each term once) with [write_a_posting_list], and give the index the
    locations written: [read_a_posting_list] then returns, for each term
    written, one posting per document containing it, in document order, with
    its number of occurrences. *)
Theorem X12_build_write_read (docs : list (Z * list string))
    (bucket_id : string) (list_w_pl : list (string * list posting))
    (fs : store) :
  NoDup list_w_pl.*1 →
  (∀ w pl, (w, pl) ∈ list_w_pl →
     _posting_list (InvertedIndex_init docs) !! w = Some pl) →
  Forall (λ d, 0 ≤ d.1 < 2 ^ 32 ∧ len d.2 < 2 ^ 16) docs →
  ∃ fs' locs_map,
    write_a_posting_list (bucket_id, list_w_pl) fs = Some (fs', locs_map) ∧
    ∀ w pl, (w, pl) ∈ list_w_pl →
      read_a_posting_list
        {| df := df (InvertedIndex_init docs);
           term_total := term_total (InvertedIndex_init docs);
           _posting_list := _posting_list (InvertedIndex_init docs);
           posting_locs := locs_map |} fs' w
      = Some (postings_of w docs).
Proof.
  intros Hnd Hsel Hdocs.
  assert (∀ w pl, (w, pl) ∈ list_w_pl → pl = postings_of w docs) as Hpl.
  { intros w pl Hin. destruct (posting_list_built docs w) as [<- _].
    by rewrite (Hsel w pl Hin). }
  destruct (write_a_posting_list_placed bucket_id list_w_pl fs)
    as (fs' & locs_map & Hw & Hplaced).
  { apply Forall_forall. intros [w pl] Hin. cbn. rewrite (Hpl w pl Hin).
    eapply Forall_impl; [exact (postings_of_range w docs Hdocs)|].
    by intros p [? ?]. }
  exists fs', locs_map. split; [done|]. intros w pl Hin.
  destruct (Hplaced Hnd w pl Hin) as (locs & Hl & Hcase).
  pose proof (Hpl w pl Hin) as ->.
  destruct (read_back_gen
              {| df := df (InvertedIndex_init docs);
                 term_total := term_total (InvertedIndex_init docs);
                 _posting_list := _posting_list (InvertedIndex_init docs);
                 posting_locs := locs_map |}
              fs' bucket_id w (postings_of w docs) locs
              (len (postings_of w docs)) Hl Hcase)
    as (l & Hread & Hlen & Htake).
  - by apply postings_of_range.
  - apply built_df_len.
  - apply len_nonneg.
  - rewrite Hread. f_equal. unfold len in *. rewrite Nat2Z.id in *.
    rewrite (take_ge (postings_of w docs)) in Htake by lia.
    rewrite take_ge in Htake by lia. done.
Qed.

Lemma X12_build_write_read_witness :
  ∃ fs' locs_map,
    write_a_posting_list
      ("b1", [("cat", [(1, 2)]); ("dog", [(1, 1); (2, 1)])]) ∅
    = Some (fs', locs_map) ∧
    read_a_posting_list
      {| df := df (InvertedIndex_init [(1, ["cat"; "dog"; "cat"]); (2, ["dog"])]);
         term_total :=
           term_total (InvertedIndex_init [(1, ["cat"; "dog"; "cat"]); (2, ["dog"])]);
         _posting_list :=
           _posting_list (InvertedIndex_init [(1, ["cat"; "dog"; "cat"]); (2, ["dog"])]);
         posting_locs := locs_map |} fs' "dog"
    = Some [(1, 1); (2, 1)].
Proof.
  destruct (X12_build_write_read
              [(1, ["cat"; "dog"; "cat"]); (2, ["dog"])] "b1"
              [("cat", [(1, 2)]); ("dog", [(1, 1); (2, 1)])] ∅)
    as (fs' & locs_map & Hw & Hr).
  - cbn. by apply (bool_decide_unpack _).
  - intros w pl Hin. repeat (apply elem_of_cons in Hin as [Hin|Hin]);
      [| |by apply elem_of_nil in Hin]; injection Hin as -> ->; reflexivity.
  - repeat constructor; cbn; lia.
  - exists fs', locs_map. split; [exact Hw|].
    exact (Hr "dog" [(1, 1); (2, 1)] ltac:(right; left)).
Defined.

(** ** Loading any number of shard location files *)

Lemma load_blobs_all (index : InvertedIndex)
    (shards : list (string * gmap string (list loc))) :
  Forall (λ ns, str_in "_posting_locs.pickle" ns.1 = true) shards →
  load_blobs index
    ((λ ns : string * gmap string (list loc), (ns.1, Some ns.2)) <$> shards)
  = fold_left merge_locs shards.*2 index.
Proof.
  intros Hn. revert index.
  induction Hn as [|[n s] shards Hn _ IH]; intros index; [done|].
  cbn [fmap list_fmap fst snd load_blobs fold_left] in *.
  cbn in Hn. rewrite Hn. apply IH.
Qed.

Lemma merge_all_count (shards : list (gmap string (list loc)))
    (index : InvertedIndex) (t : string) :
  count_of (df (fold_left merge_locs shards index)) t
  = count_of (df index) t
    + Z.of_nat (length (filter (λ s, t ∈ dom s) shards)).
Proof.
  revert index. induction shards as [|s shards IH]; intros index;
    cbn [fold_left]; [cbn; lia|].
  rewrite IH, merge_locs_count, filter_cons.
  destruct (decide (t ∈ dom s)); cbn [length]; lia.
Qed.

Lemma merge_all_untouched (shards : list (gmap string (list loc)))
    (index : InvertedIndex) (t : string) :
  Forall (λ s, s !! t = None) shards →
  posting_locs (fold_left merge_locs shards index) !! t
  = posting_locs index !! t.
Proof.
  intros Hno. revert index.
  induction Hno as [|s shards Hs _ IH]; intros index; cbn [fold_left]; [done|].
  rewrite IH. cbn [merge_locs posting_locs].
  by rewrite lookup_union_r.
Qed.

Lemma merge_all_rest (shards : list (gmap string (list loc)))
    (index : InvertedIndex) :
  term_total (fold_left merge_locs shards index) = term_total index ∧
  _posting_list (fold_left merge_locs shards index) = _posting_list index.
Proof.
  revert index. induction shards as [|s shards IH]; intros index;
    cbn [fold_left]; [done|].
  destruct (IH (merge_locs index s)) as [-> ->]. done.
Qed.

(** X13. [_load_extra_locs] on any number of shard location files, all
    readable and named as such, in the order they are listed: [df] of a term
    grows by the number of files that mention it; the locations of a term
    are those of the last file that mentions it, alone, and those the index
    had when no file does; [term_total] is left as it was. *)
Theorem X13_load_many (index : InvertedIndex)
    (shards : list (string * gmap string (list loc))) (t : string) :
  Forall (λ ns, str_in "_posting_locs.pickle" ns.1 = true) shards →
  ∃ merged,
    _load_extra_locs (Some index)
      ((λ ns : string * gmap string (list loc), (ns.1, Some ns.2)) <$> shards)
    = Some merged ∧
    count_of (df merged) t
      = count_of (df index) t
        + Z.of_nat (length (filter (λ ns, t ∈ dom ns.2) shards)) ∧
    (∀ pre s post locs,
       shards = pre ++ s :: post → s.2 !! t = Some locs →
       Forall (λ s', s'.2 !! t = None) post →
       posting_locs merged !! t = Some locs) ∧
    (Forall (λ s, s.2 !! t = None) shards →
     posting_locs merged !! t = posting_locs index !! t) ∧
    term_total merged = term_total index.
Proof.
  intros Hn. eexists. split; [reflexivity|].
  rewrite load_blobs_all by done. split; [|split; [|split]].
  - rewrite merge_all_count. do 2 f_equal.
    induction shards as [|s shards IH]; [done|].
    apply Forall_cons in Hn as [_ Hn]. cbn [fmap list_fmap].
    rewrite !filter_cons.
    destruct (decide (t ∈ dom s.2)); cbn [length]; by rewrite IH.
  - intros pre s post locs -> Hs Hpost.
    rewrite fmap_app, fmap_cons, fold_left_app. cbn [fold_left].
    rewrite merge_all_untouched by (by apply Forall_fmap).
    cbn [merge_locs posting_locs]. by apply lookup_union_Some_l.
  - intros Hno. apply merge_all_untouched. by apply Forall_fmap.
  - apply merge_all_rest.
Qed.

Lemma X13_load_many_witness :
  ∃ merged,
    _load_extra_locs (Some empty_index)
      [("a_posting_locs.pickle", Some {["cat" := [(("a", 0%nat), 0)]]});
       ("b_posting_locs.pickle", Some {["cat" := [(("b", 0%nat), 6)]]})]
    = Some merged ∧
    count_of (df merged) "cat" = 2 ∧
    posting_locs merged !! "cat" = Some [(("b", 0%nat), 6)].
Proof.
  destruct (X13_load_many empty_index
              [("a_posting_locs.pickle", {["cat" := [(("a", 0%nat), 0)]]});
               ("b_posting_locs.pickle", {["cat" := [(("b", 0%nat), 6)]]})]
              "cat")
    as (merged & Hm & Hdf & Hlast & _).
  - repeat constructor.
  - exists merged. split; [exact Hm|]. split.
    + rewrite Hdf. reflexivity.
    + apply (Hlast [("a_posting_locs.pickle", {["cat" := [(("a", 0%nat), 0)]]})]
               ("b_posting_locs.pickle", {["cat" := [(("b", 0%nat), 6)]]}) []);
        [reflexivity|reflexivity|constructor].
Defined.

Lemma load_blobs_filter (index : InvertedIndex)
    (blobs : list (string * option (gmap string (list loc)))) :
  load_blobs index blobs
  = load_blobs index
      (filter (λ b, str_in "_posting_locs.pickle" b.1 = true) blobs).
Proof.
  revert index. induction blobs as [|[n c] blobs IH]; intros index; [done|].
  rewrite filter_cons. cbn [fst load_blobs].
  destruct (str_in "_posting_locs.pickle" n) eqn:Hn.
  - rewrite decide_True by done. cbn [load_blobs]. rewrite Hn.
    destruct c; [apply IH|done].
  - rewrite decide_False by done. apply IH.
Qed.

Lemma load_blobs_stop (index : InvertedIndex) (name : string)
    (pre post : list (string * option (gmap string (list loc)))) :
  str_in "_posting_locs.pickle" name = true →
  load_blobs index (pre ++ (name, None) :: post) = load_blobs index pre.
Proof.
  intros Hn. revert index.
  induction pre as [|[n c] pre IH]; intros index; cbn [app load_blobs].
  - by rewrite Hn.
  - destruct (str_in "_posting_locs.pickle" n); [|apply IH].
    destruct c; [apply IH|done].
Qed.

(** X14. [_load_extra_locs] skips every listed blob whose name does not
    contain ['_posting_locs.pickle'], whatever it holds; and a shard
    location file that cannot be unpickled ends the loading there: the
    index keeps what the files before it gave, and the files after it are
    not read. *)
Theorem X14_load_skips_and_stops (index : InvertedIndex) :
  (∀ blobs,
     _load_extra_locs (Some index) blobs
     = _load_extra_locs (Some index)
         (filter (λ b, str_in "_posting_locs.pickle" b.1 = true) blobs)) ∧
  (∀ name pre post,
     str_in "_posting_locs.pickle" name = true →
     _load_extra_locs (Some index) (pre ++ (name, None) :: post)
     = _load_extra_locs (Some index) pre).
Proof.
  split.
  - intros blobs. cbn [_load_extra_locs]. f_equal. apply load_blobs_filter.
  - intros name pre post Hn. cbn [_load_extra_locs]. f_equal.
    by apply load_blobs_stop.
Qed.

Lemma X14_load_skips_and_stops_witness :
  _load_extra_locs (Some empty_index)
    ([("a_posting_locs.pickle", Some {["cat" := [(("a", 0%nat), 0)]]})]
     ++ ("b_posting_locs.pickle", None)
     :: [("c_posting_locs.pickle", Some {["dog" := [(("c", 0%nat), 0)]]})])
  = _load_extra_locs (Some empty_index)
      [("a_posting_locs.pickle", Some {["cat" := [(("a", 0%nat), 0)]]})].
Proof.
  apply (proj2 (X14_load_skips_and_stops empty_index)). reflexivity.
Defined.

(** ** The iterator and the single read agree *)

Lemma posting_lists_iter_items (idx : InvertedIndex) (fs : store)
    (items : list (string * list loc)) :
  (∀ w locs, (w, locs) ∈ items → posting_locs idx !! w = Some locs) →
  (∀ w pl, (w, pl) ∈ (posting_lists_iter idx fs items).1 →
     read_a_posting_list idx fs w = Some pl) ∧
  (posting_lists_iter idx fs items).1.*1
    = take (length (posting_lists_iter idx fs items).1) items.*1 ∧
  ((posting_lists_iter idx fs items).2 = true →
     (posting_lists_iter idx fs items).1.*1 = items.*1) ∧
  ((posting_lists_iter idx fs items).2 = true ↔
     ∀ w, w ∈ items.*1 → is_Some (read_a_posting_list idx fs w)) ∧
  ((posting_lists_iter idx fs items).2 = false →
     ∃ w, items.*1 !! length (posting_lists_iter idx fs items).1 = Some w ∧
          read_a_posting_list idx fs w = None).
Proof.
  induction items as [|[w locs] items IH]; intros Hitems.
  - cbn. split; [by intros ?? ?%elem_of_nil|]. split; [done|].
    split; [done|]. split; [by split; [intros _ ? ?%elem_of_nil|]|done].
  - destruct IH as (IHa & IHp & IHe & IHo & IHf).
    { intros w' locs' Hin. apply Hitems. by right. }
    pose proof (Hitems w locs ltac:(by left)) as Hw.
    assert (read_a_posting_list idx fs w =
            b ← MultiFileReader_read fs locs (count_of (df idx) w * TUPLE_SIZE);
            Some (decode_pl b (count_of (df idx) w))) as Hread.
    { unfold read_a_posting_list. by rewrite Hw. }
    cbn [posting_lists_iter].
    destruct (MultiFileReader_read fs locs (count_of (df idx) w * TUPLE_SIZE))
      as [b|]; cbn [fst snd fmap list_fmap length take lookup list_lookup] in *.
    + split; [|split; [|split; [|split]]].
      * intros w' pl' [Heq|Hin]%elem_of_cons; [|by apply IHa].
        injection Heq as -> ->. done.
      * by f_equal.
      * intros Hok. f_equal. by apply IHe.
      * rewrite IHo. split.
        -- intros Hall w' [->|Hin]%elem_of_cons; [by rewrite Hread|by apply Hall].
        -- intros Hall w' Hin. apply Hall. by right.
      * done.
    + split; [by intros ?? ?%elem_of_nil|]. split; [done|].
      split; [done|]. split.
      * split; [done|].
        intros Hall. destruct (Hall w ltac:(by left)) as [pl Hpl].
        rewrite Hread in Hpl. done.
      * intros _. exists w. by rewrite Hread.
Qed.

Lemma posting_lists_iter_spec (idx : InvertedIndex) (fs : store)
    (items : list (string * list loc)) :
  items_of (posting_locs idx) items →
  (∀ w pl, (w, pl) ∈ (posting_lists_iter idx fs items).1 →
     posting_locs idx !! w ≠ None ∧ read_a_posting_list idx fs w = Some pl) ∧
  NoDup (posting_lists_iter idx fs items).1.*1 ∧
  ((posting_lists_iter idx fs items).2 = true ↔
     ∀ w, posting_locs idx !! w ≠ None →
          is_Some (read_a_posting_list idx fs w)) ∧
  ((posting_lists_iter idx fs items).2 = true →
     ∀ w, posting_locs idx !! w ≠ None →
          ∃ pl, (w, pl) ∈ (posting_lists_iter idx fs items).1) ∧
  (posting_lists_iter idx fs items).1.*1
    = take (length (posting_lists_iter idx fs items).1) items.*1 ∧
  ((posting_lists_iter idx fs items).2 = true →
     (posting_lists_iter idx fs items).1.*1 = items.*1) ∧
  ((posting_lists_iter idx fs items).2 = false →
     ∃ w, items.*1 !! length (posting_lists_iter idx fs items).1 = Some w ∧
          read_a_posting_list idx fs w = None).
Proof.
  unfold items_of. intros Hitems.
  destruct (posting_lists_iter_items idx fs items)
    as (Ha & Hp & He & Ho & Hf).
  { intros w locs Hin. rewrite Hitems in Hin.
    by apply elem_of_map_to_list. }
  assert (∀ w, w ∈ items.*1 ↔ posting_locs idx !! w ≠ None) as Hkeys.
  { intros w. rewrite Hitems, list_elem_of_fmap. split.
    - intros ([w' locs] & -> & Hin). apply elem_of_map_to_list in Hin.
      cbn. by rewrite Hin.
    - intros Hw. destruct (posting_locs idx !! w) as [locs|] eqn:E; [|done].
      exists (w, locs). split; [done|]. by apply elem_of_map_to_list. }
  assert (NoDup items.*1) as Hnd.
  { rewrite Hitems. apply NoDup_fst_map_to_list. }
  split; [|split; [|split; [|split; [|split; [|split]]]]]; try done.
  - intros w pl Hin. split; [|by apply Ha]. apply Hkeys.
    eapply elem_of_sublist; [|apply (sublist_take _
      (length (posting_lists_iter idx fs items).1))].
    rewrite <- Hp. apply list_elem_of_fmap. by exists (w, pl).
  - rewrite Hp. eapply sublist_NoDup; [exact Hnd|apply sublist_take].
  - rewrite Ho. split; intros Hall w Hw; apply Hall; by apply Hkeys.
  - intros Hok w Hw. apply Hkeys in Hw. rewrite <- (He Hok) in Hw.
    apply list_elem_of_fmap in Hw as ([w' pl] & -> & Hin). by exists pl.
Qed.

(** X15. [posting_lists_iter] and [read_a_posting_list] agree, whatever the
    order in which the dictionary [posting_locs] gives its items: every pair
    [(w, pl)] the iterator yields is a term of [posting_locs] with the list
    [read_a_posting_list] returns for it, and no term is yielded twice; the
    iterator runs to its end exactly when the read succeeds for every term
    of [posting_locs], and then it has yielded each of them. The terms are
    yielded in the order of the items; an iterator that does not run to its
    end has yielded the terms before the first one whose read fails. *)
Theorem X15_iter_agrees (idx : InvertedIndex) (fs : store)
    (items : list (string * list loc)) :
  items_of (posting_locs idx) items →
  (∀ w pl, (w, pl) ∈ (posting_lists_iter idx fs items).1 →
     posting_locs idx !! w ≠ None ∧ read_a_posting_list idx fs w = Some pl) ∧
  NoDup (posting_lists_iter idx fs items).1.*1 ∧
  ((posting_lists_iter idx fs items).2 = true ↔
     ∀ w, posting_locs idx !! w ≠ None →
          is_Some (read_a_posting_list idx fs w)) ∧
  ((posting_lists_iter idx fs items).2 = true →
     ∀ w, posting_locs idx !! w ≠ None →
          ∃ pl, (w, pl) ∈ (posting_lists_iter idx fs items).1) ∧
  (posting_lists_iter idx fs items).1.*1
    = take (length (posting_lists_iter idx fs items).1) items.*1 ∧
  ((posting_lists_iter idx fs items).2 = true →
     (posting_lists_iter idx fs items).1.*1 = items.*1) ∧
  ((posting_lists_iter idx fs items).2 = false →
     ∃ w, items.*1 !! length (posting_lists_iter idx fs items).1 = Some w ∧
          read_a_posting_list idx fs w = None).
Proof. exact (posting_lists_iter_spec idx fs items). Qed.

Lemma X15_iter_agrees_witness :
  (posting_lists_iter dog_index dog_dir [("dog", [(("0", 0%nat), 0)])]).2
    = true ∧
  ∃ pl, ("dog", pl)
          ∈ (posting_lists_iter dog_index dog_dir
               [("dog", [(("0", 0%nat), 0)])]).1 ∧
        read_a_posting_list dog_index dog_dir "dog" = Some pl.
Proof.
  destruct (X15_iter_agrees dog_index dog_dir [("dog", [(("0", 0%nat), 0)])])
    as (Ha & _ & _ & Hall & _).
  { unfold items_of. cbn [dog_index posting_locs].
    by rewrite map_to_list_singleton. }
  assert ((posting_lists_iter dog_index dog_dir
             [("dog", [(("0", 0%nat), 0)])]).2 = true) as Hok
    by (vm_compute; reflexivity).
  split; [exact Hok|].
  destruct (Hall Hok "dog") as [pl Hpl]; [vm_compute; discriminate|].
  exists pl. split; [exact Hpl|]. exact (proj2 (Ha "dog" pl Hpl)).
Defined.

Lemma record_all_dom (m : gmap string (list loc))
    (kls : list (string * list loc)) (k : string) :
  record_all m kls !! k ≠ None ↔ m !! k ≠ None ∨ k ∈ kls.*1.
Proof.
  revert m. induction kls as [|[k' l] kls IH]; intros m.
  - cbn. split; [by left|]. intros [?|?%elem_of_nil]; done.
  - unfold record_all in *. cbn [fold_left fmap list_fmap fst].
    rewrite IH, elem_of_cons. destruct (decide (k' = k)) as [->|Hne].
    + rewrite lookup_insert_eq. split; [intros _; right; by left|].
      intros _. by left.
    + rewrite lookup_insert_ne by done. split.
      * intros [?|?]; [by left|right; by right].
      * intros [?|[?|?]]; [by left|congruence|by right].
Qed.

Lemma write_a_posting_list_keys (bucket_id : string)
    (list_w_pl : list (string * list posting)) (fs fs' : store)
    (locs_map : gmap string (list loc)) (w : string) :
  write_a_posting_list (bucket_id, list_w_pl) fs = Some (fs', locs_map) →
  locs_map !! w ≠ None ↔ w ∈ list_w_pl.*1.
Proof.
  unfold write_a_posting_list. rewrite write_all_seq. intros Hw.
  destruct (mapM encode_pl list_w_pl.*2) as [payloads|] eqn:Hm; [|done].
  cbn [mbind option_bind] in Hw.
  pose proof (MultiFileWriter_init_ok bucket_id fs) as [Hok0 _].
  destruct (write_seq_spec _ payloads Hok0)
    as (w' & locss & Hseq & _ & _ & Hlo).
  rewrite Hseq in Hw. cbn in Hw. injection Hw as <- <-.
  rewrite record_all_dom, lookup_empty.
  apply laid_out_length in Hlo. apply length_mapM in Hm.
  rewrite fst_zip by (rewrite !length_fmap in *; lia).
  split; [intros [?|?]; done|by right].
Qed.

Lemma same_keys_eq {A B} (l1 l2 : list (A * B)) :
  NoDup l2.*1 → l1.*1 = l2.*1 → (∀ x, x ∈ l1 → x ∈ l2) → l1 = l2.
Proof.
  revert l2. induction l1 as [|[k v] l1 IH]; intros [|[k' v'] l2] Hnd Hk Hin;
    try done.
  cbn in Hk, Hnd. injection Hk as -> Hk. apply NoDup_cons in Hnd as [Hk' Hnd].
  assert (∀ v0, (k', v0) ∈ l2 → False) as Hno.
  { intros v0 Hv. apply Hk'. apply list_elem_of_fmap. by exists (k', v0). }
  f_equal.
  - pose proof (Hin (k', v) ltac:(by left)) as Hv.
    apply elem_of_cons in Hv as [Heq|Hv]; [done|by apply Hno in Hv].
  - apply IH; [done|done|]. intros [k0 v0] Hx.
    pose proof (Hin (k0, v0) ltac:(by right)) as Hv.
    apply elem_of_cons in Hv as [[= -> ->]|?]; [|done].
    exfalso. apply Hk'. rewrite <- Hk. apply list_elem_of_fmap.
    by exists (k', v').
Qed.

(** X16. Write then iterate: after [write_a_posting_list] of pairs with
    distinct terms and values that fit the record, an index that has the
    locations written and, for each term, the length of its list as [df],
    is iterated to the end by [posting_lists_iter], which yields the pairs
    that were written, each once, in the order in which the dictionary
    gives its items: as they were written, when that is the order of the
    writing. *)
Theorem X16_write_then_iterate (bucket_id : string)
    (list_w_pl : list (string * list posting)) (fs : store) :
  NoDup list_w_pl.*1 →
  Forall (λ w_pl, Forall (λ p : posting, 0 ≤ p.1 < 2 ^ 32 ∧ 0 ≤ p.2 < 2 ^ 16)
                    w_pl.2) list_w_pl →
  ∃ fs' locs_map,
    write_a_posting_list (bucket_id, list_w_pl) fs = Some (fs', locs_map) ∧
    ∀ idx items,
      posting_locs idx = locs_map →
      items_of locs_map items →
      (∀ w pl, (w, pl) ∈ list_w_pl → count_of (df idx) w = len pl) →
      (posting_lists_iter idx fs' items).2 = true ∧
      (posting_lists_iter idx fs' items).1 ≡ₚ list_w_pl ∧
      (posting_lists_iter idx fs' items).1.*1 = items.*1 ∧
      (items.*1 = list_w_pl.*1 →
       (posting_lists_iter idx fs' items).1 = list_w_pl).
Proof.
  intros Hnd Hrange.
  destruct (write_a_posting_list_placed bucket_id list_w_pl fs)
    as (fs' & locs_map & Hw & Hplaced).
  { eapply Forall_impl; [exact Hrange|]. intros [k pl] Hpl. cbn in *.
    eapply Forall_impl; [exact Hpl|]. by intros p [? ?]. }
  exists fs', locs_map. split; [done|]. intros idx items Hlocs Hitems Hdf.
  assert (∀ w pl, (w, pl) ∈ list_w_pl →
            read_a_posting_list idx fs' w = Some pl) as Hread.
  { intros w pl Hin. destruct (Hplaced Hnd w pl Hin) as (locs & Hl & Hcase).
    destruct (read_back_gen idx fs' bucket_id w pl locs (len pl))
      as (l & Hr & Hlen & Htake); try done.
    - by rewrite Hlocs.
    - rewrite Forall_forall in Hrange. apply (Hrange (w, pl) Hin).
    - by apply Hdf.
    - apply len_nonneg.
    - rewrite Hr. f_equal. unfold len in *. rewrite Nat2Z.id in *.
      rewrite (take_ge pl) in Htake by lia.
      rewrite take_ge in Htake by lia. done. }
  assert (∀ w, posting_locs idx !! w ≠ None ↔ w ∈ list_w_pl.*1) as Hkeys.
  { intros w. rewrite Hlocs. by eapply write_a_posting_list_keys. }
  destruct (posting_lists_iter_spec idx fs' items)
    as (Ha & Hndy & Ho & Hall & _ & He & _); [by rewrite Hlocs|].
  assert ((posting_lists_iter idx fs' items).2 = true) as Hok.
  { apply Ho. intros w Hk. apply Hkeys in Hk.
    apply list_elem_of_fmap in Hk as ([w' pl] & -> & Hin).
    cbn. by rewrite (Hread w' pl Hin). }
  assert (∀ x, x ∈ (posting_lists_iter idx fs' items).1 → x ∈ list_w_pl)
    as Hsub.
  { intros [w pl] Hin. destruct (Ha w pl Hin) as [Hk Hr]. apply Hkeys in Hk.
    apply list_elem_of_fmap in Hk as ([w' pl'] & Heq & Hin'). cbn in Heq.
    subst w'. rewrite (Hread w pl' Hin') in Hr. by injection Hr as ->. }
  split; [done|]. split; [|split; [by apply He|]].
  - apply NoDup_Permutation.
    + by apply NoDup_fmap_1 with fst.
    + by apply NoDup_fmap_1 with fst.
    + intros [w pl]. split; [apply Hsub|].
      intros Hin. destruct (Hall Hok w) as [pl' Hin'].
      { apply Hkeys. apply list_elem_of_fmap. by exists (w, pl). }
      destruct (Ha w pl' Hin') as [_ Hr].
      rewrite (Hread w pl Hin) in Hr. by injection Hr as <-.
  - intros Horder. apply same_keys_eq; [done| |done].
    by rewrite (He Hok).
Qed.

Lemma X16_write_then_iterate_witness :
  ∃ fs' locs_map,
    write_a_posting_list
      ("b1", [("cat", [(5, 3); (6, 1)]); ("dog", [(1, 1)])]) ∅
    = Some (fs', locs_map) ∧
    (posting_lists_iter
       {| df := {["cat" := 2; "dog" := 1]}; term_total := ∅;
          _posting_list := ∅; posting_locs := locs_map |} fs'
       (map_to_list locs_map)).1
    ≡ₚ [("cat", [(5, 3); (6, 1)]); ("dog", [(1, 1)])].
Proof.
  destruct (X16_write_then_iterate "b1"
              [("cat", [(5, 3); (6, 1)]); ("dog", [(1, 1)])] ∅)
    as (fs' & locs_map & Hw & Hit).
  - cbn. by apply (bool_decide_unpack _).
  - repeat constructor; cbn; lia.
  - exists fs', locs_map. split; [exact Hw|].
    apply (Hit {| df := {["cat" := 2; "dog" := 1]}; term_total := ∅;
                  _posting_list := ∅; posting_locs := locs_map |}
               (map_to_list locs_map));
      [reflexivity|unfold items_of; reflexivity|].
    intros w pl Hin. repeat (apply elem_of_cons in Hin as [Hin|Hin]);
      [| |by apply elem_of_nil in Hin]; injection Hin as -> ->; reflexivity.
Defined.

(** ** Ranking by counts: title and anchor search *)

Lemma count_hit_fold (ds : list Z) (scores : list (Z * Z)) (d : Z) :
  od_get (fold_left count_hit ds scores) d =
  match od_get scores d with
  | Some v => Some (v + Z.of_nat (length (filter (λ x, x = d) ds)))
  | None =>
      if decide (d ∈ ds)
      then Some (Z.of_nat (length (filter (λ x, x = d) ds))) else None
  end.
Proof.
  revert scores. induction ds as [|x ds IH]; intros scores; cbn [fold_left].
  - cbn. destruct (od_get scores d); [f_equal; lia|].
    by rewrite decide_False by apply not_elem_of_nil.
  - rewrite IH. unfold count_hit at 1. rewrite od_get_set, filter_cons.
    destruct (decide (x = d)) as [->|Hne].
    + cbn [length]. destruct (od_get scores d) as [v|]; cbn; [f_equal; lia|].
      rewrite decide_True by left. f_equal; lia.
    + destruct (od_get scores d) as [v|]; [done|].
      destruct (decide (d ∈ ds)) as [Hin|Hnin].
      * by rewrite decide_True by (by right).
      * rewrite decide_False; [done|].
        rewrite not_elem_of_cons. split; [congruence|done].
Qed.

Lemma count_hit_fold_keys (ds : list Z) (scores : list (Z * Z)) :
  (fold_left count_hit ds scores).*1
  = fold_left (λ acc d, if decide (d ∈ acc) then acc else acc ++ [d]) ds
      scores.*1.
Proof.
  revert scores. induction ds as [|x ds IH]; intros scores; cbn [fold_left];
    [done|].
  rewrite IH. unfold count_hit. by rewrite od_set_keys.
Qed.

Lemma od_get_elem {K V} `{EqDecision K} (l : list (K * V)) (k : K) (v : V) :
  NoDup l.*1 → od_get l k = Some v ↔ (k, v) ∈ l.
Proof.
  induction l as [|[k' v'] l IH]; intros Hnd; cbn [od_get].
  - split; [done|]. by intros ?%elem_of_nil.
  - cbn in Hnd. apply NoDup_cons in Hnd as [Hk' Hnd].
    rewrite elem_of_cons. destruct (decide (k' = k)) as [->|Hne].
    + split; [intros [= ->]; by left|].
      intros [[= ->]|Hin]; [done|]. exfalso. apply Hk'.
      apply list_elem_of_fmap. by exists (k, v).
    + rewrite IH by done. split; [by right|].
      intros [[= ? ?]|?]; [congruence|done].
Qed.

Lemma count_scores_hits (index : option InvertedIndex) (fs : store)
    (tokens : list string) :
  NoDup (count_scores index fs tokens).*1 ∧
  (count_scores index fs tokens).*1 = first_seen (hit_ids index fs tokens) ∧
  ∀ d n, (d, n) ∈ count_scores index fs tokens
         ↔ n = hit_count index fs tokens d ∧ 0 < n.
Proof.
  destruct (count_scores_keys index fs tokens) as [Hnd _].
  split; [done|]. unfold count_scores in *. rewrite count_scores_flat in *.
  split; [by rewrite count_hit_fold_keys|].
  intros d n. rewrite <- od_get_elem by done. rewrite count_hit_fold.
  cbn [od_get]. unfold hit_count, hit_ids.
  set (ds := concat _).
  assert (0 < Z.of_nat (length (filter (λ x, x = d) ds)) ↔ d ∈ ds) as Hpos.
  { rewrite <- Nat2Z.inj_0, <- Nat2Z.inj_lt.
    split.
    - intros Hlen. destruct (filter (λ x, x = d) ds) as [|y l] eqn:E;
        [cbn in Hlen; lia|].
      assert (y ∈ filter (λ x, x = d) ds) as Hy by (rewrite E; left).
      apply list_elem_of_filter in Hy as [-> ?]. done.
    - intros Hin. assert (d ∈ filter (λ x, x = d) ds) as Hd
        by (by apply list_elem_of_filter).
      destruct (filter (λ x, x = d) ds); [by apply elem_of_nil in Hd|].
      cbn. lia. }
  destruct (decide (d ∈ ds)) as [Hin|Hnin].
  - split; [intros [= <-]; split; [done|by apply Hpos]|by intros [-> _]].
  - split; [done|]. intros [-> Hn]. by apply Hpos in Hn.
Qed.

Section stability.
Context {K V : Type} `{EqDecision V} (lt : V → V → bool).
Hypothesis lt_irrefl : ∀ v, lt v v = false.

Lemma insert_desc_stable (v : V) (x : K * V) (l : list (K * V)) :
  filter (λ a, a.2 = v) (insert_desc lt x l) = filter (λ a, a.2 = v) (x :: l).
Proof.
  induction l as [|y l IH]; cbn [insert_desc]; [done|].
  destruct (lt x.2 y.2) eqn:Hlt; [|done].
  rewrite filter_cons, IH, !filter_cons.
  destruct (decide (y.2 = v)) as [Hy|Hy], (decide (x.2 = v)) as [Hx|Hx];
    try done.
  rewrite Hx, Hy, lt_irrefl in Hlt. done.
Qed.

Lemma sorted_desc_stable (v : V) (l : list (K * V)) :
  filter (λ a, a.2 = v) (sorted_desc lt l) = filter (λ a, a.2 = v) l.
Proof.
  induction l as [|x l IH]; [done|].
  unfold sorted_desc in *. cbn [foldr].
  by rewrite insert_desc_stable, !filter_cons, IH.
Qed.
End stability.

Lemma StronglySorted_weaken {A} (R1 R2 : A → A → Prop) (l : list A) :
  (∀ x y, R1 x y → R2 x y) → StronglySorted R1 l → StronglySorted R2 l.
Proof.
  intros HR. induction 1 as [|a l _ IH Ha]; constructor; [done|].
  eapply Forall_impl; [exact Ha|]. apply HR.
Qed.

Lemma Z_ltb_strict_weak : StrictWeak Z.ltb.
Proof. split; intros; lia. Qed.

(** The ranking that [search_title] and [search_anchor] render. *)
Lemma count_ranking (index : option InvertedIndex) (fs : store)
    (tokens : list string) :
  NoDup (sorted_desc Z.ltb (count_scores index fs tokens)).*1 ∧
  (∀ d n, (d, n) ∈ sorted_desc Z.ltb (count_scores index fs tokens)
          ↔ n = hit_count index fs tokens d ∧ 0 < n) ∧
  StronglySorted (λ a b : Z * Z, b.2 ≤ a.2)
    (sorted_desc Z.ltb (count_scores index fs tokens)) ∧
  (∀ v, filter (λ d, hit_count index fs tokens d = v)
          (sorted_desc Z.ltb (count_scores index fs tokens)).*1
        = filter (λ d, hit_count index fs tokens d = v)
            (first_seen (hit_ids index fs tokens))).
Proof.
  destruct (count_scores_hits index fs tokens) as (Hnd & Hkeys & Hhits).
  pose proof (sorted_desc_perm Z.ltb (count_scores index fs tokens)) as Hperm.
  assert (∀ d n, (d, n) ∈ sorted_desc Z.ltb (count_scores index fs tokens)
                 ↔ n = hit_count index fs tokens d ∧ 0 < n) as Hhits'.
  { intros d n. by rewrite Hperm. }
  split; [by rewrite Hperm|]. split; [done|]. split.
  - pose proof Z_ltb_strict_weak as Hsw.
    eapply StronglySorted_weaken; [|apply (sorted_desc_sorted Z.ltb)].
    intros a b Hab. cbn in Hab. lia.
  - intros v. rewrite <- Hkeys.
    assert (∀ l : list (Z * Z),
              (∀ d n, (d, n) ∈ l → n = hit_count index fs tokens d) →
              filter (λ d, hit_count index fs tokens d = v) l.*1
              = (filter (λ a : Z * Z, a.2 = v) l).*1) as Hfilter.
    { induction l as [|[d n] l IH]; intros Hl; [done|].
      cbn [fmap list_fmap fst]. rewrite !filter_cons. cbn [snd].
      rewrite <- (Hl d n) by left.
      rewrite IH by (intros; apply Hl; by right).
      by destruct (decide (n = v)). }
    rewrite !Hfilter.
    + by rewrite sorted_desc_stable by (intros; lia).
    + intros d n Hin. by apply Hhits in Hin as [-> _].
    + intros d n Hin. by apply Hhits' in Hin as [-> _].
Qed.

(** X17. [search_title] ranks by hit count: the result renders a list of
    pairs (document, score) in which each document that has a posting under
    some query token occurs once, with the number of such postings as its
    score (a token counts as often as the query has it); the scores
    descend; and documents of equal score come in the order in which the
    loops first met them. *)
Theorem X17_title_ranking {F : Type} `{PyFloat F} (fe : SearchFrontend F)
    (tokens : list string) :
  ∃ ranked : list (Z * Z),
    search_title fe tokens = render (id_to_title fe) ranked ∧
    NoDup ranked.*1 ∧
    (∀ d n, (d, n) ∈ ranked
            ↔ n = hit_count (title_index fe) (title_dir fe) tokens d ∧ 0 < n) ∧
    StronglySorted (λ a b : Z * Z, b.2 ≤ a.2) ranked ∧
    (∀ v, filter (λ d, hit_count (title_index fe) (title_dir fe) tokens d = v)
            ranked.*1
          = filter (λ d, hit_count (title_index fe) (title_dir fe) tokens d = v)
              (first_seen (hit_ids (title_index fe) (title_dir fe) tokens))).
Proof.
  eexists. split; [reflexivity|]. apply count_ranking.
Qed.

(** X18. [search_anchor] raises when the anchor index could not be loaded,
    before it looks at the query; with an index it ranks by hit count as
    [search_title] does: each document with a posting under some query
    token once, scored by the number of such postings, scores descending,
    equal scores in the order of first meeting. *)
Theorem X18_anchor_ranking {F : Type} `{PyFloat F} (fe : SearchFrontend F)
    (tokens : list string) :
  (anchor_index fe = None → search_anchor fe tokens = None) ∧
  (anchor_index fe ≠ None →
   ∃ ranked : list (Z * Z),
    search_anchor fe tokens = Some (render (id_to_title fe) ranked) ∧
    NoDup ranked.*1 ∧
    (∀ d n, (d, n) ∈ ranked
            ↔ n = hit_count (anchor_index fe) (anchor_dir fe) tokens d ∧ 0 < n) ∧
    StronglySorted (λ a b : Z * Z, b.2 ≤ a.2) ranked ∧
    (∀ v, filter (λ d, hit_count (anchor_index fe) (anchor_dir fe) tokens d = v)
            ranked.*1
          = filter (λ d, hit_count (anchor_index fe) (anchor_dir fe) tokens d = v)
              (first_seen (hit_ids (anchor_index fe) (anchor_dir fe) tokens)))).
Proof.
  unfold search_anchor. split.
  - by intros ->.
  - intros Hsome. destruct (anchor_index fe) as [index|] eqn:E; [|done].
    eexists. split; [reflexivity|]. apply count_ranking.
Qed.

Lemma X18_anchor_ranking_witness :
  @search_anchor R dog_frontend ["dog"] = None.
Proof.
  apply (proj1 (@X18_anchor_ranking R R_arith dog_frontend ["dog"])).
  reflexivity.
Defined.

(** ** An index that could not be loaded *)

Lemma count_scores_None (fs : store) (tokens : list string) :
  count_scores None fs tokens = [].
Proof.
  unfold count_scores. induction tokens as [|t tokens IH]; [done|]. apply IH.
Qed.

Section missing_index.
Context {F : Type} `{PyFloat F}.

Lemma body_scores_None (fe : SearchFrontend F) (tokens : list string) :
  body_index fe = None → search_body_scores fe tokens = Some [].
Proof.
  intros Hb. unfold search_body_scores.
  induction tokens as [|t tokens IH]; [done|].
  cbn [for_loop].
  assert (body_token fe (corpus_size fe) [] t = Some []) as ->
    by (unfold body_token; by rewrite Hb).
  apply IH.
Qed.

Lemma search_scores_None (fe : SearchFrontend F) (tokens : list string) :
  title_index fe = None → body_index fe = None →
  search_scores fe tokens = Some [].
Proof.
  intros Ht Hb. unfold search_scores.
  induction tokens as [|t tokens IH]; [done|].
  cbn [for_loop].
  assert (hybrid_token fe (corpus_size fe) [] t = Some []) as ->
    by (unfold hybrid_token; by rewrite Ht, Hb).
  apply IH.
Qed.

(** X19. With an index that could not be loaded the search methods do not
    fail, whatever the query: [search_title] without a title index and
    [search_body] without a body index return the empty list, and so does
    [search] when both are missing. *)
Theorem X19_missing_index (fe : SearchFrontend F) (tokens : list string) :
  (title_index fe = None → search_title fe tokens = []) ∧
  (body_index fe = None → search_body fe tokens = Some []) ∧
  (title_index fe = None → body_index fe = None →
   search fe tokens = Some []).
Proof.
  split; [|split].
  - intros Ht. unfold search_title. by rewrite Ht, count_scores_None.
  - intros Hb. unfold search_body. by rewrite body_scores_None.
  - intros Ht Hb. unfold search. by rewrite search_scores_None.
Qed.

End missing_index.

Lemma X19_missing_index_witness :
  @search_body R R_arith wide_frontend ["dog"; "cat"] = Some [].
Proof.
  apply (@X19_missing_index R R_arith wide_frontend ["dog"; "cat"]).
  reflexivity.
Defined.

(** ** Ranking by score: body and hybrid search *)

Section ranking.
Context {F : Type} `{PyFloat F}.

Lemma accumulate_keys (cs scores : list (Z * F)) :
  NoDup scores.*1 →
  NoDup (accumulate scores cs).*1 ∧
  ∀ d, d ∈ (accumulate scores cs).*1 ↔ d ∈ scores.*1 ∨ d ∈ cs.*1.
Proof.
  revert scores. induction cs as [|c cs IH]; intros scores Hnd.
  - cbn. split; [done|]. intros d. split; [by left|].
    by intros [?|?%elem_of_nil].
  - unfold accumulate in *. cbn [fold_left].
    destruct (IH (score_add scores c.1 c.2)) as [Hnd' Hin].
    { unfold score_add. by apply od_set_NoDup. }
    split; [done|]. intros d. rewrite Hin. unfold score_add.
    rewrite od_set_keys, fmap_cons, elem_of_cons.
    destruct (decide (c.1 ∈ scores.*1)) as [Hc|Hc].
    + split; [intros [?|?]; [by left|by right; right]|].
      intros [?|[->|?]]; [by left|by left|by right].
    + rewrite elem_of_app, list_elem_of_singleton.
      split; [intros [[?|?]|?]; [by left|right; by left|by right; right]|].
      intros [?|[?|?]]; [left; by left|left; by right|by right].
Qed.

Lemma mapM_ids {A} (g : A → option (Z * F)) (key : A → Z) (l : list A)
    (cs : list (Z * F)) :
  (∀ a c, g a = Some c → c.1 = key a) →
  mapM g l = Some cs → cs.*1 = key <$> l.
Proof.
  intros Hg Hm. apply mapM_Some in Hm.
  induction Hm as [|a c l cs Hac _ IH]; [done|].
  cbn [fmap list_fmap]. f_equal; [by apply Hg|done].
Qed.

Lemma body_term_contribs_ids (fe : SearchFrontend F) (N : Z) (t : string)
    (cs : list (Z * F)) :
  body_term_contribs fe N t = Some cs →
  cs.*1 = (_get_posting (body_index fe) (body_dir fe) t).*1.
Proof.
  unfold body_term_contribs. destruct (body_index fe) as [index|] eqn:Hb.
  - destruct (decide (df index !! t = None)) as [Hdf|Hdf].
    + intros [= <-]. unfold _get_posting. by rewrite decide_True.
    + destruct (idf_of N index t) as [idf|]; [|done]. cbn [mbind option_bind].
      apply mapM_ids. intros p c. unfold body_contrib.
      destruct (fdiv _ _); [|done]. by intros [= <-].
  - by intros [= <-].
Qed.

Lemma body_contribs_ids (fe : SearchFrontend F) (tokens : list string)
    (cs : list (Z * F)) :
  body_contribs fe tokens = Some cs →
  cs.*1 = hit_ids (body_index fe) (body_dir fe) tokens.
Proof.
  unfold body_contribs, hit_ids. generalize (corpus_size fe). intros N.
  destruct (mapM (body_term_contribs fe N) tokens) as [css|] eqn:Hm; [|done].
  intros [= <-]. apply mapM_Some in Hm.
  induction Hm as [|t c tokens css Htc _ IH]; [done|].
  cbn [concat fmap list_fmap]. rewrite fmap_app. f_equal; [|done].
  by apply body_term_contribs_ids in Htc.
Qed.

Lemma render_NoDup {V} (titles : gmap Z string) (res : list (Z * V)) :
  NoDup res.*1 → NoDup (render titles res).*1.
Proof.
  intros Hnd. rewrite render_ids. apply (NoDup_fmap_2 _). done.
Qed.

Context `{!StrictWeak flt}.

(** The ranking that [search_body] and [search] render, from the scores
    they have accumulated. *)
Lemma ranking_spec (fe : SearchFrontend F) (cs : list (Z * F)) :
  ∃ ranked,
    ranked ≡ₚ accumulate [] cs ∧
    StronglySorted (λ a b, flt a.2 b.2 = false) ranked ∧
    render (id_to_title fe) (py_upto 100 (sorted_desc flt (accumulate [] cs)))
    = render (id_to_title fe) (take 100 ranked) ∧
    (∀ x y, x ∈ take 100 ranked → y ∈ drop 100 ranked →
            flt x.2 y.2 = false) ∧
    NoDup (render (id_to_title fe) (take 100 ranked)).*1 ∧
    (∀ x, x ∈ (render (id_to_title fe) (take 100 ranked)).*1 →
          ∃ d, x = pretty d ∧ d ∈ cs.*1).
Proof.
  exists (sorted_desc flt (accumulate [] cs)).
  destruct (accumulate_keys cs []) as [Hnd Hin]; [constructor|].
  pose proof (sorted_desc_perm flt (accumulate [] cs)) as Hperm.
  split; [done|]. split; [by apply sorted_desc_sorted|].
  split; [by rewrite py_upto_nonneg by lia|].
  split; [intros x y; by apply sorted_desc_top|].
  assert (NoDup (take 100 (sorted_desc flt (accumulate [] cs))).*1) as Hnd'.
  { eapply sublist_NoDup; [|apply fmap_sublist, sublist_take].
    by rewrite Hperm. }
  split; [by apply render_NoDup|].
  intros x. rewrite render_ids. intros (d & -> & Hd)%list_elem_of_fmap.
  exists d. split; [done|].
  assert (d ∈ (sorted_desc flt (accumulate [] cs)).*1) as Hd'.
  { eapply elem_of_sublist; [exact Hd|apply fmap_sublist, sublist_take]. }
  rewrite Hperm in Hd'. apply Hin in Hd' as [?%elem_of_nil|?]; done.
Qed.

(** X20. [search_body] ranks by accumulated score: when it returns, the
    result renders the first 100 at most of the scored documents in
    descending order of score, no document left out has a larger score than
    one that is listed, no document is listed twice, and every document
    listed has a posting in the body index under some query token. *)
Theorem X20_body_ranking (fe : SearchFrontend F) (tokens : list string)
    (res : list (string * string)) :
  search_body fe tokens = Some res →
  ∃ scores ranked,
    search_body_scores fe tokens = Some scores ∧
    ranked ≡ₚ scores ∧
    StronglySorted (λ a b, flt a.2 b.2 = false) ranked ∧
    res = render (id_to_title fe) (take 100 ranked) ∧
    (∀ x y, x ∈ take 100 ranked → y ∈ drop 100 ranked →
            flt x.2 y.2 = false) ∧
    NoDup res.*1 ∧
    (∀ x, x ∈ res.*1 →
          ∃ d, x = pretty d ∧
               d ∈ hit_ids (body_index fe) (body_dir fe) tokens).
Proof.
  unfold search_body. rewrite search_body_scores_contribs.
  destruct (body_contribs fe tokens) as [cs|] eqn:Hcs; [|done].
  cbn [mbind option_bind]. intros [= <-].
  destruct (ranking_spec fe cs) as (ranked & Hp & Hs & -> & Htop & Hnd & Hids).
  exists (accumulate [] cs), ranked. split; [done|]. split; [done|].
  split; [done|]. split; [done|]. split; [done|]. split; [done|].
  intros x Hx. destruct (Hids x Hx) as (d & -> & Hd). exists d.
  split; [done|]. by rewrite <- (body_contribs_ids fe tokens cs).
Qed.

End ranking.

Lemma dog_body_contribs :
  ∃ x1 x2 : R,
    @body_contribs R R_arith dog_frontend ["dog"] = Some [(1, x1); (2, x2)].
Proof.
  unfold body_contribs, body_term_contribs. cbn [mapM].
  change (body_index dog_frontend) with (Some dog_index).
  cbv beta iota. rewrite decide_False by done.
  change (body_dir dog_frontend) with dog_dir.
  rewrite dog_postings.
  unfold idf_of. change (count_of (df dog_index) "dog") with 2.
  change (corpus_size dog_frontend) with 2.
  cbn [int_truediv R_arith]. rewrite decide_False by lia.
  cbn [mbind option_bind log_base10 R_arith].
  destruct (Rlt_dec 0 (2 / 2)) as [_|Hn]; [|exfalso; apply Hn; lra].
  cbn.
  change (norm_of dog_frontend 1) with 1%R.
  change (norm_of dog_frontend 2) with 2%R.
  destruct (Req_dec_T 1 0) as [Hn|_]; [lra|].
  destruct (Req_dec_T 2 0) as [Hn|_]; [lra|].
  cbn. eauto.
Qed.

Lemma X20_body_ranking_witness :
  ∃ res, @search_body R R_arith dog_frontend ["dog"] = Some res ∧
         NoDup res.*1.
Proof.
  assert (∃ res, @search_body R R_arith dog_frontend ["dog"] = Some res)
    as [res Hres].
  { destruct dog_body_contribs as (x1 & x2 & Hcs). unfold search_body.
    rewrite search_body_scores_contribs, Hcs. eexists. reflexivity. }
  exists res. split; [exact Hres|].
  destruct (@X20_body_ranking R R_arith R_arith_strict_weak dog_frontend
              ["dog"] res Hres)
    as (scores & ranked & _ & _ & _ & _ & _ & Hnd & _).
  exact Hnd.
Defined.

Section hybrid_ids.
Context {F : Type} `{PyFloat F}.

Lemma hybrid_term_contribs_ids (fe : SearchFrontend F) (N : Z) (t : string)
    (cs : list (Z * F)) :
  hybrid_term_contribs fe N t = Some cs →
  cs.*1 = (_get_posting (title_index fe) (title_dir fe) t).*1
          ++ (_get_posting (body_index fe) (body_dir fe) t).*1.
Proof.
  assert ((title_contribs fe t).*1
          = (_get_posting (title_index fe) (title_dir fe) t).*1) as Ht.
  { unfold title_contribs. rewrite <- list_fmap_compose.
    by apply list_fmap_ext. }
  unfold hybrid_term_contribs. destruct (body_index fe) as [index|] eqn:Hb.
  - destruct (decide (df index !! t = None)) as [Hdf|Hdf].
    + intros [= <-]. unfold _get_posting at 2. rewrite decide_True by done.
      by rewrite app_nil_r.
    + destruct (idf_of N index t) as [idf|]; [|done]. cbn [mbind option_bind].
      destruct (mapM (hybrid_contrib fe idf) _) as [bs|] eqn:Hm; [|done].
      cbn [mbind option_bind]. intros [= <-]. rewrite fmap_app, Ht. f_equal.
      eapply mapM_ids; [|exact Hm]. intros p c. unfold hybrid_contrib.
      destruct (fdiv _ _); [|done]. by intros [= <-].
  - intros [= <-]. cbn. by rewrite app_nil_r.
Qed.

Lemma hybrid_contribs_ids (fe : SearchFrontend F) (tokens : list string)
    (cs : list (Z * F)) (d : Z) :
  hybrid_contribs fe tokens = Some cs → d ∈ cs.*1 →
  d ∈ hit_ids (title_index fe) (title_dir fe) tokens ∨
  d ∈ hit_ids (body_index fe) (body_dir fe) tokens.
Proof.
  unfold hybrid_contribs, hit_ids. generalize (corpus_size fe). intros N.
  destruct (mapM (hybrid_term_contribs fe N) tokens) as [css|] eqn:Hm; [|done].
  intros [= <-]. apply mapM_Some in Hm.
  induction Hm as [|t c tokens css Htc _ IH]; [by intros ?%elem_of_nil|].
  cbn [concat fmap list_fmap]. rewrite fmap_app, !elem_of_app.
  apply hybrid_term_contribs_ids in Htc. rewrite Htc, elem_of_app.
  intros [[?|?]|Hd]; [left; by left|right; by left|].
  destruct (IH Hd); [left; by right|right; by right].
Qed.

(** X21. [search] never lists a document twice, and every document it
    lists has a posting under some query token, in the title index or in
    the body index. *)
Theorem X21_search_distinct (fe : SearchFrontend F) (tokens : list string)
    (res : list (string * string)) :
  search fe tokens = Some res →
  NoDup res.*1 ∧
  ∀ x, x ∈ res.*1 →
       ∃ d, x = pretty d ∧
            (d ∈ hit_ids (title_index fe) (title_dir fe) tokens ∨
             d ∈ hit_ids (body_index fe) (body_dir fe) tokens).
Proof.
  unfold search. rewrite search_scores_contribs.
  destruct (hybrid_contribs fe tokens) as [cs|] eqn:Hcs; [|done].
  cbn [mbind option_bind]. intros [= <-].
  destruct (accumulate_keys cs []) as [Hnd Hin]; [constructor|].
  pose proof (sorted_desc_perm flt (accumulate [] cs)) as Hperm.
  rewrite py_upto_nonneg by lia.
  split.
  - apply render_NoDup.
    eapply sublist_NoDup; [|apply fmap_sublist, sublist_take].
    by rewrite Hperm.
  - intros x. rewrite render_ids. intros (d & -> & Hd)%list_elem_of_fmap.
    exists d. split; [done|]. apply (hybrid_contribs_ids fe tokens cs d Hcs).
    assert (d ∈ (sorted_desc flt (accumulate [] cs)).*1) as Hd'.
    { eapply elem_of_sublist; [exact Hd|apply fmap_sublist, sublist_take]. }
    rewrite Hperm in Hd'. apply Hin in Hd' as [?%elem_of_nil|?]; done.
Qed.

End hybrid_ids.

Lemma X21_search_distinct_witness :
  ∃ res, @search R R_arith dog_frontend ["dog"] = Some res ∧ NoDup res.*1.
Proof.
  assert (∃ res, @search R R_arith dog_frontend ["dog"] = Some res)
    as [res Hres].
  { destruct dog_hybrid_contribs as (x1 & x2 & Hcs). unfold search.
    rewrite search_scores_contribs, Hcs. eexists. reflexivity. }
  exists res. split; [exact Hres|].
  exact (proj1 (@X21_search_distinct R R_arith dog_frontend ["dog"] res Hres)).
Defined.
